(** * A pointer-level model of the SkipList template of SkipList.hpp

    The engine is a tower of singly linked layers.  The C++ code walks and
    mutates raw [Node *] pointers, and the upper layers alias the nodes of
    the layers below through [down].  The embedding keeps that: nodes live
    in an arena ([list Node], a pointer is an index, [nullptr] is [None]),
    every member function is a function on the engine state, and every
    dereference is checked.  Loops that follow pointers take fuel. *)

From Stdlib Require Import ZArith Lia String Ascii DecimalString.
From stdpp Require Import base list sorting.

Local Open Scope Z_scope.

(** ** Outcomes of a member function *)

(** A call returns normally, throws [RuntimeException(msg)], dereferences a
    null or dangling pointer, or exhausts the fuel of one of its loops. *)
Inductive outcome (A : Type) : Type :=
  | Ret (a : A)
  | Throw (msg : string)
  | Undefined
  | OutOfFuel.
Arguments Ret {A} a.
Arguments Throw {A} msg.
Arguments Undefined {A}.
Arguments OutOfFuel {A}.

Definition bind {A B : Type} (m : outcome A) (f : A → outcome B) : outcome B :=
  match m with
  | Ret a => f a
  | Throw msg => Throw msg
  | Undefined => Undefined
  | OutOfFuel => OutOfFuel
  end.

Notation "'let*' p ':=' m 'in' k" := (bind m (λ p, k))
  (at level 10, p pattern, m at level 100, k at level 200).

(** The four messages the source throws. *)
Definition msg_absent_the : string := "The key does not exist in the skip list.".
Definition msg_absent_this : string := "This key does not exist in the skip list.".
Definition msg_largest : string := "This key is the largest key in the skip list.".
Definition msg_smallest : string := "This key is the smallest key in the skip list.".

(** The failure kinds of the specification, read off the message. *)
Inductive failure := KeyNotFound | NoSuccessor | NoPredecessor.

Definition signals {A} (o : outcome A) (f : failure) : Prop :=
  match o with
  | Throw msg =>
      match f with
      | KeyNotFound => msg = msg_absent_the ∨ msg = msg_absent_this
      | NoSuccessor => msg = msg_largest
      | NoPredecessor => msg = msg_smallest
      end
  | _ => False
  end.

(** A call that comes back: it returns or throws, it neither runs into
    undefined behaviour nor exhausts its fuel. *)
Definition settled {A} (o : outcome A) : Prop :=
  match o with
  | Ret _ | Throw _ => True
  | Undefined | OutOfFuel => False
  end.

(** ** Machine integers *)

Definition wrap32 (z : Z) : Z := z mod 2 ^ 32.
Definition wrap64 (z : Z) : Z := z mod 2 ^ 64.

(** [unsigned] to [int], as in [int i = layer_num - 1]. *)
Definition int_of_unsigned (u : Z) : Z := if u <? 2 ^ 31 then u else u - 2 ^ 32.

(** The value of a [char] that holds the low eight bits of [z]; [sgn] says
    whether plain [char] is signed on the platform. *)
Definition to_char (sgn : bool) (z : Z) : Z :=
  let b := z mod 256 in
  if sgn && (128 <=? b) then b - 256 else b.

(** ** The deterministic coin *)

(** [flipCoin(unsigned key, unsigned previousFlips)] *)
Definition flipCoin_unsigned (sgn : bool) (key previousFlips : Z) : bool :=
  let first8Bits := Z.land key 0xFF000000 / 0x01000000 in
  let next8Bits := Z.land key 0x00FF0000 / 0x00010000 in
  let andThen := Z.land key 0x0000FF00 / 0x00000100 in
  let lastBits := Z.land key 0x000000FF in
  let c := to_char sgn
             (Z.lxor (Z.lxor (Z.lxor first8Bits next8Bits) andThen) lastBits) in
  let previousFlips := previousFlips mod 8 in
  negb (Z.land c (Z.shiftl 1 previousFlips) =? 0).

(** [key[j]] as a [char]; [key[key.length()]] is the terminating NUL. *)
Fixpoint char_at (sgn : bool) (key : string) (j : nat) : Z :=
  match key, j with
  | EmptyString, _ => 0
  | String a _, O => to_char sgn (Z.of_N (N_of_ascii a))
  | String _ key', S j' => char_at sgn key' j'
  end.

(** The loop [for (j = 1; j < key.length(); j++) c = c ^ key[j]], run for
    [n] more iterations from index [j]. *)
Fixpoint xor_chars (sgn : bool) (key : string) (n j : nat) (c : Z) : Z :=
  match n with
  | O => c
  | S n' => xor_chars sgn key n' (S j) (to_char sgn (Z.lxor c (char_at sgn key j)))
  end.

(** [flipCoin(std::string key, unsigned previousFlips)] *)
Definition flipCoin_string (sgn : bool) (key : string) (previousFlips : Z) : bool :=
  let c := char_at sgn key 0 in
  let c := xor_chars sgn key (String.length key - 1) 1 c in
  let previousFlips := previousFlips mod 8 in
  negb (Z.land c (Z.shiftl 1 previousFlips) =? 0).

(** The promotion function as the specification words it: XOR the 8-bit
    groups of the key into one byte, test bit [p mod 8]. *)
Definition byte_groups (key : Z) : list Z :=
  map (λ i, (key / 2 ^ (8 * i)) mod 256) [3; 2; 1; 0].

Definition xor_all (bytes : list Z) : Z := foldr Z.lxor 0 bytes.

Definition promote_spec (key p : Z) : bool := Z.testbit (xor_all (byte_groups key)) (p mod 8).

Definition string_bytes (key : string) : list Z :=
  map (λ a, Z.of_N (N_of_ascii a)) (list_ascii_of_string key).

Definition promote_spec_string (key : string) (p : Z) : bool :=
  Z.testbit (xor_all (string_bytes key)) (p mod 8).

(** Two integers with the same low eight bits. *)
Definition same_byte (a b : Z) : Prop := ∀ i, 0 ≤ i < 8 → Z.testbit a i = Z.testbit b i.

(** ** What the template asks of its parameters *)

(** [Key] is default constructible, compared with [<], [<=], [==] (and
    [!=], its negation), and has a [flipCoin] overload. *)
Class KeyType (Key : Type) := {
  key_default : Key;
  key_ltb : Key → Key → bool;
  key_leb : Key → Key → bool;
  key_eqb : Key → Key → bool;
  flipCoin : Key → Z → bool;
}.

(** The comparisons form a strict total order. *)
Class KeyLaws (Key : Type) `{KeyType Key} : Prop := {
  key_eqb_eq : ∀ x y, key_eqb x y = true ↔ x = y;
  key_ltb_irrefl : ∀ x, key_ltb x x = false;
  key_ltb_trans : ∀ x y z, key_ltb x y = true → key_ltb y z = true → key_ltb x z = true;
  key_ltb_total : ∀ x y, key_ltb x y = true ∨ x = y ∨ key_ltb y x = true;
  key_leb_ltb : ∀ x y, key_leb x y = key_ltb x y || key_eqb x y;
}.

(** [Value] is default constructible. *)
Class ValueType (Value : Type) := value_default : Value.

(** [SkipList<unsigned, ...>] *)
Definition unsigned_key (sgn : bool) : KeyType Z := {|
  key_default := 0;
  key_ltb := Z.ltb;
  key_leb := Z.leb;
  key_eqb := Z.eqb;
  flipCoin := flipCoin_unsigned sgn;
|}.

(** [SkipList<std::string, ...>] *)
Definition string_key (sgn : bool) : KeyType string := {|
  key_default := EmptyString;
  key_ltb := String.ltb;
  key_leb := String.leb;
  key_eqb := String.eqb;
  flipCoin := flipCoin_string sgn;
|}.

Definition unsigned_value : ValueType Z := 0.
Definition string_value : ValueType string := EmptyString.

(** [operator<<] of a type into an output stream. *)
Class Printable (A : Type) := show : A → string.

(** [std::cout << u] for an [unsigned] and [std::cout << str] for a
    [std::string]. *)
Definition unsigned_show : Printable Z := λ z, NilZero.string_of_uint (N.to_uint (Z.to_N z)).
Definition string_show : Printable string := λ str, str.

(** ** Nodes and the arena *)

(** A [Node *]: [None] is [nullptr], [Some a] the address of a node. *)
Definition ptr := option nat.

Section Engine.
Context {Key Value : Type} `{KeyType Key} `{ValueType Value}.

Record Node := mkNode {
  key : Key;
  value : Value;
  next : ptr;
  down : ptr;
  up : ptr;
}.

(** The data members of [SkipList] ([head] and [tail] are declared in the
    class but never written nor read, so they are left out), and the arena
    that holds every node created with [new]. *)
Record SkipList := mkSkipList {
  heap : list Node;
  listSize : Z;
  top_left : ptr;
  bot_left : ptr;
  top_right : ptr;
  bot_right : ptr;
  layer_num : Z;
  max_layer_num : Z;
}.

(** [new Node(...)]: the node goes to the first free address. *)
Definition alloc (h : list Node) (nd : Node) : list Node * ptr :=
  (h ++ [nd], Some (length h)).

(** [*p] *)
Definition load (h : list Node) (p : ptr) : outcome Node :=
  match p with
  | None => Undefined
  | Some a => match h !! a with Some nd => Ret nd | None => Undefined end
  end.

(** [p->field = ...] *)
Definition store (h : list Node) (p : ptr) (f : Node → Node) : outcome (list Node) :=
  match p with
  | None => Undefined
  | Some a => match h !! a with Some nd => Ret (<[a := f nd]> h) | None => Undefined end
  end.

Definition set_next (v : ptr) (nd : Node) : Node :=
  mkNode (key nd) (value nd) v (down nd) (up nd).
Definition set_up (v : ptr) (nd : Node) : Node :=
  mkNode (key nd) (value nd) (next nd) (down nd) v.

Definition ptr_eqb (p q : ptr) : bool :=
  match p, q with
  | None, None => true
  | Some a, Some b => Nat.eqb a b
  | _, _ => false
  end.

Definition is_null (p : ptr) : bool := match p with None => true | Some _ => false end.

(** ** Constructor *)

Definition SkipList_ctor : outcome SkipList :=
  let '(h, bot_leftMost) := alloc [] (mkNode key_default value_default None None None) in
  let '(h, bot_rightMost) := alloc h (mkNode key_default value_default None None None) in
  let* h := store h bot_leftMost (set_next bot_rightMost) in
  let '(h, top_leftMost) := alloc h (mkNode key_default value_default None bot_leftMost None) in
  let '(h, top_rightMost) := alloc h (mkNode key_default value_default None bot_rightMost None) in
  let* h := store h top_leftMost (set_next top_rightMost) in
  let* h := store h bot_leftMost (set_up top_leftMost) in
  let* h := store h bot_rightMost (set_up top_rightMost) in
  Ret {| heap := h; listSize := 0;
          top_left := top_leftMost; bot_left := bot_leftMost;
          top_right := top_rightMost; bot_right := bot_rightMost;
          layer_num := wrap32 (0 + 2); max_layer_num := 13 |}.

(** ** O(1) reads *)

Definition size (s : SkipList) : Z := listSize s.
Definition isEmpty (s : SkipList) : bool := listSize s =? 0.
Definition numLayers (s : SkipList) : Z := layer_num s.

(** The number of iterations of [for (int i = layer_num - 1; i >= 0; i--)]. *)
Definition layer_iterations (s : SkipList) : nat :=
  Z.to_nat (int_of_unsigned (wrap32 (layer_num s - 1)) + 1).

(** ** The two rightward scans *)

(** [while (cur->next->next != nullptr && cur->next->key < k) cur = cur->next;]
    of [previousKey] and (twice) of [insert]. *)
Fixpoint scan_lt (fuel : nat) (h : list Node) (k : Key) (cur : ptr) : outcome ptr :=
  match fuel with
  | O => OutOfFuel
  | S fuel' =>
      let* c := load h cur in
      let* n := load h (next c) in
      if is_null (next n) then Ret cur
      else if key_ltb (key n) k then scan_lt fuel' h k (next c)
      else Ret cur
  end.

(** [while (cur->next->next != nullptr && cur->next->key <= k)
       { if (cur->next->key == k) { ...; break or return; } cur = cur->next; }]
    of [height], [nextKey], [find], [isSmallestKey] and [isLargestKey].  The
    flag tells whether the loop was left through the equality branch, with
    [cur->next] the matching node. *)
Fixpoint scan_le (fuel : nat) (h : list Node) (k : Key) (cur : ptr) : outcome (ptr * bool) :=
  match fuel with
  | O => OutOfFuel
  | S fuel' =>
      let* c := load h cur in
      let* n := load h (next c) in
      if is_null (next n) then Ret (cur, false)
      else if key_leb (key n) k then
        if key_eqb (key n) k then Ret (cur, true)
        else scan_le fuel' h k (next c)
      else Ret (cur, false)
  end.

(** ** height *)

(** The [for] loop with [n] iterations left, that is [i = n - 1]; the result
    is the local [height] when the loop is left. *)
Fixpoint height_for (n : nat) (h : list Node) (k : Key) (currentNode : ptr) : outcome Z :=
  match n with
  | O => Ret 0
  | S i =>
      let* (currentNode, found) := scan_le (length h) h k currentNode in
      if found then Ret (wrap32 (Z.of_nat i + 1))
      else match i with
           | O => height_for i h k currentNode
           | S _ => let* c := load h currentNode in height_for i h k (down c)
           end
  end.

Definition height (s : SkipList) (k : Key) : outcome Z :=
  let* hgt := height_for (layer_iterations s) (heap s) k (top_left s) in
  if hgt =? 0 then Throw msg_absent_the else Ret hgt.

(** ** nextKey *)

(** [for (int j = i - 1; j >= 0; j--) currentNode = currentNode->down;] *)
Fixpoint descend (i : nat) (h : list Node) (currentNode : ptr) : outcome ptr :=
  match i with
  | O => Ret currentNode
  | S j => let* c := load h currentNode in descend j h (down c)
  end.

(** The outer loop: [inl key] when the function returns from inside the
    loop, [inr currentNode] when the loop runs to its end. *)
Fixpoint nextKey_for (n : nat) (h : list Node) (k : Key) (currentNode currentLayer_left : ptr)
    : outcome (Key + ptr) :=
  match n with
  | O => Ret (inr currentNode)
  | S i =>
      let* (currentNode, found) := scan_le (length h) h k currentNode in
      if found then
        let* c := load h currentNode in
        let* currentNode := descend i h (next c) in
        let* c := load h currentNode in
        let* n := load h (next c) in
        Ret (inl (key n))
      else match i with
           | O => nextKey_for i h k currentNode currentLayer_left
           | S _ =>
               let* c := load h currentNode in
               let* l := load h currentLayer_left in
               nextKey_for i h k (down c) (down l)
           end
  end.

Definition nextKey (s : SkipList) (k : Key) : outcome Key :=
  let* r := nextKey_for (layer_iterations s) (heap s) k (top_left s) (top_left s) in
  match r with
  | inl k' => Ret k'
  | inr currentNode =>
      let* c := load (heap s) currentNode in
      if negb (key_eqb (key c) k) then Throw msg_absent_this
      else
        let* n := load (heap s) (next c) in
        if is_null (next n) then Throw msg_largest
        else Ret (key n)
  end.

(** ** previousKey *)

Fixpoint previousKey_for (n : nat) (h : list Node) (k : Key) (currentNode : ptr) : outcome ptr :=
  match n with
  | O => Ret currentNode
  | S i =>
      let* currentNode := scan_lt (length h) h k currentNode in
      match i with
      | O => previousKey_for i h k currentNode
      | S _ => let* c := load h currentNode in previousKey_for i h k (down c)
      end
  end.

(** The first test reads [currentNode->next->key] before it compares
    [currentNode->next] with [nullptr]. *)
Definition previousKey (s : SkipList) (k : Key) : outcome Key :=
  let* currentNode := previousKey_for (layer_iterations s) (heap s) k (top_left s) in
  let* c := load (heap s) currentNode in
  let* n := load (heap s) (next c) in
  if negb (key_eqb (key n) k) || is_null (next c) then Throw msg_absent_this
  else if ptr_eqb currentNode (top_left s) && is_null (down c) then Throw msg_smallest
  else Ret (key c).

(** ** find (the const and the non-const overloads have the same body) *)

Fixpoint find_for (n : nat) (h : list Node) (k : Key) (currentNode currentLayer_left : ptr)
    : outcome (option Value) :=
  match n with
  | O => Ret None
  | S i =>
      let* (currentNode, found) := scan_le (length h) h k currentNode in
      if found then
        let* c := load h currentNode in
        let* n := load h (next c) in
        Ret (Some (value n))
      else match i with
           | O => find_for i h k currentNode currentLayer_left
           | S _ =>
               let* c := load h currentNode in
               let* l := load h currentLayer_left in
               find_for i h k (down c) (down l)
           end
  end.

Definition find (s : SkipList) (k : Key) : outcome Value :=
  let* r := find_for (layer_iterations s) (heap s) k (top_left s) (top_left s) in
  match r with
  | Some v => Ret v
  | None => Throw msg_absent_the
  end.

(** ** find, the overload that returns [Value &] *)

(** The same search as [find_for]; where the other overload reads
    [currentNode->next->value], this one returns a reference to it: the
    address of the node [currentNode->next]. *)
Fixpoint find_ref_for (n : nat) (h : list Node) (k : Key)
    (currentNode currentLayer_left : ptr) : outcome (option ptr) :=
  match n with
  | O => Ret None
  | S i =>
      let* (currentNode, found) := scan_le (length h) h k currentNode in
      if found then
        let* c := load h currentNode in
        let* _ := load h (next c) in
        Ret (Some (next c))
      else match i with
           | O => find_ref_for i h k currentNode currentLayer_left
           | S _ =>
               let* c := load h currentNode in
               let* l := load h currentLayer_left in
               find_ref_for i h k (down c) (down l)
           end
  end.

Definition find_ref (s : SkipList) (k : Key) : outcome ptr :=
  let* r := find_ref_for (layer_iterations s) (heap s) k (top_left s) (top_left s) in
  match r with
  | Some p => Ret p
  | None => Throw msg_absent_the
  end.

(** ** insert *)

(** The cap [3 * std::ceil(std::log2(listSize)) + 1], stored in an
    [unsigned].  The source computes in [double]; the result is the exact
    ceiling of the base-2 logarithm as long as [listSize] converts to a
    [double] exactly and [std::log2] tells a power of two from its
    successor, which holds far beyond the sizes an engine can reach in
    memory (up to some 2^47 keys). *)
Definition layer_cap (n : Z) : Z := wrap32 (3 * Z.log2_up n + 1).

(** The search loop of [insert]. *)
Fixpoint insert_for (n : nat) (h : list Node) (k : Key) (currentNode currentLayer_left : ptr)
    : outcome ptr :=
  match n with
  | O => Ret currentNode
  | S i =>
      let* currentNode := scan_lt (length h) h k currentNode in
      match i with
      | O => insert_for i h k currentNode currentLayer_left
      | S _ =>
          let* c := load h currentNode in
          let* l := load h currentLayer_left in
          insert_for i h k (down c) (down l)
      end
  end.

(** The locals that the promotion loop of [insert] carries around. *)
Record promotion := mkPromotion {
  engine : SkipList;
  previousFlip : Z;
  current_up_layer_left : ptr;
  current_up_layer_right : ptr;
  below_element : ptr;
}.

(** One run of the body of
    [while (flipCoin(k, previousFlip) && layer_num < max_layer_num)]. *)
Definition promote_body (k : Key) (v : Value) (p : promotion) : outcome promotion :=
  let s := engine p in
  let previousFlip := wrap32 (previousFlip p + 1) in
  let* current_Node := scan_lt (length (heap s)) (heap s) k (current_up_layer_left p) in
  let* c := load (heap s) current_Node in
  let '(h, up_element) := alloc (heap s) (mkNode k v (next c) (below_element p) None) in
  let* h := store h current_Node (set_next up_element) in
  let* h := store h (below_element p) (set_up up_element) in
  let* s :=
    if wrap32 (layer_num s - 1) =? previousFlip then
      let '(h, new_top_left) :=
        alloc h (mkNode key_default value_default None (current_up_layer_left p) None) in
      let '(h, new_top_right) :=
        alloc h (mkNode key_default value_default None (current_up_layer_right p) None) in
      let* h := store h new_top_left (set_next new_top_right) in
      let* h := store h (top_left s) (set_up new_top_left) in
      let* h := store h (top_right s) (set_up new_top_right) in
      Ret {| heap := h; listSize := listSize s;
             top_left := new_top_left; bot_left := bot_left s;
             top_right := new_top_right; bot_right := bot_right s;
             layer_num := wrap32 (layer_num s + 1);
             max_layer_num := max_layer_num s |}
    else
      Ret {| heap := h; listSize := listSize s;
             top_left := top_left s; bot_left := bot_left s;
             top_right := top_right s; bot_right := bot_right s;
             layer_num := layer_num s;
             max_layer_num := max_layer_num s |} in
  let* l := load (heap s) (current_up_layer_left p) in
  let* r := load (heap s) (current_up_layer_right p) in
  Ret {| engine := s; previousFlip := previousFlip;
         current_up_layer_left := up l; current_up_layer_right := up r;
         below_element := up_element |}.

Fixpoint promote_while (fuel : nat) (k : Key) (v : Value) (p : promotion) : outcome SkipList :=
  match fuel with
  | O => OutOfFuel
  | S fuel' =>
      if flipCoin k (previousFlip p) && (layer_num (engine p) <? max_layer_num (engine p))
      then let* p := promote_body k v p in promote_while fuel' k v p
      else Ret (engine p)
  end.

(** [insert] returns the flag and leaves the engine in the returned state.
    The promotion loop stops at the latest when [layer_num] meets
    [max_layer_num], which bounds its number of runs. *)
Definition insert (s : SkipList) (k : Key) (v : Value) : outcome (bool * SkipList) :=
  let* currentNode :=
    insert_for (layer_iterations s) (heap s) k (top_left s) (top_left s) in
  let* c := load (heap s) currentNode in
  let* n := load (heap s) (next c) in
  if negb (is_null (next n)) && key_eqb (key n) k then Ret (false, s)
  else
    let '(h, new_element) := alloc (heap s) (mkNode k v (next c) None None) in
    let* h := store h currentNode (set_next new_element) in
    let listSize := wrap64 (listSize s + 1) in
    let* bl := load h (bot_left s) in
    let* br := load h (bot_right s) in
    let current_up_layer_left := up bl in
    let current_up_layer_right := up br in
    let below_element := new_element in
    let max_layer_num :=
      if 16 <? listSize then layer_cap listSize else max_layer_num s in
    let s := {| heap := h; listSize := listSize;
                top_left := top_left s; bot_left := bot_left s;
                top_right := top_right s; bot_right := bot_right s;
                layer_num := layer_num s; max_layer_num := max_layer_num |} in
    let* s := promote_while (Z.to_nat max_layer_num) k v
                {| engine := s; previousFlip := 0;
                   current_up_layer_left := current_up_layer_left;
                   current_up_layer_right := current_up_layer_right;
                   below_element := below_element |} in
    Ret (true, s).

(** ** allKeysInOrder *)

(** [while (currentNode->down != nullptr) currentNode = currentNode->down;] *)
Fixpoint to_bottom (fuel : nat) (h : list Node) (currentNode : ptr) : outcome ptr :=
  match fuel with
  | O => OutOfFuel
  | S fuel' =>
      let* c := load h currentNode in
      if is_null (down c) then Ret currentNode else to_bottom fuel' h (down c)
  end.

(** [while (currentNode->next != nullptr) { keys.push_back(currentNode->key); ... }] *)
Fixpoint collect_keys (fuel : nat) (h : list Node) (currentNode : ptr) (keys : list Key)
    : outcome (list Key) :=
  match fuel with
  | O => OutOfFuel
  | S fuel' =>
      let* c := load h currentNode in
      if is_null (next c) then Ret keys
      else collect_keys fuel' h (next c) (keys ++ [key c])
  end.

Definition allKeysInOrder (s : SkipList) : outcome (list Key) :=
  let* currentNode := to_bottom (length (heap s)) (heap s) (top_left s) in
  let* c := load (heap s) currentNode in
  collect_keys (length (heap s)) (heap s) (next c) [].

(** ** isSmallestKey and isLargestKey *)

(** The search loop shared by both: the node the search stops at and the
    flag [keyExists]. *)
Fixpoint exists_for (n : nat) (h : list Node) (k : Key) (currentNode : ptr)
    : outcome (ptr * bool) :=
  match n with
  | O => Ret (currentNode, false)
  | S i =>
      let* (currentNode, keyExists) := scan_le (length h) h k currentNode in
      if keyExists then Ret (currentNode, true)
      else match i with
           | O => exists_for i h k currentNode
           | S _ => let* c := load h currentNode in exists_for i h k (down c)
           end
  end.

Definition isSmallestKey (s : SkipList) (k : Key) : outcome bool :=
  let* (_, keyExists) := exists_for (layer_iterations s) (heap s) k (top_left s) in
  if negb keyExists then Throw msg_absent_the
  else
    let* bl := load (heap s) (bot_left s) in
    let* c := load (heap s) (next bl) in
    Ret (key_eqb (key c) k).

(** [while (currentNode->next->next != nullptr) currentNode = currentNode->next;] *)
Fixpoint to_last (fuel : nat) (h : list Node) (currentNode : ptr) : outcome ptr :=
  match fuel with
  | O => OutOfFuel
  | S fuel' =>
      let* c := load h currentNode in
      let* n := load h (next c) in
      if is_null (next n) then Ret currentNode else to_last fuel' h (next c)
  end.

Definition isLargestKey (s : SkipList) (k : Key) : outcome bool :=
  let* (currentNode, keyExists) := exists_for (layer_iterations s) (heap s) k (top_left s) in
  if negb keyExists then Throw msg_absent_the
  else
    let* currentNode := to_bottom (length (heap s)) (heap s) currentNode in
    let* currentNode := to_last (length (heap s)) (heap s) currentNode in
    let* c := load (heap s) currentNode in
    Ret (key_eqb (key c) k).

(** ** Destructor *)

(** [*p] while the nodes of [dead] are already deleted: reading a deleted
    node is undefined. *)
Definition load_live (h : list Node) (dead : list nat) (p : ptr) : outcome Node :=
  match p with
  | None => Undefined
  | Some a => if bool_decide (a ∈ dead) then Undefined else load h p
  end.

(** [delete p]: deleting a node twice is undefined. *)
Definition delete_node (dead : list nat) (p : ptr) : outcome (list nat) :=
  match p with
  | None => Ret dead
  | Some a => if bool_decide (a ∈ dead) then Undefined else Ret (dead ++ [a])
  end.

(** [while (currentNode != nullptr)
       { temp = currentNode; currentNode = currentNode->next; delete temp; }] *)
Fixpoint delete_row (fuel : nat) (h : list Node) (dead : list nat) (currentNode : ptr)
    : outcome (list nat) :=
  match currentNode with
  | None => Ret dead
  | Some _ =>
      match fuel with
      | O => OutOfFuel
      | S fuel' =>
          let temp := currentNode in
          let* c := load_live h dead currentNode in
          let* dead := delete_node dead temp in
          delete_row fuel' h dead (next c)
      end
  end.

(** [while (current_layer_left != nullptr) { ... }] *)
Fixpoint delete_layers (fuel : nat) (h : list Node) (dead : list nat) (current_layer_left : ptr)
    : outcome (list nat) :=
  match current_layer_left with
  | None => Ret dead
  | Some _ =>
      match fuel with
      | O => OutOfFuel
      | S fuel' =>
          let* l := load_live h dead current_layer_left in
          let nextLayer := down l in
          let* dead := delete_row (length h) h dead current_layer_left in
          delete_layers fuel' h dead nextLayer
      end
  end.

(** [~SkipList()]: the addresses it deletes, in the order it deletes
    them. *)
Definition SkipList_dtor (s : SkipList) : outcome (list nat) :=
  delete_layers (length (heap s)) (heap s) [] (top_left s).

(** ** Writing through the references that [find] returns *)

(** [p->value = v] *)
Definition set_value (v : Value) (nd : Node) : Node :=
  mkNode (key nd) v (next nd) (down nd) (up nd).

(** The node at address [a] after the values of the nodes below address
    [n] were rewritten, the one at [a] from [v] to [f a v]. *)
Definition renode (n : nat) (f : nat → Value → Value) (a : nat) (nd : Node) : Node :=
  if (a <? n)%nat then set_value (f a (value nd)) nd else nd.

Definition revalue_heap (n : nat) (f : nat → Value → Value) (h : list Node) : list Node :=
  imap (renode n f) h.

(** The engine after such writes: only value fields differ. *)
Definition revalue (n : nat) (f : nat → Value → Value) (s : SkipList) : SkipList :=
  {| heap := revalue_heap n f (heap s); listSize := listSize s;
     top_left := top_left s; bot_left := bot_left s;
     top_right := top_right s; bot_right := bot_right s;
     layer_num := layer_num s; max_layer_num := max_layer_num s |}.

(** A node read after the writes. *)
Definition reread (n : nat) (f : nat → Value → Value) (p : ptr) (nd : Node) : Node :=
  match p with
  | Some a => renode n f a nd
  | None => nd
  end.

(** The state of the promotion loop after the writes. *)
Definition repromotion (n : nat) (f : nat → Value → Value) (p : promotion) : promotion :=
  {| engine := revalue n f (engine p); previousFlip := previousFlip p;
     current_up_layer_left := current_up_layer_left p;
     current_up_layer_right := current_up_layer_right p;
     below_element := below_element p |}.

(** ** Runs of the engine *)

(** A sequence of [insert] calls; the result carries the number of calls
    that returned [true]. *)
Fixpoint insert_all (s : SkipList) (kvs : list (Key * Value)) : outcome (nat * SkipList) :=
  match kvs with
  | [] => Ret (O, s)
  | (k, v) :: kvs' =>
      let* (b, s) := insert s k v in
      let* (n, s) := insert_all s kvs' in
      Ret ((if b then S n else n), s)
  end.

(** The states that the member functions lead to: freshly constructed, or
    after one more [insert].  The queries are [const] and leave the state
    as it is; the writes of a client through the references of [find] come
    with [run] below. *)
Inductive reachable : SkipList → Prop :=
  | reachable_ctor s : SkipList_ctor = Ret s → reachable s
  | reachable_insert s k v b s' :
      reachable s → insert s k v = Ret (b, s') → reachable s'.

End Engine.

Arguments Node Key Value : clear implicits.
Arguments SkipList Key Value : clear implicits.
Arguments promotion Key Value : clear implicits.

Local Close Scope Z_scope.

(** * What the arena represents

    The definitions the proofs are stated with: the fields of the nodes,
    linked segments, the towers of the keys, the invariant of the arena
    and of the engine, and the height that [insert] gives to a key. *)

Section Representation.
Context {Key Value : Type} `{KeyType Key} `{ValueType Value}.

#[local] Abbreviation Node := (Node Key Value).
#[local] Abbreviation SkipList := (SkipList Key Value).

Implicit Types (h : list Node) (a b n : nat) (nd : Node) (l : list nat).

(** The field [f] of the node at address [a], if there is one. *)
Definition fld {A : Type} (f : Node → A) h a : option A := f <$> h !! a.

(** From [a], following [next] visits exactly [l] and then reads [z]. *)
Fixpoint lseg h a l (z : ptr) : Prop :=
  match l with
  | [] => fld next h a = Some z
  | b :: l' => fld next h a = Some (Some b) ∧ lseg h b l' z
  end.

(** What the arena represents: per key, its value and its tower, the
    addresses of its nodes from layer 0 upwards. *)
Record entry := mkEntry {
  ekey : Key;
  evalue : Value;
  etower : list nat;
}.

Implicit Types (e : entry) (E : list entry) (ls rs : list nat).

(** The nodes of layer [i], left to right. *)
Definition row (i : nat) E : list nat := omap (λ e, etower e !! i) E.

(** All the nodes that carry keys. *)
Definition towers E : list nat := concat (etower <$> E).

(** The element under position [i] of a vertical list. *)
Definition below l (i : nat) : ptr :=
  match i with
  | O => None
  | S j => l !! j
  end.

(** One more node on top of a tower. *)
Definition grow e n : entry := mkEntry (ekey e) (evalue e) (etower e ++ [n]).

(** [ls] and [rs] are the left and right sentinels from layer 0 upwards. *)
Record Shape h ls rs E : Prop := {
  shape_length : length ls = length rs;
  shape_left : ∀ i a, ls !! i = Some a →
    fld key h a = Some key_default ∧
    fld down h a = Some (below ls i) ∧
    fld up h a = Some (ls !! S i);
  shape_right : ∀ i a, rs !! i = Some a →
    fld key h a = Some key_default ∧
    fld down h a = Some (below rs i) ∧
    fld up h a = Some (rs !! S i);
  shape_tower : ∀ e j a, e ∈ E → etower e !! j = Some a →
    fld key h a = Some (ekey e) ∧
    fld value h a = Some (evalue e) ∧
    fld down h a = Some (below (etower e) j);
  shape_chain : ∀ i sl sr, ls !! i = Some sl → rs !! i = Some sr →
    lseg h sl (row i E ++ [sr]) None;
  shape_nodup : NoDup (ls ++ rs ++ towers E);
}.

(** A node is on layer [i]. *)
Definition on_layer ls rs E (i : nat) (a : nat) : Prop :=
  ls !! i = Some a ∨ rs !! i = Some a ∨ a ∈ row i E.

(** Keys of the nodes of a list, as the invariant knows them. *)
Definition keys_lt h (k : Key) l : Prop :=
  Forall (λ x, ∃ kx, fld key h x = Some kx ∧ key_ltb kx k = true) l.

(** Every key of [E] is below [k], above [k], not below [k]. *)
Definition before (k : Key) E : Prop := Forall (λ e, key_ltb (ekey e) k = true) E.

Definition after (k : Key) E : Prop := Forall (λ e, key_ltb k (ekey e) = true) E.

Definition not_before (k : Key) E : Prop := Forall (λ e, key_ltb (ekey e) k = false) E.

(** The skeleton the five inclusive search loops share: the node the search
    stops at and, when the key was met, the layer it was met on. *)
Fixpoint locate (n : nat) h (k : Key) (cur : ptr) : outcome (ptr * option nat) :=
  match n with
  | O => Ret (cur, None)
  | S i =>
      let* (cur, found) := scan_le (length h) h k cur in
      if found then Ret (cur, Some i)
      else match i with
           | O => locate i h k cur
           | S _ => let* c := load h cur in locate i h k (down c)
           end
  end.

(** The order of the keys, as a proposition. *)
Definition key_lt (x y : Key) : Prop := key_ltb x y = true.

(** The invariant of the engine: the arena has the shape of [E] between
    the sentinels [ls] and [rs], the corner pointers are the ends of [ls]
    and [rs], the keys of [E] increase, every tower stays below the top
    layer, and the counters match. *)
Record Inv (s : SkipList) ls rs E : Prop := {
  inv_shape : Shape (heap s) ls rs E;
  inv_layer_num : layer_num s = Z.of_nat (length ls);
  inv_layers : 2 ≤ length ls ≤ 193;
  inv_max : (13 ≤ max_layer_num s ≤ 193)%Z;
  inv_top_left : top_left s = last ls;
  inv_top_right : top_right s = last rs;
  inv_bot_left : bot_left s = ls !! 0;
  inv_bot_right : bot_right s = rs !! 0;
  inv_sorted : StronglySorted key_lt (ekey <$> E);
  inv_towers : ∀ e, e ∈ E → 1 ≤ length (etower e) < length ls;
  inv_size : listSize s = wrap64 (Z.of_nat (length E));
  inv_fuel : length E + length ls ≤ length (heap s);
}.

(** The invariant of the promotion loop: the tower of the new key [e]
    has grown to [previousFlip + 1] nodes and the loop stands one layer
    above it. *)
Record PInv (k : Key) (v : Value) (p : promotion Key Value) ls rs E1 e E2 : Prop := {
  pinv_inv : Inv (engine p) ls rs (E1 ++ e :: E2);
  pinv_key : ekey e = k;
  pinv_value : evalue e = v;
  pinv_before : before k E1;
  pinv_after : after k E2;
  pinv_flip : previousFlip p = (Z.of_nat (length (etower e)) - 1)%Z;
  pinv_left : current_up_layer_left p = ls !! length (etower e);
  pinv_right : current_up_layer_right p = rs !! length (etower e);
  pinv_below : below_element p = below (etower e) (length (etower e));
}.

(** How many of the flips [p], [p + 1], ... come up heads in a row, looking
    at [n] flips at most. *)
Fixpoint streak_from (k : Key) (p : Z) (n : nat) : nat :=
  match n with
  | O => O
  | S n' => if flipCoin k p then S (streak_from k (p + 1) n') else O
  end.

(** The cap that is in force while a key is promoted: [insert] computes it
    from the size that already counts the new key. *)
Definition cap_after (s : SkipList) : Z :=
  if (16 <? wrap64 (listSize s + 1))%Z then layer_cap (wrap64 (listSize s + 1))
  else max_layer_num s.

(** The height [insert] gives to a new key: one, plus a promotion for each
    head in a row while the layer count is below the cap. *)
Definition tower_height (s : SkipList) (k : Key) : nat :=
  1 + (if (layer_num s <? cap_after s)%Z
       then streak_from k 0 (Z.to_nat (cap_after s - 2))
       else 0).

(** The key of an entry, or [Key()] where a sentinel stands in its place. *)
Definition key_or_default (o : option entry) : Key := from_option ekey key_default o.

(** The value of the first pair of [kvs] whose key is [k]. *)
Fixpoint first_value (k : Key) (kvs : list (Key * Value)) : option Value :=
  match kvs with
  | [] => None
  | (k', v) :: kvs' => if key_eqb k' k then Some v else first_value k kvs'
  end.

(** The number of layers that the towers of [E] ask for: one above the
    tallest, two at least. *)
Definition layers_of E : nat :=
  foldr (λ e m, S (length (etower e)) `max` m) 2 E.

(** The cap on the layer count of an engine with [n] keys. *)
Definition cap_of (n : Z) : Z := if (16 <? n)%Z then layer_cap n else 13%Z.

(** The invariant with its counts: besides [Inv], every node of the arena
    is a sentinel or a node of a tower, the topmost layer is the one above
    the tallest tower, and the cap is the one of the size. *)
Record Full s ls rs E : Prop := {
  full_inv : Inv s ls rs E;
  full_count : length (heap s) = length ls + length rs + length (towers E);
  full_layers : length ls = layers_of E;
  full_cap : (Z.of_nat (length E) < 2 ^ 64)%Z →
             max_layer_num s = cap_of (Z.of_nat (length E)) ∧
             (layer_num s ≤ max_layer_num s)%Z;
}.

(** The node at [a] is the topmost node of the tower of a key of [E]: the
    node whose value [find] reads. *)
Definition tops E (a : nat) : Prop := ∃ e, e ∈ E ∧ last (etower e) = Some a.

(** The nodes of layer [i], sentinels included, left to right. *)
Definition layer_nodes ls rs E (i : nat) : list nat :=
  option_list (ls !! i) ++ row i E ++ option_list (rs !! i).

(** The nodes of the layers [i], [i - 1], ..., 0. *)
Fixpoint layers_down ls rs E (i : nat) : list nat :=
  match i with
  | O => layer_nodes ls rs E 0
  | S j => layer_nodes ls rs E (S j) ++ layers_down ls rs E j
  end.

End Representation.

(** * Printing *)

Section Printing.
Context {Key Value : Type} `{KeyType Key} `{ValueType Value}.
Context `{Printable Key} `{Printable Value}.

#[local] Abbreviation Node := (Node Key Value).
#[local] Abbreviation SkipList := (SkipList Key Value).

(** ** print *)

(** What [print] writes for a key and its value: a node whose key is
    [Key()] is written as a sentinel. *)
Definition cell (k : Key) (v : Value) : string :=
  if negb (key_eqb k key_default)
  then ("(" ++ show k ++ ", " ++ show v ++ ") -> ")%string
  else "(-, -) -> "%string.

(** [while (currentNode != nullptr) { std::cout << ...; currentNode = currentNode->next; }]
    with the text written so far. *)
Fixpoint print_row (fuel : nat) (h : list Node) (currentNode : ptr) (out : string)
    : outcome string :=
  match currentNode with
  | None => Ret out
  | Some _ =>
      match fuel with
      | O => OutOfFuel
      | S fuel' =>
          let* c := load h currentNode in
          print_row fuel' h (next c) (out ++ cell (key c) (value c))%string
      end
  end.

(** [while (currentLayerStart != nullptr) { ...; std::cout << "END" << std::endl; ... }]
    with the lines written so far. *)
Fixpoint print_layers (fuel : nat) (h : list Node) (currentLayerStart : ptr) (out : list string)
    : outcome (list string) :=
  match currentLayerStart with
  | None => Ret out
  | Some _ =>
      match fuel with
      | O => OutOfFuel
      | S fuel' =>
          let* line := print_row (length h) h currentLayerStart "" in
          let out := out ++ [(line ++ "END")%string] in
          let* l := load h currentLayerStart in
          print_layers fuel' h (down l) out
      end
  end.

(** [print()]: the lines it writes to [std::cout]. *)
Definition print (s : SkipList) : outcome (list string) :=
  print_layers (length (heap s)) (heap s) (top_left s) [].

(** The cells of the keys of [ks] that stand on layer [i], as the queries
    tell. *)
Fixpoint line_cells (s : SkipList) (i : nat) (ks : list Key) : string :=
  match ks with
  | [] => ""
  | k :: ks' =>
      match height s k, find s k with
      | Ret hk, Ret v =>
          if (Z.of_nat i <? hk)%Z then (cell k v ++ line_cells s i ks')%string
          else line_cells s i ks'
      | _, _ => line_cells s i ks'
      end
  end.

(** The line of layer [i]. *)
Definition layer_line (s : SkipList) (ks : list Key) (i : nat) : string :=
  ("(-, -) -> " ++ line_cells s i ks ++ "(-, -) -> " ++ "END")%string.

(** The cells of the nodes at the addresses [l]. *)
Fixpoint cells (h : list Node) (l : list nat) : string :=
  match l with
  | [] => ""
  | a :: l' =>
      match h !! a with
      | Some nd => (cell (key nd) (value nd) ++ cells h l')%string
      | None => cells h l'
      end
  end.

End Printing.

(** * Sequences of calls *)

Section Operations.
Context {Key Value : Type} `{KeyType Key} `{ValueType Value}.
Context `{Printable Key} `{Printable Value}.

#[local] Abbreviation SkipList := (SkipList Key Value).

(** What a client can do with an engine between its constructor and its
    destructor: call a public member function, or assign through the
    reference that the non-const [find] returns, [sl.find(k) = w]. *)
Inductive operation :=
  | op_insert (k : Key) (v : Value)
  | op_assign (k : Key) (w : Value)
  | op_find (k : Key)
  | op_height (k : Key)
  | op_nextKey (k : Key)
  | op_previousKey (k : Key)
  | op_isSmallestKey (k : Key)
  | op_isLargestKey (k : Key)
  | op_allKeysInOrder
  | op_size
  | op_isEmpty
  | op_numLayers
  | op_print.

(** [sl.find(k) = w]: the non-const [find] runs, and the [value] field of
    the node it designates is overwritten. *)
Definition assign (s : SkipList) (k : Key) (w : Value) : outcome SkipList :=
  let* r := find_ref s k in
  let* h := store (heap s) r (set_value w) in
  Ret {| heap := h; listSize := listSize s;
         top_left := top_left s; bot_left := bot_left s;
         top_right := top_right s; bot_right := bot_right s;
         layer_num := layer_num s; max_layer_num := max_layer_num s |}.

(** A [const] member function: once it has come back, the engine is the
    one it was. *)
Definition observe {A : Type} (s : SkipList) (r : outcome A) : outcome SkipList :=
  let* _ := r in Ret s.

(** The client catches the exception of a call that had written nothing
    when it threw, and goes on with the engine as it was. *)
Definition caught (s : SkipList) (r : outcome SkipList) : outcome SkipList :=
  match r with
  | Throw _ => Ret s
  | _ => r
  end.

(** The engine after one operation. *)
Definition perform (s : SkipList) (op : operation) : outcome SkipList :=
  match op with
  | op_insert k v => let* (_, s') := insert s k v in Ret s'
  | op_assign k w => caught s (assign s k w)
  | op_find k => caught s (observe s (find s k))
  | op_height k => caught s (observe s (height s k))
  | op_nextKey k => caught s (observe s (nextKey s k))
  | op_previousKey k => caught s (observe s (previousKey s k))
  | op_isSmallestKey k => caught s (observe s (isSmallestKey s k))
  | op_isLargestKey k => caught s (observe s (isLargestKey s k))
  | op_allKeysInOrder => caught s (observe s (allKeysInOrder s))
  | op_size => observe s (Ret (size s))
  | op_isEmpty => observe s (Ret (isEmpty s))
  | op_numLayers => observe s (Ret (numLayers s))
  | op_print => caught s (observe s (print s))
  end.

(** The engine after a sequence of operations. *)
Fixpoint run (s : SkipList) (ops : list operation) : outcome SkipList :=
  match ops with
  | [] => Ret s
  | op :: ops' => let* s' := perform s op in run s' ops'
  end.

(** The value bound to [k] after [op], when it was [x] before and [k] is
    in the engine: only an assignment through [find(k)] changes it. *)
Definition assigned (k : Key) (op : operation) (x : Value) : Value :=
  match op with
  | op_assign k' w => if key_eqb k' k then w else x
  | _ => x
  end.

(** The value bound to [k] after [ops]: the one assigned last, [v] if
    there was no assignment. *)
Definition last_assigned (k : Key) (ops : list operation) (v : Value) : Value :=
  foldl (λ x op, assigned k op x) v ops.

End Operations.

Arguments operation Key Value : clear implicits.

(** * The engine never looks at the values *)

Section ValueFields.
Context {Key Value : Type} `{KeyType Key} `{ValueType Value}.

Implicit Types (s : SkipList Key Value) (h : list (Node Key Value)) (nd : Node Key Value).
Implicit Types (k : Key) (v : Value) (p : ptr) (f : nat → Value → Value).

Lemma key_renode n f a nd : key (renode n f a nd) = key nd.
Proof. unfold renode. by destruct (a <? n). Qed.
Lemma next_renode n f a nd : next (renode n f a nd) = next nd.
Proof. unfold renode. by destruct (a <? n). Qed.
Lemma down_renode n f a nd : down (renode n f a nd) = down nd.
Proof. unfold renode. by destruct (a <? n). Qed.
Lemma up_renode n f a nd : up (renode n f a nd) = up nd.
Proof. unfold renode. by destruct (a <? n). Qed.

Lemma length_revalue_heap n f h : length (revalue_heap n f h) = length h.
Proof. apply length_imap. Qed.

Lemma load_revalue n f h p :
  load (revalue_heap n f h) p = let* nd := load h p in Ret (reread n f p nd).
Proof.
  destruct p as [a|]; [|done]. simpl. unfold revalue_heap. rewrite list_lookup_imap.
  by destruct (h !! a).
Qed.

Lemma key_reread n f p nd : key (reread n f p nd) = key nd.
Proof. destruct p; [apply key_renode|done]. Qed.
Lemma next_reread n f p nd : next (reread n f p nd) = next nd.
Proof. destruct p; [apply next_renode|done]. Qed.
Lemma down_reread n f p nd : down (reread n f p nd) = down nd.
Proof. destruct p; [apply down_renode|done]. Qed.
Lemma up_reread n f p nd : up (reread n f p nd) = up nd.
Proof. destruct p; [apply up_renode|done]. Qed.

End ValueFields.

(** One step through code that reads a node after the writes. *)
Ltac blind :=
  rewrite ?length_revalue_heap, ?load_revalue;
  repeat match goal with
         | |- context [load ?h ?p] =>
             lazymatch h with
             | revalue_heap _ _ _ => fail
             | _ => destruct (load h p) as [?nd| | |]; [|done..]
             end;
             cbn [bind];
             rewrite ?key_reread, ?next_reread, ?down_reread, ?up_reread, ?load_revalue
         end.

Section Blind.
Context {Key Value : Type} `{KeyType Key} `{ValueType Value}.

Implicit Types (s : SkipList Key Value) (h : list (Node Key Value)) (nd : Node Key Value).
Implicit Types (k : Key) (v : Value) (p : ptr) (f : nat → Value → Value).
Implicit Types (kvs : list (Key * Value)).

Lemma scan_lt_revalue n f h k : ∀ fuel p,
  scan_lt fuel (revalue_heap n f h) k p = scan_lt fuel h k p.
Proof.
  induction fuel as [|fuel IH]; intros p; [done|]. cbn [scan_lt]. blind. by rewrite IH.
Qed.

Lemma scan_le_revalue n f h k : ∀ fuel p,
  scan_le fuel (revalue_heap n f h) k p = scan_le fuel h k p.
Proof.
  induction fuel as [|fuel IH]; intros p; [done|]. cbn [scan_le]. blind. by rewrite IH.
Qed.


Lemma height_for_revalue n f h k : ∀ i p,
  height_for i (revalue_heap n f h) k p = height_for i h k p.
Proof.
  induction i as [|i IH]; intros p; [done|]. cbn [height_for].
  rewrite length_revalue_heap, scan_le_revalue.
  destruct (scan_le _ _ _ _) as [[c [|]]| | |]; try done. cbn [bind].
  destruct i as [|i]; [apply IH|]. blind. apply IH.
Qed.

Lemma descend_revalue n f h : ∀ i p, descend i (revalue_heap n f h) p = descend i h p.
Proof. induction i as [|i IH]; intros p; [done|]. cbn [descend]. blind. apply IH. Qed.

Lemma nextKey_for_revalue n f h k : ∀ i p q,
  nextKey_for i (revalue_heap n f h) k p q = nextKey_for i h k p q.
Proof.
  induction i as [|i IH]; intros p q; [done|]. cbn [nextKey_for].
  rewrite length_revalue_heap, scan_le_revalue.
  destruct (scan_le _ _ _ _) as [[c [|]]| | |]; try done; cbn [bind].
  - rewrite load_revalue. destruct (load h c) as [nd| | |]; try done. cbn [bind].
    rewrite next_reread, descend_revalue.
    destruct (descend _ _ _) as [c'| | |]; try done. cbn [bind]. by blind.
  - destruct i as [|i]; [apply IH|]. blind. apply IH.
Qed.

Lemma previousKey_for_revalue n f h k : ∀ i p,
  previousKey_for i (revalue_heap n f h) k p = previousKey_for i h k p.
Proof.
  induction i as [|i IH]; intros p; [done|]. cbn [previousKey_for].
  rewrite length_revalue_heap, scan_lt_revalue.
  destruct (scan_lt _ _ _ _) as [c| | |]; try done. cbn [bind].
  destruct i as [|i]; [apply IH|]. blind. apply IH.
Qed.

Lemma insert_for_revalue n f h k : ∀ i p q,
  insert_for i (revalue_heap n f h) k p q = insert_for i h k p q.
Proof.
  induction i as [|i IH]; intros p q; [done|]. cbn [insert_for].
  rewrite length_revalue_heap, scan_lt_revalue.
  destruct (scan_lt _ _ _ _) as [c| | |]; try done. cbn [bind].
  destruct i as [|i]; [apply IH|]. blind. apply IH.
Qed.

Lemma exists_for_revalue n f h k : ∀ i p,
  exists_for i (revalue_heap n f h) k p = exists_for i h k p.
Proof.
  induction i as [|i IH]; intros p; [done|]. cbn [exists_for].
  rewrite length_revalue_heap, scan_le_revalue.
  destruct (scan_le _ _ _ _) as [[c [|]]| | |]; try done. cbn [bind].
  destruct i as [|i]; [apply IH|]. blind. apply IH.
Qed.

Lemma find_ref_for_revalue n f h k : ∀ i p q,
  find_ref_for i (revalue_heap n f h) k p q = find_ref_for i h k p q.
Proof.
  induction i as [|i IH]; intros p q; [done|]. cbn [find_ref_for].
  rewrite length_revalue_heap, scan_le_revalue.
  destruct (scan_le _ _ _ _) as [[c [|]]| | |]; try done; cbn [bind].
  - by blind.
  - destruct i as [|i]; [apply IH|]. blind. apply IH.
Qed.

Lemma to_bottom_revalue n f h : ∀ fuel p,
  to_bottom fuel (revalue_heap n f h) p = to_bottom fuel h p.
Proof.
  induction fuel as [|fuel IH]; intros p; [done|]. cbn [to_bottom]. blind. by rewrite IH.
Qed.

Lemma to_last_revalue n f h : ∀ fuel p,
  to_last fuel (revalue_heap n f h) p = to_last fuel h p.
Proof.
  induction fuel as [|fuel IH]; intros p; [done|]. cbn [to_last]. blind. by rewrite IH.
Qed.

Lemma collect_keys_revalue n f h : ∀ fuel p keys,
  collect_keys fuel (revalue_heap n f h) p keys = collect_keys fuel h p keys.
Proof.
  induction fuel as [|fuel IH]; intros p keys; [done|]. cbn [collect_keys]. blind.
  by rewrite IH.
Qed.

(** The overload of [find] that returns a value reads the node that the
    other overload designates. *)
Lemma find_for_find_ref_for h k : ∀ i p q,
  find_for i h k p q =
    let* r := find_ref_for i h k p q in
    match r with
    | Some a => let* nd := load h a in Ret (Some (value nd))
    | None => Ret None
    end.
Proof.
  induction i as [|i IH]; intros p q; [done|]. cbn [find_for find_ref_for].
  destruct (scan_le _ _ _ _) as [[c [|]]| | |]; try done; cbn [bind].
  - destruct (load h c) as [nd| | |]; try done. cbn [bind].
    destruct (load h (next nd)) as [nx| | |] eqn:En; try done. cbn [bind]. by rewrite En.
  - destruct i as [|i]; [apply IH|].
    destruct (load h c) as [nd| | |]; try done. cbn [bind].
    destruct (load h q) as [l| | |]; try done. cbn [bind]. apply IH.
Qed.


(** *** The writes of [insert] *)

Lemma renode_set_next n f a x nd : renode n f a (set_next x nd) = set_next x (renode n f a nd).
Proof. unfold renode. by destruct (a <? n). Qed.

Lemma renode_set_up n f a x nd : renode n f a (set_up x nd) = set_up x (renode n f a nd).
Proof. unfold renode. by destruct (a <? n). Qed.

Lemma store_revalue n f h p (g : Node Key Value → Node Key Value) :
  (∀ a nd, renode n f a (g nd) = g (renode n f a nd)) →
  store (revalue_heap n f h) p g = let* h1 := store h p g in Ret (revalue_heap n f h1).
Proof.
  intros Cg. destruct p as [a|]; [|done]. simpl. unfold revalue_heap.
  rewrite list_lookup_imap. destruct (h !! a) as [nd|] eqn:Ha; [|done]. simpl. f_equal.
  apply list_eq. intros i. rewrite list_lookup_imap.
  destruct (decide (i = a)) as [->|Ne].
  - rewrite !list_lookup_insert_eq; [simpl; by rewrite Cg| |].
    + by eapply lookup_lt_Some.
    + rewrite length_imap. by eapply lookup_lt_Some.
  - by rewrite !list_lookup_insert_ne, list_lookup_imap by done.
Qed.

(** A node allocated after the writes is not touched by them. *)
Lemma revalue_heap_snoc n f h nd :
  n ≤ length h → revalue_heap n f h ++ [nd] = revalue_heap n f (h ++ [nd]).
Proof.
  intros Le. unfold revalue_heap. rewrite imap_app. simpl. f_equal. f_equal.
  unfold renode. by rewrite Nat.add_0_r, (proj2 (Nat.ltb_ge _ _) Le).
Qed.

Lemma store_length h p (g : Node Key Value → Node Key Value) h' :
  store h p g = Ret h' → length h' = length h.
Proof.
  destruct p as [a|]; [|done]. simpl. destruct (h !! a); [|done].
  intros [= <-]. apply length_insert.
Qed.

Lemma promote_body_revalue n f k v (p : promotion Key Value) :
  n ≤ length (heap (engine p)) →
  promote_body k v (repromotion n f p) =
    let* q := promote_body k v p in Ret (repromotion n f q).
Proof.
  intros Le. unfold promote_body, alloc.
  cbn [repromotion revalue engine previousFlip current_up_layer_left current_up_layer_right
       below_element heap layer_num top_left top_right bot_left bot_right listSize
       max_layer_num].
  rewrite length_revalue_heap, scan_lt_revalue.
  destruct (scan_lt _ _ _ _) as [cn| | |]; try done. cbn [bind].
  rewrite load_revalue. destruct (load _ cn) as [c| | |]; try done. cbn [bind].
  rewrite next_reread, revalue_heap_snoc by done.
  rewrite store_revalue by (intros; apply renode_set_next).
  destruct (store _ cn _) as [h1| | |] eqn:S1; try done. cbn [bind].
  rewrite store_revalue by (intros; apply renode_set_up).
  destruct (store h1 _ _) as [h2| | |] eqn:S2; try done. cbn [bind].
  apply store_length in S1, S2. rewrite length_app in S1. simpl in S1.
  destruct (_ =? _)%Z.
  - rewrite length_revalue_heap, revalue_heap_snoc by lia.
    rewrite length_revalue_heap, revalue_heap_snoc by (rewrite length_app; simpl; lia).
    rewrite store_revalue by (intros; apply renode_set_next).
    destruct (store _ _ _) as [h3| | |] eqn:S3; try done. cbn [bind].
    rewrite store_revalue by (intros; apply renode_set_up).
    destruct (store h3 _ _) as [h4| | |] eqn:S4; try done. cbn [bind].
    rewrite store_revalue by (intros; apply renode_set_up).
    destruct (store h4 _ _) as [h5| | |] eqn:S5; try done. cbn [bind heap].
    by blind.
  - cbn [bind heap]. by blind.
Qed.

Lemma promote_body_length k v (p p' : promotion Key Value) :
  promote_body k v p = Ret p' → length (heap (engine p)) ≤ length (heap (engine p')).
Proof.
  unfold promote_body, alloc.
  destruct (scan_lt _ _ _ _) as [cn| | |]; try done. cbn [bind].
  destruct (load _ cn) as [c| | |]; try done. cbn [bind].
  destruct (store _ cn _) as [h1| | |] eqn:S1; try done. cbn [bind].
  destruct (store h1 _ _) as [h2| | |] eqn:S2; try done. cbn [bind].
  apply store_length in S1, S2. rewrite length_app in S1. simpl in S1.
  destruct (_ =? _)%Z.
  - destruct (store _ _ _) as [h3| | |] eqn:S3; try done. cbn [bind].
    destruct (store h3 _ _) as [h4| | |] eqn:S4; try done. cbn [bind].
    destruct (store h4 _ _) as [h5| | |] eqn:S5; try done. cbn [bind heap].
    destruct (load h5 _) as [l| | |]; try done. cbn [bind].
    destruct (load h5 _) as [r| | |]; try done. cbn [bind].
    intros [= <-]. simpl.
    apply store_length in S3, S4, S5. rewrite !length_app in S3. simpl in S3. lia.
  - cbn [bind heap].
    destruct (load h2 _) as [l| | |]; try done. cbn [bind].
    destruct (load h2 _) as [r| | |]; try done. cbn [bind].
    intros [= <-]. simpl. lia.
Qed.

Lemma promote_while_revalue n f k v : ∀ fuel (p : promotion Key Value),
  n ≤ length (heap (engine p)) →
  promote_while fuel k v (repromotion n f p) =
    let* s' := promote_while fuel k v p in Ret (revalue n f s').
Proof.
  induction fuel as [|fuel IH]; intros p Le; [done|]. cbn [promote_while].
  cbn [repromotion revalue engine previousFlip layer_num max_layer_num].
  destruct (_ && _); [|done].
  change {| engine := revalue n f (engine p); previousFlip := previousFlip p;
            current_up_layer_left := current_up_layer_left p;
            current_up_layer_right := current_up_layer_right p;
            below_element := below_element p |} with (repromotion n f p).
  rewrite promote_body_revalue by done.
  destruct (promote_body k v p) as [p'| | |] eqn:Eb; try done. cbn [bind].
  apply IH. apply promote_body_length in Eb. lia.
Qed.

Lemma insert_revalue n f s k v :
  n ≤ length (heap s) →
  insert (revalue n f s) k v = let* (ok, s') := insert s k v in Ret (ok, revalue n f s').
Proof.
  intros Le. unfold insert, alloc.
  cbn [revalue heap layer_num top_left top_right bot_left bot_right listSize max_layer_num].
  change (layer_iterations (revalue n f s)) with (layer_iterations s).
  rewrite insert_for_revalue.
  destruct (insert_for _ _ _ _ _) as [cn| | |]; try done. cbn [bind].
  rewrite load_revalue. destruct (load _ cn) as [c| | |]; try done. cbn [bind].
  rewrite next_reread, load_revalue.
  destruct (load _ (next c)) as [nx| | |]; try done. cbn [bind].
  rewrite next_reread, key_reread.
  destruct (_ && _); [done|].
  rewrite length_revalue_heap, revalue_heap_snoc by done.
  rewrite store_revalue by (intros; apply renode_set_next).
  destruct (store _ cn _) as [h1| | |] eqn:S1; try done. cbn [bind].
  rewrite !load_revalue.
  destruct (load h1 (bot_left s)) as [bl| | |]; try done. cbn [bind].
  destruct (load h1 (bot_right s)) as [br| | |]; try done. cbn [bind].
  rewrite !up_reread.
  apply store_length in S1. rewrite length_app in S1. simpl in S1.
  match goal with
  | |- context [promote_while ?fu k v ?q] =>
      lazymatch q with
      | context [revalue_heap] =>
          match goal with
          | |- context [promote_while fu k v ?q0] =>
              lazymatch q0 with
              | context [revalue_heap] => fail
              | _ => change q with (repromotion n f q0)
              end
          end
      end
  end.
  rewrite promote_while_revalue by (simpl; lia).
  by destruct (promote_while _ _ _ _).
Qed.

Lemma insert_length s k v (ok : bool) s' :
  insert s k v = Ret (ok, s') → length (heap s) ≤ length (heap s').
Proof.
  unfold insert, alloc.
  destruct (insert_for _ _ _ _ _) as [cn| | |]; try done. cbn [bind].
  destruct (load _ cn) as [c| | |]; try done. cbn [bind].
  destruct (load _ (next c)) as [nx| | |]; try done. cbn [bind].
  destruct (_ && _); [by intros [= _ <-]|].
  destruct (store _ cn _) as [h1| | |] eqn:S1; try done. cbn [bind].
  destruct (load h1 _) as [bl| | |]; try done. cbn [bind].
  destruct (load h1 _) as [br| | |]; try done. cbn [bind].
  destruct (promote_while _ _ _ _) as [s1| | |] eqn:Ep; try done. cbn [bind].
  intros [= _ <-].
  apply store_length in S1. rewrite length_app in S1. simpl in S1.
  assert (G : ∀ fuel (p : promotion Key Value) s2,
             promote_while fuel k v p = Ret s2 → length (heap (engine p)) ≤ length (heap s2)).
  { clear. induction fuel as [|fuel IH]; intros p s2; [done|]. cbn [promote_while].
    destruct (_ && _); [|by intros [= <-]].
    destruct (promote_body k v p) as [q| | |] eqn:Eb; try done. cbn [bind].
    intros Eq. apply IH in Eq. apply promote_body_length in Eb. lia. }
  apply G in Ep. simpl in Ep. lia.
Qed.

Lemma insert_all_revalue n f kvs : ∀ s,
  n ≤ length (heap s) →
  insert_all (revalue n f s) kvs =
    let* (m, s') := insert_all s kvs in Ret (m, revalue n f s').
Proof.
  induction kvs as [|[k v] kvs IH]; intros s Le; [done|]. cbn [insert_all].
  rewrite insert_revalue by done.
  destruct (insert s k v) as [[ok s1]| | |] eqn:Ei; try done. cbn [bind].
  rewrite IH by (apply insert_length in Ei; lia).
  by destruct (insert_all s1 kvs) as [[m s2]| | |].
Qed.

(** *** The queries after the writes *)

Lemma height_revalue n f s k : height (revalue n f s) k = height s k.
Proof.
  unfold height. change (layer_iterations (revalue n f s)) with (layer_iterations s).
  cbn [revalue heap top_left]. by rewrite height_for_revalue.
Qed.

Lemma nextKey_revalue n f s k : nextKey (revalue n f s) k = nextKey s k.
Proof.
  unfold nextKey. change (layer_iterations (revalue n f s)) with (layer_iterations s).
  cbn [revalue heap top_left]. rewrite nextKey_for_revalue.
  destruct (nextKey_for _ _ _ _ _) as [[k'|c]| | |]; try done. cbn [bind]. blind.
  destruct (negb _); [done|]. by blind.
Qed.

Lemma previousKey_revalue n f s k : previousKey (revalue n f s) k = previousKey s k.
Proof.
  unfold previousKey. change (layer_iterations (revalue n f s)) with (layer_iterations s).
  cbn [revalue heap top_left]. rewrite previousKey_for_revalue.
  destruct (previousKey_for _ _ _ _) as [c| | |]; try done. cbn [bind]. by blind.
Qed.

Lemma isSmallestKey_revalue n f s k : isSmallestKey (revalue n f s) k = isSmallestKey s k.
Proof.
  unfold isSmallestKey. change (layer_iterations (revalue n f s)) with (layer_iterations s).
  cbn [revalue heap top_left bot_left]. rewrite exists_for_revalue.
  destruct (exists_for _ _ _ _) as [[c [|]]| | |]; try done. cbn [bind negb]. by blind.
Qed.

Lemma isLargestKey_revalue n f s k : isLargestKey (revalue n f s) k = isLargestKey s k.
Proof.
  unfold isLargestKey. change (layer_iterations (revalue n f s)) with (layer_iterations s).
  cbn [revalue heap top_left]. rewrite exists_for_revalue.
  destruct (exists_for _ _ _ _) as [[c [|]]| | |]; try done. cbn [bind negb].
  rewrite length_revalue_heap, to_bottom_revalue.
  destruct (to_bottom _ _ _) as [c1| | |]; try done. cbn [bind].
  rewrite to_last_revalue.
  destruct (to_last _ _ _) as [c2| | |]; try done. cbn [bind]. by blind.
Qed.

Lemma allKeysInOrder_revalue n f s : allKeysInOrder (revalue n f s) = allKeysInOrder s.
Proof.
  unfold allKeysInOrder. cbn [revalue heap top_left].
  rewrite length_revalue_heap, to_bottom_revalue.
  destruct (to_bottom _ _ _) as [c1| | |]; try done. cbn [bind]. blind.
  by rewrite collect_keys_revalue.
Qed.

Lemma find_ref_revalue n f s k : find_ref (revalue n f s) k = find_ref s k.
Proof.
  unfold find_ref. change (layer_iterations (revalue n f s)) with (layer_iterations s).
  cbn [revalue heap top_left]. by rewrite find_ref_for_revalue.
Qed.

Lemma find_revalue n f s k :
  find (revalue n f s) k =
    let* r := find_ref s k in
    let* nd := load (heap s) r in
    Ret (value (reread n f r nd)).
Proof.
  unfold find, find_ref. change (layer_iterations (revalue n f s)) with (layer_iterations s).
  cbn [revalue heap top_left].
  rewrite !find_for_find_ref_for, find_ref_for_revalue.
  destruct (find_ref_for _ _ _ _ _) as [[r|]| | |]; try done. cbn [bind].
  rewrite load_revalue. by destruct (load (heap s) r).
Qed.

(** The engine carries the values and never looks at them: when the value
    fields of the nodes allocated so far are rewritten in any way, [insert]
    takes the same course and leaves the same state up to these rewritten
    values, the queries on keys answer as before, and [find] returns what
    the node designated by the other overload now holds. *)
Theorem values_are_only_carried n f s k v :
  n ≤ length (heap s) →
  insert (revalue n f s) k v = (let* (ok, s') := insert s k v in Ret (ok, revalue n f s')) ∧
  height (revalue n f s) k = height s k ∧
  nextKey (revalue n f s) k = nextKey s k ∧
  previousKey (revalue n f s) k = previousKey s k ∧
  isSmallestKey (revalue n f s) k = isSmallestKey s k ∧
  isLargestKey (revalue n f s) k = isLargestKey s k ∧
  allKeysInOrder (revalue n f s) = allKeysInOrder s ∧
  find_ref (revalue n f s) k = find_ref s k ∧
  find (revalue n f s) k =
    (let* r := find_ref s k in
     let* nd := load (heap s) r in
     Ret (value (reread n f r nd))).
Proof.
  intros Le. split; [by apply insert_revalue|].
  split; [apply height_revalue|]. split; [apply nextKey_revalue|].
  split; [apply previousKey_revalue|]. split; [apply isSmallestKey_revalue|].
  split; [apply isLargestKey_revalue|]. split; [apply allKeysInOrder_revalue|].
  split; [apply find_ref_revalue|apply find_revalue].
Qed.

End Blind.

(** * The shape of the arena *)

(** ** Consequences of the key laws *)

Section KeyFacts.
Context {Key : Type} `{KeyLaws Key}.

Lemma key_eqb_refl (x : Key) : key_eqb x x = true.
Proof. by apply key_eqb_eq. Qed.

Lemma key_eqb_neq (x y : Key) : key_eqb x y = false ↔ x ≠ y.
Proof.
  split.
  - intros E ->. by rewrite key_eqb_refl in E.
  - intros N. destruct (key_eqb x y) eqn:E; [|done]. by apply key_eqb_eq in E.
Qed.

Lemma key_ltb_asym (x y : Key) : key_ltb x y = true → key_ltb y x = false.
Proof.
  intros L. destruct (key_ltb y x) eqn:G; [|done].
  pose proof (key_ltb_trans _ _ _ L G) as C. by rewrite key_ltb_irrefl in C.
Qed.

Lemma key_ltb_neq (x y : Key) : key_ltb x y = true → x ≠ y.
Proof. intros L ->. by rewrite key_ltb_irrefl in L. Qed.

Lemma key_leb_true_lt (x y : Key) : key_ltb x y = true → key_leb x y = true.
Proof. intros L. by rewrite key_leb_ltb, L. Qed.

Lemma key_leb_refl (x : Key) : key_leb x x = true.
Proof. rewrite key_leb_ltb, key_eqb_refl. apply orb_true_r. Qed.

Lemma key_leb_false_gt (x y : Key) : key_ltb y x = true → key_leb x y = false.
Proof.
  intros L. rewrite key_leb_ltb, (key_ltb_asym _ _ L). simpl.
  apply key_eqb_neq. intros ->. by rewrite key_ltb_irrefl in L.
Qed.

End KeyFacts.

(** ** Fields of the nodes in the arena *)

Section Shape.
Context {Key Value : Type} `{KeyLaws Key} `{ValueType Value}.

#[local] Abbreviation Node := (Node Key Value).
#[local] Abbreviation SkipList := (SkipList Key Value).

Implicit Types (h : list Node) (a b n : nat) (nd : Node) (l : list nat).

Lemma fld_Some {A} (f : Node → A) h a x :
  fld f h a = Some x ↔ ∃ nd, h !! a = Some nd ∧ f nd = x.
Proof.
  unfold fld. rewrite fmap_Some. split; intros (nd & E & F); by exists nd.
Qed.

Lemma fld_lookup {A} (f : Node → A) h a nd : h !! a = Some nd → fld f h a = Some (f nd).
Proof. unfold fld. by intros ->. Qed.

Lemma fld_valid {A} (f : Node → A) h a x : fld f h a = Some x → a < length h.
Proof. unfold fld. intros E. apply lookup_lt_is_Some. by destruct (h !! a). Qed.

Lemma fld_app_old {A} (f : Node → A) h h' a : a < length h → fld f (h ++ h') a = fld f h a.
Proof. intros L. unfold fld. by rewrite lookup_app_l. Qed.

Lemma fld_app_new {A} (f : Node → A) h nd h' : fld f (h ++ nd :: h') (length h) = Some (f nd).
Proof. unfold fld. by rewrite list_lookup_middle. Qed.

Lemma fld_insert_eq {A} (f : Node → A) h a nd' :
  a < length h → fld f (<[a := nd']> h) a = Some (f nd').
Proof. intros L. unfold fld. by rewrite list_lookup_insert_eq. Qed.

Lemma fld_insert_ne {A} (f : Node → A) h a b nd' :
  a ≠ b → fld f (<[a := nd']> h) b = fld f h b.
Proof. intros N. unfold fld. by rewrite list_lookup_insert_ne. Qed.

(** A store that leaves the field [f] of the node alone leaves [f] alone
    everywhere. *)
Lemma fld_insert_same {A} (f : Node → A) h a b nd nd' :
  h !! a = Some nd → f nd' = f nd → fld f (<[a := nd']> h) b = fld f h b.
Proof.
  intros E F. destruct (decide (a = b)) as [<-|N].
  - rewrite fld_insert_eq by (by eapply lookup_lt_Some). by rewrite (fld_lookup _ _ _ _ E), F.
  - by apply fld_insert_ne.
Qed.

Lemma load_Some h a nd : h !! a = Some nd → load h (Some a) = Ret nd.
Proof. simpl. by intros ->. Qed.

Lemma store_Some h a nd f : h !! a = Some nd → store h (Some a) f = Ret (<[a := f nd]> h).
Proof. simpl. by intros ->. Qed.

(** ** Linked segments *)

Lemma lseg_app h a l1 b l2 z :
  lseg h a (l1 ++ b :: l2) z ↔ lseg h a l1 (Some b) ∧ lseg h b l2 z.
Proof.
  revert a. induction l1 as [|c l1 IH]; intros a; simpl; [done|].
  rewrite IH. tauto.
Qed.

Lemma lseg_snoc h a l b z :
  lseg h a (l ++ [b]) z ↔ lseg h a l (Some b) ∧ fld next h b = Some z.
Proof. by rewrite lseg_app. Qed.

Lemma lseg_frame h h' a l z :
  (∀ x, x ∈ a :: l → fld next h' x = fld next h x) → lseg h a l z → lseg h' a l z.
Proof.
  revert a. induction l as [|b l IH]; intros a F; simpl.
  - intros <-. apply F. by left.
  - intros [E S]. split.
    + rewrite <- E. apply F. by left.
    + apply IH; [|done]. intros x I. apply F. by right.
Qed.

Lemma lseg_valid h a l z x : lseg h a l z → x ∈ a :: l → x < length h.
Proof.
  revert a. induction l as [|b l IH]; intros a; simpl.
  - intros E I. apply list_elem_of_singleton in I as ->. by eapply fld_valid.
  - intros [E S] I. apply elem_of_cons in I as [->|I]; [by eapply fld_valid|by eapply IH].
Qed.

(** The node a scan stops at: the last one of [a :: l]. *)
Lemma lseg_last_next h a l c z :
  lseg h a l z → last (a :: l) = Some c → fld next h c = Some z.
Proof.
  revert a. induction l as [|b l IH]; intros a.
  - simpl. by intros E [= <-].
  - intros [E S] L. rewrite last_cons_cons in L. by eapply IH.
Qed.

(** Splicing a fresh node in behind [c], the last node of [a :: l1]. *)
Lemma lseg_splice h a l1 l2 z c ndc new :
  lseg h a (l1 ++ l2) z →
  NoDup (a :: l1 ++ l2) →
  last (a :: l1) = Some c →
  h !! c = Some ndc →
  next new = next ndc →
  lseg (<[c := set_next (Some (length h)) ndc]> (h ++ [new])) a
       (l1 ++ length h :: l2) z.
Proof.
  intros S ND L C N.
  assert (V : ∀ x, x ∈ a :: l1 ++ l2 → x < length h) by (intros x; by eapply lseg_valid).
  assert (Vc : c < length (h ++ [new])).
  { rewrite length_app. simpl. apply lookup_lt_Some in C. lia. }
  assert (Fr : ∀ x, x ∈ a :: l1 ++ l2 → x ≠ c →
    fld next (<[c := set_next (Some (length h)) ndc]> (h ++ [new])) x = fld next h x).
  { intros x I Nx. rewrite fld_insert_ne by done. apply fld_app_old. by apply V. }
  assert (Fn : fld next (<[c := set_next (Some (length h)) ndc]> (h ++ [new])) (length h)
               = fld next h c).
  { rewrite fld_insert_ne by (apply lookup_lt_Some in C; lia).
    rewrite fld_app_new, (fld_lookup _ _ _ _ C). by rewrite N. }
  assert (Fc : fld next (<[c := set_next (Some (length h)) ndc]> (h ++ [new])) c
               = Some (Some (length h))).
  { by rewrite fld_insert_eq. }
  apply last_Some in L as [pre L].
  destruct l2 as [|b l2].
  - rewrite app_nil_r in *. apply lseg_snoc.
    pose proof (lseg_last_next _ _ _ c _ S) as Ez.
    rewrite L, last_snoc in Ez. specialize (Ez eq_refl).
    split; [|by rewrite Fn].
    destruct pre as [|a' pre]; simplify_eq/=.
    + done.
    + apply lseg_snoc in S as [S _]. apply lseg_snoc. split; [|done].
      eapply lseg_frame; [|done]. intros x I. apply Fr.
      * rewrite app_comm_cons. apply elem_of_app. by left.
      * intros ->. rewrite app_comm_cons in ND. apply NoDup_app in ND as (_ & D & _).
        apply (D c I). by left.
  - apply lseg_app in S as [S1 S2].
    change (length h :: b :: l2) with ([length h] ++ b :: l2).
    rewrite app_assoc. apply lseg_app. split.
    + apply lseg_snoc.
      assert (Ec : fld next h c = Some (Some b)).
      { eapply lseg_last_next; [done|]. by rewrite L, last_snoc. }
      split; [|by rewrite Fn].
      destruct pre as [|a' pre]; simplify_eq/=.
      * done.
      * apply lseg_snoc in S1 as [S1 _]. apply lseg_snoc. split; [|done].
        eapply lseg_frame; [|done]. intros x I. apply Fr.
        -- rewrite app_comm_cons. apply elem_of_app. left.
           rewrite app_comm_cons. apply elem_of_app. by left.
        -- intros ->. rewrite <- app_assoc, app_comm_cons in ND.
           apply NoDup_app in ND as (_ & D & _). apply (D c I). by left.
    + eapply lseg_frame; [|done]. intros x I. apply Fr.
      * rewrite app_comm_cons. apply elem_of_app. by right.
      * intros ->. rewrite app_comm_cons, L in ND.
        apply NoDup_app in ND as (_ & D & _). apply (D c); [|done].
        apply elem_of_app. right. by left.
Qed.

(** ** Towers and rows *)

Implicit Types (e : @entry Key Value) (E : list (@entry Key Value)) (ls rs : list nat).

Lemma row_app i E1 E2 : row i (E1 ++ E2) = row i E1 ++ row i E2.
Proof. apply omap_app. Qed.

Lemma row_cons_Some i e E a : etower e !! i = Some a → row i (e :: E) = a :: row i E.
Proof. unfold row. simpl. by intros ->. Qed.

Lemma row_cons_None i e E : etower e !! i = None → row i (e :: E) = row i E.
Proof. unfold row. simpl. by intros ->. Qed.

Lemma elem_of_row i E a : a ∈ row i E ↔ ∃ e, e ∈ E ∧ etower e !! i = Some a.
Proof. apply list_elem_of_omap. Qed.

Lemma towers_cons e E : towers (e :: E) = etower e ++ towers E.
Proof. done. Qed.

Lemma towers_app E1 E2 : towers (E1 ++ E2) = towers E1 ++ towers E2.
Proof.
  induction E1 as [|e E1 IH]; [done|]. simpl. by rewrite !towers_cons, IH, app_assoc.
Qed.

Lemma elem_of_towers E a : a ∈ towers E ↔ ∃ e, e ∈ E ∧ a ∈ etower e.
Proof.
  induction E as [|e E IH].
  - split; [by intros ?%elem_of_nil|]. by intros (e & ?%elem_of_nil & _).
  - rewrite towers_cons, elem_of_app, IH. split.
    + intros [I|(e' & I & J)]; [exists e|exists e']; split; try done; [by left|by right].
    + intros (e' & [->|I]%elem_of_cons & J); [by left|]. right. by exists e'.
Qed.

Lemma row_towers i E a : a ∈ row i E → a ∈ towers E.
Proof.
  rewrite elem_of_row, elem_of_towers. intros (e & I & L). exists e. split; [done|].
  by eapply list_elem_of_lookup_2.
Qed.

Lemma length_row i E : length (row i E) ≤ length E.
Proof.
  induction E as [|e E IH]; [done|].
  destruct (etower e !! i) as [a|] eqn:L.
  - rewrite (row_cons_Some _ _ _ _ L). simpl. lia.
  - rewrite (row_cons_None _ _ _ L). simpl. lia.
Qed.

Lemma row_NoDup i E : NoDup (towers E) → NoDup (row i E).
Proof.
  induction E as [|e E IH]; [constructor|].
  rewrite towers_cons. intros (Ne & D & NE)%NoDup_app.
  destruct (etower e !! i) as [a|] eqn:L.
  - rewrite (row_cons_Some _ _ _ _ L). apply NoDup_cons. split; [|by apply IH].
    intros I%row_towers. eapply D; [|done]. by eapply list_elem_of_lookup_2.
  - rewrite (row_cons_None _ _ _ L). by apply IH.
Qed.

Lemma row_disjoint i j E a : NoDup (towers E) → a ∈ row i E → a ∈ row j E → i = j.
Proof.
  induction E as [|e E IH]; [by intros _ ?%elem_of_nil|].
  rewrite towers_cons. intros (Ne & D & NE)%NoDup_app.
  rewrite !elem_of_row. intros (e1 & I1 & L1) (e2 & I2 & L2).
  apply elem_of_cons in I1 as [->|I1]; apply elem_of_cons in I2 as [->|I2].
  - apply (NoDup_lookup _ _ _ _ Ne L1 L2).
  - exfalso. eapply (D a); [by eapply list_elem_of_lookup_2|].
    apply elem_of_towers. exists e2. split; [done|]. by eapply list_elem_of_lookup_2.
  - exfalso. eapply (D a); [by eapply list_elem_of_lookup_2|].
    apply elem_of_towers. exists e1. split; [done|]. by eapply list_elem_of_lookup_2.
  - apply IH; [done|apply elem_of_row; eauto..].
Qed.

Lemma below_app l l' i : i ≤ length l → below (l ++ l') i = below l i.
Proof. destruct i as [|i]; [done|]. simpl. intros L. apply lookup_app_l. lia. Qed.

(** ** The representation invariant of the arena *)

Lemma Shape_valid h ls rs E a : Shape h ls rs E → a ∈ ls ++ rs ++ towers E → a < length h.
Proof.
  intros S. rewrite !elem_of_app. intros [I|[I|I]].
  - apply list_elem_of_lookup in I as [i I].
    destruct (shape_left _ _ _ _ S _ _ I) as (K & _). by eapply fld_valid.
  - apply list_elem_of_lookup in I as [i I].
    destruct (shape_right _ _ _ _ S _ _ I) as (K & _). by eapply fld_valid.
  - apply elem_of_towers in I as (e & I & J). apply list_elem_of_lookup in J as [j J].
    destruct (shape_tower _ _ _ _ S _ _ _ I J) as (K & _). by eapply fld_valid.
Qed.

Lemma on_layer_elem ls rs E i a : on_layer ls rs E i a → a ∈ ls ++ rs ++ towers E.
Proof.
  rewrite !elem_of_app. intros [I|[I|I]].
  - left. by eapply list_elem_of_lookup_2.
  - right. left. by eapply list_elem_of_lookup_2.
  - right. right. by eapply row_towers.
Qed.

Lemma on_layer_inj ls rs E i j a :
  NoDup (ls ++ rs ++ towers E) → on_layer ls rs E i a → on_layer ls rs E j a → i = j.
Proof.
  intros (Nl & Dl & (Nr & Dr & Nt)%NoDup_app)%NoDup_app [I|[I|I]] [J|[J|J]].
  - apply (NoDup_lookup _ _ _ _ Nl I J).
  - exfalso. eapply Dl; [by eapply list_elem_of_lookup_2|].
    apply elem_of_app. left. by eapply list_elem_of_lookup_2.
  - exfalso. eapply Dl; [by eapply list_elem_of_lookup_2|].
    apply elem_of_app. right. by eapply row_towers.
  - exfalso. eapply Dl; [by eapply list_elem_of_lookup_2|].
    apply elem_of_app. left. by eapply list_elem_of_lookup_2.
  - apply (NoDup_lookup _ _ _ _ Nr I J).
  - exfalso. eapply Dr; [by eapply list_elem_of_lookup_2|]. by eapply row_towers.
  - exfalso. eapply Dl; [by eapply list_elem_of_lookup_2|].
    apply elem_of_app. right. by eapply row_towers.
  - exfalso. eapply Dr; [by eapply list_elem_of_lookup_2|]. by eapply row_towers.
  - by eapply row_disjoint.
Qed.

Lemma chain_on_layer ls rs E i sl sr a :
  ls !! i = Some sl → rs !! i = Some sr → a ∈ sl :: row i E ++ [sr] → on_layer ls rs E i a.
Proof.
  intros L R. rewrite elem_of_cons, elem_of_app, list_elem_of_singleton.
  intros [->|[I| ->]]; [by left|by right; right|by right; left].
Qed.

Lemma chain_NoDup ls rs E i sl sr :
  NoDup (ls ++ rs ++ towers E) → ls !! i = Some sl → rs !! i = Some sr →
  NoDup (sl :: row i E ++ [sr]).
Proof.
  intros (Nl & Dl & (Nr & Dr & Nt)%NoDup_app)%NoDup_app L R.
  apply list_elem_of_lookup_2 in L, R.
  apply NoDup_cons. split.
  - rewrite elem_of_app, list_elem_of_singleton. intros [I| ->].
    + eapply Dl; [done|]. apply elem_of_app. right. by eapply row_towers.
    + eapply Dl; [done|]. apply elem_of_app. by left.
  - apply NoDup_app. split; [by apply row_NoDup|]. split; [|apply NoDup_singleton].
    intros x I ->%list_elem_of_singleton. eapply Dr; [done|]. by eapply row_towers.
Qed.

(** A heap that agrees with [h] on the fields the invariant reads
    represents the same engine. *)
Lemma Shape_frame h h' ls rs E :
  Shape h ls rs E →
  (∀ a, a < length h → fld key h' a = fld key h a) →
  (∀ a, a < length h → fld value h' a = fld value h a) →
  (∀ a, a < length h → fld down h' a = fld down h a) →
  (∀ a, a < length h → fld next h' a = fld next h a) →
  (∀ a, a ∈ ls ++ rs → fld up h' a = fld up h a) →
  Shape h' ls rs E.
Proof.
  intros Sh Fk Fv Fd Fn Fu.
  pose proof (λ a, Shape_valid _ _ _ _ a Sh) as V.
  split.
  - apply Sh.
  - intros i a L. destruct (shape_left _ _ _ _ Sh _ _ L) as (K & D & U).
    assert (I : a ∈ ls) by by eapply list_elem_of_lookup_2.
    rewrite Fk, Fd, Fu; [done|apply elem_of_app; by left|apply V..];
      apply elem_of_app; by left.
  - intros i a L. destruct (shape_right _ _ _ _ Sh _ _ L) as (K & D & U).
    assert (I : a ∈ rs) by by eapply list_elem_of_lookup_2.
    rewrite Fk, Fd, Fu; [done|apply elem_of_app; by right|apply V..];
      apply elem_of_app; right; apply elem_of_app; by left.
  - intros e j a I L. destruct (shape_tower _ _ _ _ Sh _ _ _ I L) as (K & W & D).
    assert (J : a ∈ towers E).
    { apply elem_of_towers. exists e. split; [done|]. by eapply list_elem_of_lookup_2. }
    rewrite Fk, Fv, Fd; [done|apply V..]; apply elem_of_app; right; apply elem_of_app; by right.
  - intros i sl sr L R. eapply lseg_frame; [|by eapply shape_chain].
    intros x I. apply Fn, V. eapply on_layer_elem, chain_on_layer; done.
  - apply Sh.
Qed.

(** An entry without nodes is invisible. *)
Lemma Shape_stub h ls rs E1 E2 k v :
  Shape h ls rs (E1 ++ E2) → Shape h ls rs (E1 ++ mkEntry k v [] :: E2).
Proof.
  intros Sh.
  assert (R : ∀ i, row i (E1 ++ mkEntry k v [] :: E2) = row i (E1 ++ E2)).
  { intros i. by rewrite !row_app, row_cons_None. }
  assert (T : towers (E1 ++ mkEntry k v [] :: E2) = towers (E1 ++ E2)).
  { by rewrite !towers_app, towers_cons. }
  split; try apply Sh.
  - intros e j a I L. apply (shape_tower _ _ _ _ Sh); [|done].
    rewrite elem_of_app, elem_of_cons in I. rewrite elem_of_app.
    destruct I as [I|[->|I]]; [by left| |by right]. simpl in L. by rewrite lookup_nil in L.
  - intros i sl sr L1 L2. rewrite R. by apply Sh.
  - rewrite T. apply Sh.
Qed.

(** [new Node(k, v, c->next, below, nullptr); c->next = <the new node>]:
    a node is spliced in behind [c], the last node of its layer before the
    key, and becomes the top of the key's tower. *)
Lemma Shape_extend h ls rs E1 e E2 sl c ndc :
  Shape h ls rs (E1 ++ e :: E2) →
  ls !! length (etower e) = Some sl →
  last (sl :: row (length (etower e)) E1) = Some c →
  h !! c = Some ndc →
  Shape (<[c := set_next (Some (length h)) ndc]>
           (h ++ [mkNode (ekey e) (evalue e) (next ndc)
                    (below (etower e) (length (etower e))) None]))
        ls rs (E1 ++ grow e (length h) :: E2).
Proof.
  intros Sh L C Hc.
  pose proof (λ a, Shape_valid _ _ _ _ a Sh) as V.
  remember (length (etower e)) as j eqn:Ej.
  remember (length h) as n eqn:En.
  remember (mkNode (ekey e) (evalue e) (next ndc) (below (etower e) j) None) as new eqn:Enew.
  remember (<[c := set_next (Some n) ndc]> (h ++ [new])) as h' eqn:Eh'.
  assert (Vc : c < n) by (subst n; by eapply lookup_lt_Some).
  assert (Hc' : (h ++ [new]) !! c = Some ndc) by (rewrite lookup_app_l; [done|by subst n]).
  assert (Fold : ∀ A (f : Node → A), (∀ v nd, f (set_next v nd) = f nd) →
            ∀ a, a < n → fld f h' a = fld f h a).
  { intros A f Hf a La. subst h'.
    rewrite (fld_insert_same f _ c a ndc) by done. apply fld_app_old. by subst n. }
  assert (Fnew : ∀ A (f : Node → A), fld f h' n = Some (f new)).
  { intros A f. subst h'. rewrite fld_insert_ne by lia. subst n. apply fld_app_new. }
  assert (Fnext : ∀ a, a < n → a ≠ c → fld next h' a = fld next h a).
  { intros a La Na. subst h'. rewrite fld_insert_ne by done. apply fld_app_old. by subst n. }
  assert (Tj : etower e !! j = None) by (apply lookup_ge_None; lia).
  assert (Gj : etower (grow e n) !! j = Some n).
  { simpl. subst j. by rewrite list_lookup_middle. }
  assert (Glt : ∀ i, i ≠ j → etower (grow e n) !! i = etower e !! i).
  { intros i Ni. simpl. destruct (decide (i < j)) as [Lt|Ge].
    - apply lookup_app_l. lia.
    - rewrite !lookup_ge_None_2; [done|lia|]. rewrite length_app. simpl. lia. }
  assert (Rj : row j (E1 ++ grow e n :: E2) = row j E1 ++ n :: row j E2).
  { by rewrite row_app, (row_cons_Some _ _ _ _ Gj). }
  assert (Rj' : row j (E1 ++ e :: E2) = row j E1 ++ row j E2).
  { by rewrite row_app, (row_cons_None _ _ _ Tj). }
  assert (Ri : ∀ i, i ≠ j → row i (E1 ++ grow e n :: E2) = row i (E1 ++ e :: E2)).
  { intros i Ni. rewrite !row_app. f_equal. unfold row. simpl. by rewrite <- (Glt i Ni). }
  assert (Oc : on_layer ls rs (E1 ++ e :: E2) j c).
  { apply last_Some_elem_of in C. apply elem_of_cons in C as [->|I]; [by left|].
    right. right. rewrite row_app. apply elem_of_app. by left. }
  split.
  - apply Sh.
  - intros i a La. destruct (shape_left _ _ _ _ Sh _ _ La) as (K & D & U).
    assert (a < n) by (rewrite En; by eapply fld_valid). by rewrite !Fold.
  - intros i a La. destruct (shape_right _ _ _ _ Sh _ _ La) as (K & D & U).
    assert (a < n) by (rewrite En; by eapply fld_valid). by rewrite !Fold.
  - intros e0 i a I La.
    assert (Keep : ∀ e1, e1 ∈ E1 ++ e :: E2 → etower e1 !! i = Some a →
      fld key h' a = Some (ekey e1) ∧ fld value h' a = Some (evalue e1) ∧
      fld down h' a = Some (below (etower e1) i)).
    { intros e1 I1 L1. destruct (shape_tower _ _ _ _ Sh _ _ _ I1 L1) as (K & W & D).
      assert (a < n) by (rewrite En; by eapply fld_valid). by rewrite !Fold. }
    rewrite elem_of_app, elem_of_cons in I. destruct I as [I|[->|I]].
    + apply Keep; [|done]. apply elem_of_app. by left.
    + destruct (decide (i = j)) as [->|Ni].
      * rewrite Gj in La. injection La as <-. rewrite !Fnew. subst new. simpl.
        split; [done|]. split; [done|]. by rewrite below_app by lia.
      * rewrite (Glt i Ni) in La.
        destruct (Keep e) as (K & W & D); [|done|].
        { apply elem_of_app. right. by left. }
        split; [done|]. split; [done|]. simpl. rewrite below_app; [done|].
        apply lookup_lt_Some in La. lia.
    + apply Keep; [|done]. apply elem_of_app. right. by right.
  - intros i sl' sr Ll Lr.
    pose proof (shape_chain _ _ _ _ Sh _ _ _ Ll Lr) as Ch.
    destruct (decide (i = j)) as [->|Ni].
    + assert (sl' = sl) as -> by congruence.
      rewrite Rj. rewrite Rj' in Ch. rewrite <- app_assoc in *. simpl.
      subst h' n. apply lseg_splice; try done; [|by subst new].
      pose proof (chain_NoDup _ _ _ _ _ _ (shape_nodup _ _ _ _ Sh) Ll Lr) as ND.
      by rewrite Rj', <- app_assoc in ND.
    + rewrite (Ri i Ni). eapply lseg_frame; [|done]. intros x I.
      pose proof (chain_on_layer _ _ _ _ _ _ _ Ll Lr I) as Ox.
      apply Fnext.
      * by apply V, on_layer_elem with i.
      * intros ->. apply Ni. by eapply on_layer_inj; [apply Sh|..].
  - pose proof (shape_nodup _ _ _ _ Sh) as ND.
    assert (P : ls ++ rs ++ towers (E1 ++ grow e n :: E2)
                ≡ₚ n :: (ls ++ rs ++ towers (E1 ++ e :: E2))).
    { rewrite !towers_app, !towers_cons. simpl.
      rewrite <- (app_assoc (etower e) [n]). simpl.
      rewrite !(app_assoc ls), !(app_assoc (ls ++ rs)), !(app_assoc ((ls ++ rs) ++ towers E1)).
      by rewrite <- Permutation_middle. }
    rewrite P. apply NoDup_cons. split; [|done].
    intros I%V. lia.
Qed.

Lemma fld_insert {A} (f : Node → A) h a b nd' :
  a < length h →
  fld f (<[a := nd']> h) b = if decide (a = b) then Some (f nd') else fld f h b.
Proof.
  intros L. case_decide as D.
  - subst b. by apply fld_insert_eq.
  - by apply fld_insert_ne.
Qed.

Lemma row_nil i E : (∀ e, e ∈ E → length (etower e) ≤ i) → row i E = [].
Proof.
  induction E as [|e E IH]; [done|]. intros B.
  rewrite row_cons_None.
  - apply IH. intros e' I. apply B. by right.
  - apply lookup_ge_None. apply B. by left.
Qed.

(** A fresh pair of sentinels on top of the old top pair: the body of
    [if ((layer_num - 1) == previousFlip)] in [insert]. *)
Lemma Shape_new_layer h ls rs E tl tr ndl ndr :
  Shape h ls rs E →
  last ls = Some tl → last rs = Some tr →
  (∀ e, e ∈ E → length (etower e) ≤ length ls) →
  h !! tl = Some ndl → h !! tr = Some ndr →
  Shape (<[tr := set_up (Some (S (length h))) ndr]>
          (<[tl := set_up (Some (length h)) ndl]>
            (<[length h := set_next (Some (S (length h)))
                             (mkNode key_default value_default None (Some tl) None)]>
              ((h ++ [mkNode key_default value_default None (Some tl) None])
                  ++ [mkNode key_default value_default None (Some tr) None]))))
        (ls ++ [length h]) (rs ++ [S (length h)]) E.
Proof.
  intros Sh Ll Lr B Hl Hr.
  pose proof (λ a, Shape_valid _ _ _ _ a Sh) as V.
  pose proof (shape_nodup _ _ _ _ Sh) as ND.
  pose proof (shape_length _ _ _ _ Sh) as Len.
  remember (length h) as n eqn:En.
  remember (mkNode key_default value_default None (Some tl) None) as N1 eqn:EN1.
  remember (mkNode key_default value_default None (Some tr) None) as N2 eqn:EN2.
  remember (<[tr := set_up (Some (S n)) ndr]> (<[tl := set_up (Some n) ndl]>
             (<[n := set_next (Some (S n)) N1]> ((h ++ [N1]) ++ [N2])))) as h' eqn:Eh'.
  assert (Vl : tl < n) by (subst n; by eapply lookup_lt_Some).
  assert (Vr : tr < n) by (subst n; by eapply lookup_lt_Some).
  assert (Il : tl ∈ ls) by by apply last_Some_elem_of.
  assert (Ir : tr ∈ rs) by by apply last_Some_elem_of.
  assert (Nlr : tl ≠ tr).
  { intros ->. apply NoDup_app in ND as (_ & D & _). apply (D tr Il).
    apply elem_of_app. by left. }
  assert (Ev : ∀ A (f : Node → A) a,
    fld f h' a =
      if decide (tr = a) then Some (f (set_up (Some (S n)) ndr))
      else if decide (tl = a) then Some (f (set_up (Some n) ndl))
      else if decide (n = a) then Some (f (set_next (Some (S n)) N1))
      else fld f ((h ++ [N1]) ++ [N2]) a).
  { intros A f a. subst h'.
    rewrite !fld_insert; [done|rewrite ?length_insert, !length_app; simpl; lia..]. }
  assert (Eo : ∀ A (f : Node → A) a, a < n → fld f ((h ++ [N1]) ++ [N2]) a = fld f h a).
  { intros A f a La. rewrite !fld_app_old; [done|lia|rewrite length_app; simpl; lia]. }
  assert (Fold : ∀ A (f : Node → A), (∀ v nd, f (set_up v nd) = f nd) →
            ∀ a, a < n → fld f h' a = fld f h a).
  { intros A f Hf a La. rewrite Ev.
    destruct (decide (tr = a)) as [<-|?]; [by rewrite Hf, (fld_lookup _ _ _ _ Hr)|].
    destruct (decide (tl = a)) as [<-|?]; [by rewrite Hf, (fld_lookup _ _ _ _ Hl)|].
    destruct (decide (n = a)); [lia|]. by apply Eo. }
  assert (Fup : ∀ a, a < n → a ≠ tl → a ≠ tr → fld up h' a = fld up h a).
  { intros a La N1' N2'. rewrite Ev. repeat case_decide; try done; try lia. by apply Eo. }
  assert (Fn1 : ∀ A (f : Node → A), fld f h' n = Some (f (set_next (Some (S n)) N1))).
  { intros A f. rewrite Ev. repeat case_decide; try done; lia. }
  assert (Fn2 : ∀ A (f : Node → A), fld f h' (S n) = Some (f N2)).
  { intros A f. rewrite Ev. repeat case_decide; try lia.
    replace (S n) with (length (h ++ [N1])) by (rewrite length_app; simpl; lia).
    apply fld_app_new. }
  assert (Ftl : fld up h' tl = Some (Some n)).
  { rewrite Ev. repeat case_decide; try done; lia. }
  assert (Ftr : fld up h' tr = Some (Some (S n))).
  { rewrite Ev. repeat case_decide; try done; lia. }
  apply NoDup_app in ND as (NDl & Dl & (NDr & Dr & NDt)%NoDup_app).
  rewrite last_lookup in Ll, Lr.
  assert (Pl : 0 < length ls) by (apply lookup_lt_Some in Ll; lia).
  split.
  - rewrite !length_app. simpl. lia.
  - intros i a La. apply lookup_snoc_Some in La as [[Li La]|[-> <-]].
    + destruct (shape_left _ _ _ _ Sh _ _ La) as (K & D & U).
      assert (a < n) by (rewrite En; by eapply fld_valid).
      rewrite !Fold by done. rewrite below_app by lia.
      split; [done|]. split; [done|].
      destruct (decide (S i = length ls)) as [Ei|Ni].
      * assert (a = tl) as ->.
        { replace (pred (length ls)) with i in Ll by lia. congruence. }
        rewrite Ftl, Ei. by rewrite list_lookup_middle.
      * rewrite lookup_app_l by lia. rewrite Fup; [done..| |].
        -- intros ->. apply Ni.
           pose proof (NoDup_lookup _ _ _ _ NDl La Ll). lia.
        -- intros ->. apply (Dl tr); [by eapply list_elem_of_lookup_2|].
           apply elem_of_app. by left.
    + rewrite !Fn1. subst N1. simpl. split; [done|]. split.
      * destruct (length ls) as [|m] eqn:Em; [lia|]. simpl.
        rewrite lookup_app_l by lia. by rewrite <- Ll.
      * by rewrite lookup_ge_None_2 by (rewrite length_app; simpl; lia).
  - intros i a La. apply lookup_snoc_Some in La as [[Li La]|[-> <-]].
    + destruct (shape_right _ _ _ _ Sh _ _ La) as (K & D & U).
      assert (a < n) by (rewrite En; by eapply fld_valid).
      rewrite !Fold by done. rewrite below_app by lia.
      split; [done|]. split; [done|].
      destruct (decide (S i = length rs)) as [Ei|Ni].
      * assert (a = tr) as ->.
        { replace (pred (length rs)) with i in Lr by lia. congruence. }
        rewrite Ftr, Ei. by rewrite list_lookup_middle.
      * rewrite lookup_app_l by lia. rewrite Fup; [done..| |].
        -- intros ->. apply (Dl tl Il). apply elem_of_app. left.
           by eapply list_elem_of_lookup_2.
        -- intros ->. apply Ni.
           pose proof (NoDup_lookup _ _ _ _ NDr La Lr). lia.
    + rewrite !Fn2. subst N2. simpl. split; [done|]. split.
      * destruct (length rs) as [|m] eqn:Em; [lia|]. simpl.
        rewrite lookup_app_l by lia. by rewrite <- Lr.
      * by rewrite lookup_ge_None_2 by (rewrite length_app; simpl; lia).
  - intros e j a I La. destruct (shape_tower _ _ _ _ Sh _ _ _ I La) as (K & W & D).
    assert (a < n) by (rewrite En; by eapply fld_valid). by rewrite !Fold.
  - intros i sl sr La Ra.
    apply lookup_snoc_Some in La as [[Li La]|[-> <-]];
      apply lookup_snoc_Some in Ra as [[Ri Ra]|[Ei <-]]; try lia.
    + eapply lseg_frame; [|by eapply shape_chain]. intros x Ix.
      apply Fold; [done|]. apply V. eapply on_layer_elem, chain_on_layer; done.
    + rewrite row_nil by done. simpl. rewrite Fn1, Fn2. by subst N1 N2.
  - assert (P : (ls ++ [n]) ++ (rs ++ [S n]) ++ towers E
                ≡ₚ n :: S n :: (ls ++ rs ++ towers E)).
    { rewrite <- !app_assoc. simpl. rewrite <- Permutation_middle. apply perm_skip.
      rewrite !(app_assoc ls). by rewrite <- Permutation_middle. }
    rewrite P. apply NoDup_cons. split.
    + rewrite elem_of_cons. intros [?|I%V]; lia.
    + apply NoDup_cons. split; [intros I%V; lia|].
      apply NoDup_app. split; [done|]. split; [done|]. by apply NoDup_app.
Qed.

(** ** The rightward scans on a linked segment *)

Lemma lseg_cons_load h a b l z :
  lseg h a (b :: l) z → ∃ nd, h !! a = Some nd ∧ next nd = Some b.
Proof. intros [E _]. by apply fld_Some in E. Qed.

(** The strict scan walks over the keys below [k] and stops in front of the
    right sentinel or of the first key that is not below [k]. *)
Lemma scan_lt_seg h k l : ∀ fuel a b rest,
  lseg h a (l ++ b :: rest) None →
  keys_lt h k l →
  (rest = [] ∨ ∃ kb, fld key h b = Some kb ∧ key_ltb kb k = false) →
  length l < fuel →
  scan_lt fuel h k (Some a) = Ret (last (a :: l)).
Proof.
  induction l as [|x l IH]; intros fuel a b rest Sg Kl St Fu.
  - destruct fuel as [|fuel]; [simpl in Fu; lia|].
    destruct Sg as [Ea Sg]. apply fld_Some in Ea as (na & Ea & Na).
    simpl. rewrite Ea. simpl. rewrite Na. simpl.
    destruct rest as [|r rest].
    + simpl in Sg. apply fld_Some in Sg as (nb & Eb & Nb). by rewrite Eb; simpl; rewrite Nb.
    + destruct St as [?|(kb & Kb & Lb)]; [done|].
      destruct Sg as [Eb _]. apply fld_Some in Eb as (nb & Eb & Nb).
      apply fld_Some in Kb as (nb' & Eb' & Kb).
      assert (nb' = nb) as -> by congruence. subst kb.
      rewrite Eb. simpl. rewrite Nb. simpl. by rewrite Lb.
  - destruct fuel as [|fuel]; [simpl in Fu; lia|].
    apply Forall_cons in Kl as [(kx & Kx & Lx) Kl].
    destruct Sg as [Ea Sg]. apply fld_Some in Ea as (na & Ea & Na).
    assert (∃ nx y, h !! x = Some nx ∧ next nx = Some y) as (nx & y & Ex & Nx).
    { destruct l; destruct (lseg_cons_load _ _ _ _ _ Sg) as (nx & Ex & Nx);
        by eexists _, _. }
    apply fld_Some in Kx as (nx' & Ex' & Kx).
    assert (nx' = nx) as -> by congruence. subst kx.
    simpl scan_lt. rewrite Ea. simpl. rewrite Na. simpl. rewrite Ex. simpl.
    rewrite Nx. simpl. rewrite Lx.
    rewrite (IH fuel x b rest); [by rewrite ?last_cons_cons|done..|simpl in Fu; lia].
Qed.

(** The inclusive scan stops in the same place; it reports a match when
    the node it stops in front of carries [k]. *)
Lemma scan_le_seg h k l (found : bool) : ∀ fuel a b rest,
  lseg h a (l ++ b :: rest) None →
  keys_lt h k l →
  (if found then rest ≠ [] ∧ fld key h b = Some k
   else rest = [] ∨ ∃ kb, fld key h b = Some kb ∧ key_ltb k kb = true) →
  length l < fuel →
  scan_le fuel h k (Some a) = Ret (last (a :: l), found).
Proof.
  induction l as [|x l IH]; intros fuel a b rest Sg Kl St Fu.
  - destruct fuel as [|fuel]; [simpl in Fu; lia|].
    destruct Sg as [Ea Sg]. apply fld_Some in Ea as (na & Ea & Na).
    simpl. rewrite Ea. simpl. rewrite Na. simpl.
    destruct rest as [|r rest].
    + simpl in Sg. apply fld_Some in Sg as (nb & Eb & Nb).
      rewrite Eb; simpl; rewrite Nb. simpl.
      destruct found; [by destruct St|done].
    + destruct Sg as [Eb _]. apply fld_Some in Eb as (nb & Eb & Nb).
      rewrite Eb. simpl. rewrite Nb. simpl.
      destruct found.
      * destruct St as [_ Kb]. apply fld_Some in Kb as (nb' & Eb' & Kb).
        assert (nb' = nb) as -> by congruence. rewrite Kb.
        by rewrite key_leb_refl, key_eqb_refl.
      * destruct St as [?|(kb & Kb & Lb)]; [done|].
        apply fld_Some in Kb as (nb' & Eb' & Kb).
        assert (nb' = nb) as -> by congruence. subst kb.
        by rewrite (key_leb_false_gt _ _ Lb).
  - destruct fuel as [|fuel]; [simpl in Fu; lia|].
    apply Forall_cons in Kl as [(kx & Kx & Lx) Kl].
    destruct Sg as [Ea Sg]. apply fld_Some in Ea as (na & Ea & Na).
    assert (∃ nx y, h !! x = Some nx ∧ next nx = Some y) as (nx & y & Ex & Nx).
    { destruct l; destruct (lseg_cons_load _ _ _ _ _ Sg) as (nx & Ex & Nx);
        by eexists _, _. }
    apply fld_Some in Kx as (nx' & Ex' & Kx).
    assert (nx' = nx) as -> by congruence. subst kx.
    simpl scan_le. rewrite Ea. simpl. rewrite Na. simpl. rewrite Ex. simpl.
    rewrite Nx. simpl. rewrite (key_leb_true_lt _ _ Lx).
    replace (key_eqb (key nx) k) with false
      by (symmetry; by apply key_eqb_neq, key_ltb_neq).
    rewrite (IH fuel x b rest); [by rewrite ?last_cons_cons|done..|simpl in Fu; lia].
Qed.

(** The part of a segment behind one of its nodes. *)
Lemma lseg_from h a l t z pre c post :
  lseg h a (l ++ t) z → a :: l = pre ++ c :: post → lseg h c (post ++ t) z.
Proof.
  intros Sg Eq. destruct pre as [|a' pre]; simplify_eq/=; [done|].
  rewrite <- app_assoc in Sg. simpl in Sg. by apply lseg_app in Sg as [_ Sg].
Qed.

(** ** The scans on the rows of the engine *)

Lemma after_not_before k E : after k E → not_before k E.
Proof. intros A. eapply Forall_impl; [done|]. intros e. apply key_ltb_asym. Qed.

Lemma row_keys_lt h ls rs E E1 i k :
  Shape h ls rs E → (∀ e, e ∈ E1 → e ∈ E) → before k E1 → keys_lt h k (row i E1).
Proof.
  intros Sh Sub Be. apply Forall_forall. intros x (e & I & L)%elem_of_row.
  exists (ekey e). split.
  - by apply (shape_tower _ _ _ _ Sh e i x (Sub e I) L).
  - unfold before in Be. rewrite Forall_forall in Be. by apply Be.
Qed.

Lemma keys_lt_post h k l pre c post : keys_lt h k l → l = pre ++ c :: post → keys_lt h k post.
Proof. intros Kl ->. apply Forall_app in Kl as [_ Kl]. by apply Forall_cons in Kl as [_ Kl]. Qed.

(** The nodes of [sl :: row] behind [c0], with what the scan needs. *)
Lemma scan_start h sl l t k c0 :
  lseg h sl (l ++ t) None → keys_lt h k l → c0 ∈ sl :: l →
  ∃ post, lseg h c0 (post ++ t) None ∧ keys_lt h k post ∧
          last (c0 :: post) = last (sl :: l) ∧ length post ≤ length l.
Proof.
  intros Sg Kl I. apply list_elem_of_split in I as (pre & post & Eq).
  exists post. split; [by eapply lseg_from|]. split.
  - destruct pre as [|a pre]; simplify_eq/=; [done|]. by eapply keys_lt_post.
  - rewrite Eq, last_app_cons. split; [done|].
    apply (f_equal length) in Eq. rewrite length_app in Eq. simpl in Eq. lia.
Qed.

Lemma scan_lt_row h ls rs E1 E2 i sl sr k c0 fuel :
  Shape h ls rs (E1 ++ E2) → before k E1 → not_before k E2 →
  ls !! i = Some sl → rs !! i = Some sr →
  c0 ∈ sl :: row i E1 → length E1 < fuel →
  scan_lt fuel h k (Some c0) = Ret (last (sl :: row i E1)).
Proof.
  intros Sh Be Nb Ll Lr I Fu.
  pose proof (shape_chain _ _ _ _ Sh _ _ _ Ll Lr) as Sg.
  rewrite row_app, <- app_assoc in Sg.
  assert (Kl : keys_lt h k (row i E1)).
  { eapply row_keys_lt; [done| |done]. intros e ?. apply elem_of_app. by left. }
  destruct (scan_start _ _ _ _ _ _ Sg Kl I) as (post & Sg' & Kp & <- & Len).
  pose proof (length_row i E1).
  destruct (row i E2) as [|b R] eqn:ER.
  - eapply scan_lt_seg; [done..|by left|lia].
  - eapply scan_lt_seg; [done..| |lia]. right.
    assert (b ∈ row i E2) as (e & Ie & Le)%elem_of_row by (rewrite ER; by left).
    exists (ekey e). split.
    + apply (shape_tower _ _ _ _ Sh e i b); [|done]. apply elem_of_app. by right.
    + unfold not_before in Nb. rewrite Forall_forall in Nb. by apply Nb.
Qed.

Lemma scan_le_row_found h ls rs E1 e E3 i sl sr k b c0 fuel :
  Shape h ls rs (E1 ++ e :: E3) → before k E1 → ekey e = k → etower e !! i = Some b →
  ls !! i = Some sl → rs !! i = Some sr →
  c0 ∈ sl :: row i E1 → length E1 < fuel →
  scan_le fuel h k (Some c0) = Ret (last (sl :: row i E1), true).
Proof.
  intros Sh Be Ek Lb Ll Lr I Fu.
  pose proof (shape_chain _ _ _ _ Sh _ _ _ Ll Lr) as Sg.
  rewrite row_app, (row_cons_Some _ _ _ _ Lb), <- app_assoc in Sg.
  assert (Kl : keys_lt h k (row i E1)).
  { eapply row_keys_lt; [done| |done]. intros e' ?. apply elem_of_app. by left. }
  destruct (scan_start _ _ _ _ _ _ Sg Kl I) as (post & Sg' & Kp & <- & Len).
  pose proof (length_row i E1).
  simpl in Sg'. eapply scan_le_seg; [done..| |lia]. split.
  - by destruct (row i E3).
  - rewrite <- Ek. apply (shape_tower _ _ _ _ Sh e i b); [|done].
    apply elem_of_app. right. by left.
Qed.

Lemma scan_le_row_miss h ls rs E1 E2 E3 i sl sr k c0 fuel :
  Shape h ls rs (E1 ++ E2) → before k E1 → after k E3 →
  row i E2 = row i E3 → (∀ e, e ∈ E3 → e ∈ E2) →
  ls !! i = Some sl → rs !! i = Some sr →
  c0 ∈ sl :: row i E1 → length E1 < fuel →
  scan_le fuel h k (Some c0) = Ret (last (sl :: row i E1), false).
Proof.
  intros Sh Be Af ER Sub Ll Lr I Fu.
  pose proof (shape_chain _ _ _ _ Sh _ _ _ Ll Lr) as Sg.
  rewrite row_app, ER, <- app_assoc in Sg.
  assert (Kl : keys_lt h k (row i E1)).
  { eapply row_keys_lt; [done| |done]. intros e' ?. apply elem_of_app. by left. }
  destruct (scan_start _ _ _ _ _ _ Sg Kl I) as (post & Sg' & Kp & <- & Len).
  pose proof (length_row i E1).
  destruct (row i E3) as [|b R] eqn:ER3.
  - eapply scan_le_seg; [done..|by left|lia].
  - eapply scan_le_seg; [done..| |lia]. right.
    assert (b ∈ row i E3) as (e & Ie & Le)%elem_of_row by (rewrite ER3; by left).
    exists (ekey e). split.
    + apply (shape_tower _ _ _ _ Sh e i b); [|done]. apply elem_of_app. right. by apply Sub.
    + unfold after in Af. rewrite Forall_forall in Af. by apply Af.
Qed.

(** Below the node a scan stops at lies a node the next scan may start from. *)
Lemma stop_down h ls rs E E1 i sl' sl c :
  Shape h ls rs E → (∀ e, e ∈ E1 → e ∈ E) →
  ls !! S i = Some sl' → ls !! i = Some sl →
  last (sl' :: row (S i) E1) = Some c →
  ∃ nd d, h !! c = Some nd ∧ down nd = Some d ∧ d ∈ sl :: row i E1.
Proof.
  intros Sh Sub Ll' Ll La.
  apply last_Some_elem_of in La. apply elem_of_cons in La as [->|(e & Ie & Le)%elem_of_row].
  - destruct (shape_left _ _ _ _ Sh _ _ Ll') as (_ & (nd & Hn & D)%fld_Some & _).
    exists nd, sl. split; [done|]. split; [by rewrite D|by left].
  - destruct (shape_tower _ _ _ _ Sh e _ c (Sub e Ie) Le) as (_ & _ & (nd & Hn & D)%fld_Some).
    simpl in D.
    destruct (etower e !! i) as [d|] eqn:Ld.
    + exists nd, d. split; [done|]. split; [done|]. right. apply elem_of_row. by exists e.
    + apply lookup_ge_None in Ld. apply lookup_lt_Some in Le. lia.
Qed.

Lemma left_down h ls rs E i sl' sl :
  Shape h ls rs E → ls !! S i = Some sl' → ls !! i = Some sl →
  ∃ nd, h !! sl' = Some nd ∧ down nd = Some sl.
Proof.
  intros Sh Ll' Ll.
  destruct (shape_left _ _ _ _ Sh _ _ Ll') as (_ & (nd & Hn & D)%fld_Some & _).
  exists nd. split; [done|]. by rewrite D.
Qed.

(** ** The top-down search *)

Section Descent.
Variables (h : list Node) (ls rs : list nat) (k : Key).

(** The strict descent ends at the last node of layer 0 below [k]. *)
Lemma previousKey_for_spec E1 E2 sl0 :
  Shape h ls rs (E1 ++ E2) → before k E1 → not_before k E2 →
  length E1 < length h → ls !! 0 = Some sl0 →
  ∀ n sl c0, ls !! n = Some sl → c0 ∈ sl :: row n E1 →
    previousKey_for (S n) h k (Some c0) = Ret (last (sl0 :: row 0 E1)).
Proof.
  intros Sh Be Nb Fu L0. induction n as [|i IH]; intros sl c0 Ll I.
  - assert (is_Some (rs !! 0)) as [sr Lr].
    { apply lookup_lt_is_Some. rewrite <- (shape_length _ _ _ _ Sh).
      by eapply lookup_lt_Some. }
    assert (sl = sl0) as -> by congruence.
    cbn [previousKey_for]. by rewrite (scan_lt_row _ _ _ _ _ _ _ _ _ _ _ Sh Be Nb Ll Lr I Fu).
  - assert (is_Some (rs !! S i)) as [sr Lr].
    { apply lookup_lt_is_Some. rewrite <- (shape_length _ _ _ _ Sh).
      by eapply lookup_lt_Some. }
    assert (is_Some (ls !! i)) as [sl' Ll'].
    { apply lookup_lt_is_Some. apply lookup_lt_Some in Ll. lia. }
    assert (is_Some (last (sl :: row (S i) E1))) as [c La] by by apply last_is_Some.
    cbn [previousKey_for].
    rewrite (scan_lt_row _ _ _ _ _ _ _ _ _ _ _ Sh Be Nb Ll Lr I Fu), La. cbn [bind].
    assert (Sub : ∀ e, e ∈ E1 → e ∈ E1 ++ E2) by (intros e ?; apply elem_of_app; by left).
    destruct (stop_down _ _ _ _ _ _ _ _ _ Sh Sub Ll Ll' La) as (nd & d & Hn & D & Id).
    rewrite (load_Some _ _ _ Hn). cbn [bind]. rewrite D. by apply IH with sl'.
Qed.

(** [insert] runs the same descent and walks [currentLayer_left] down the
    left sentinels on the side. *)
Lemma insert_for_previousKey_for E :
  Shape h ls rs E →
  ∀ n sl c0, ls !! n = Some sl →
    insert_for (S n) h k c0 (Some sl) = previousKey_for (S n) h k c0.
Proof.
  intros Sh. induction n as [|i IH]; intros sl c0 Ll.
  - simpl. by destruct (scan_lt _ _ _ _).
  - cbn [insert_for previousKey_for].
    destruct (scan_lt _ _ _ _) as [c| | |]; try done. cbn [bind].
    destruct (load h c) as [nd| | |]; try done. cbn [bind].
    assert (is_Some (ls !! i)) as [sl' Ll'].
    { apply lookup_lt_is_Some. apply lookup_lt_Some in Ll. lia. }
    destruct (left_down _ _ _ _ _ _ _ Sh Ll Ll') as (ndl & Hl & Dl).
    rewrite (load_Some _ _ _ Hl). cbn [bind]. rewrite Dl. by apply IH.
Qed.

(** When the key is absent the inclusive descent meets it on no layer. *)
Lemma locate_absent E1 E3 sl0 :
  Shape h ls rs (E1 ++ E3) → before k E1 → after k E3 →
  length E1 < length h → ls !! 0 = Some sl0 →
  ∀ n sl c0, ls !! n = Some sl → c0 ∈ sl :: row n E1 →
    locate (S n) h k (Some c0) = Ret (last (sl0 :: row 0 E1), None).
Proof.
  intros Sh Be Af Fu L0. induction n as [|i IH]; intros sl c0 Ll I.
  - assert (is_Some (rs !! 0)) as [sr Lr].
    { apply lookup_lt_is_Some. rewrite <- (shape_length _ _ _ _ Sh).
      by eapply lookup_lt_Some. }
    assert (sl = sl0) as -> by congruence.
    cbn [locate].
    by rewrite (scan_le_row_miss _ _ _ _ _ E3 _ _ _ _ _ _ Sh Be Af eq_refl (λ e I, I) Ll Lr I Fu).
  - assert (is_Some (rs !! S i)) as [sr Lr].
    { apply lookup_lt_is_Some. rewrite <- (shape_length _ _ _ _ Sh).
      by eapply lookup_lt_Some. }
    assert (is_Some (ls !! i)) as [sl' Ll'].
    { apply lookup_lt_is_Some. apply lookup_lt_Some in Ll. lia. }
    assert (is_Some (last (sl :: row (S i) E1))) as [c La] by by apply last_is_Some.
    cbn [locate].
    rewrite (scan_le_row_miss _ _ _ _ _ E3 _ _ _ _ _ _ Sh Be Af eq_refl (λ e I, I) Ll Lr I Fu), La.
    cbn [bind].
    assert (Sub : ∀ e, e ∈ E1 → e ∈ E1 ++ E3) by (intros e ?; apply elem_of_app; by left).
    destruct (stop_down _ _ _ _ _ _ _ _ _ Sh Sub Ll Ll' La) as (nd & d & Hn & D & Id).
    rewrite (load_Some _ _ _ Hn). cbn [bind]. rewrite D. by apply IH with sl'.
Qed.

(** When the key is present the descent meets it on the top layer of its
    tower, standing on the last node of that layer below the key. *)
Lemma locate_present E1 e E3 t slt :
  Shape h ls rs (E1 ++ e :: E3) → before k E1 → ekey e = k → after k E3 →
  length (etower e) = S t → length E1 < length h → ls !! t = Some slt →
  ∀ n sl c0, t ≤ n → ls !! n = Some sl → c0 ∈ sl :: row n E1 →
    locate (S n) h k (Some c0) = Ret (last (slt :: row t E1), Some t).
Proof.
  intros Sh Be Ek Af Ht Fu Lt. induction n as [|i IH]; intros sl c0 Le Ll I.
  - assert (t = 0) as -> by lia.
    assert (is_Some (rs !! 0)) as [sr Lr].
    { apply lookup_lt_is_Some. rewrite <- (shape_length _ _ _ _ Sh).
      by eapply lookup_lt_Some. }
    assert (is_Some (etower e !! 0)) as [b Lb] by (apply lookup_lt_is_Some; lia).
    assert (sl = slt) as -> by congruence.
    cbn [locate].
    by rewrite (scan_le_row_found _ _ _ _ _ _ _ _ _ _ _ _ _ Sh Be Ek Lb Ll Lr I Fu).
  - assert (is_Some (rs !! S i)) as [sr Lr].
    { apply lookup_lt_is_Some. rewrite <- (shape_length _ _ _ _ Sh).
      by eapply lookup_lt_Some. }
    destruct (decide (t = S i)) as [->|Ne].
    + assert (is_Some (etower e !! S i)) as [b Lb] by (apply lookup_lt_is_Some; lia).
      assert (sl = slt) as -> by congruence.
      cbn [locate].
      by rewrite (scan_le_row_found _ _ _ _ _ _ _ _ _ _ _ _ _ Sh Be Ek Lb Ll Lr I Fu).
    + assert (is_Some (ls !! i)) as [sl' Ll'].
      { apply lookup_lt_is_Some. apply lookup_lt_Some in Ll. lia. }
      assert (is_Some (last (sl :: row (S i) E1))) as [c La] by by apply last_is_Some.
      assert (ER : row (S i) (e :: E3) = row (S i) E3).
      { apply row_cons_None, lookup_ge_None. lia. }
      assert (Sub3 : ∀ e', e' ∈ E3 → e' ∈ e :: E3) by (intros e' ?; by right).
      cbn [locate].
      rewrite (scan_le_row_miss _ _ _ _ _ E3 _ _ _ _ _ _ Sh Be Af ER Sub3 Ll Lr I Fu), La.
      cbn [bind].
      assert (Sub : ∀ e', e' ∈ E1 → e' ∈ E1 ++ e :: E3)
        by (intros e' ?; apply elem_of_app; by left).
      destruct (stop_down _ _ _ _ _ _ _ _ _ Sh Sub Ll Ll' La) as (nd & d & Hn & D & Id).
      rewrite (load_Some _ _ _ Hn). cbn [bind]. rewrite D. apply IH with sl'; [lia|done..].
Qed.

End Descent.

(** Each inclusive search loop is the skeleton followed by its own
    conclusion. *)
Lemma height_for_locate n h k c :
  height_for n h k c =
    let* r := locate n h k c in
    Ret (match r.2 with Some i => wrap32 (Z.of_nat i + 1) | None => 0%Z end).
Proof.
  revert c. induction n as [|i IH]; intros c; [done|].
  cbn [height_for locate].
  destruct (scan_le _ _ _ _) as [[c' [|]]| | |]; try done. cbn [bind].
  destruct i as [|i]; [apply IH|].
  destruct (load h c') as [nd| | |]; try done. apply IH.
Qed.

Lemma exists_for_locate n h k c :
  exists_for n h k c =
    let* r := locate n h k c in
    Ret (r.1, match r.2 with Some _ => true | None => false end).
Proof.
  revert c. induction n as [|i IH]; intros c; [done|].
  cbn [exists_for locate].
  destruct (scan_le _ _ _ _) as [[c' [|]]| | |]; try done. cbn [bind].
  destruct i as [|i]; [apply IH|].
  destruct (load h c') as [nd| | |]; try done. apply IH.
Qed.

Lemma find_for_locate h ls rs E k :
  Shape h ls rs E →
  ∀ n sl c, ls !! n = Some sl →
    find_for (S n) h k c (Some sl) =
      let* r := locate (S n) h k c in
      match r.2 with
      | Some _ =>
          let* c := load h r.1 in
          let* nx := load h (next c) in
          Ret (Some (value nx))
      | None => Ret None
      end.
Proof.
  intros Sh. induction n as [|i IH]; intros sl c Ll.
  - cbn [find_for locate]. by destruct (scan_le _ _ _ _) as [[c' [|]]| | |].
  - cbn [find_for locate].
    destruct (scan_le _ _ _ _) as [[c' [|]]| | |]; try done. cbn [bind].
    destruct (load h c') as [nd| | |]; try done. cbn [bind].
    assert (is_Some (ls !! i)) as [sl' Ll'].
    { apply lookup_lt_is_Some. apply lookup_lt_Some in Ll. lia. }
    destruct (left_down _ _ _ _ _ _ _ Sh Ll Ll') as (ndl & Hl & Dl).
    rewrite (load_Some _ _ _ Hl). cbn [bind]. rewrite Dl. by apply IH.
Qed.

Lemma nextKey_for_locate h ls rs E k :
  Shape h ls rs E →
  ∀ n sl c, ls !! n = Some sl →
    nextKey_for (S n) h k c (Some sl) =
      let* r := locate (S n) h k c in
      match r.2 with
      | Some i =>
          let* c := load h r.1 in
          let* cur := descend i h (next c) in
          let* c := load h cur in
          let* nx := load h (next c) in
          Ret (inl (key nx))
      | None => Ret (inr r.1)
      end.
Proof.
  intros Sh. induction n as [|i IH]; intros sl c Ll.
  - cbn [nextKey_for locate]. by destruct (scan_le _ _ _ _) as [[c' [|]]| | |].
  - cbn [nextKey_for locate].
    destruct (scan_le _ _ _ _) as [[c' [|]]| | |]; try done. cbn [bind].
    destruct (load h c') as [nd| | |]; try done. cbn [bind].
    assert (is_Some (ls !! i)) as [sl' Ll'].
    { apply lookup_lt_is_Some. apply lookup_lt_Some in Ll. lia. }
    destruct (left_down _ _ _ _ _ _ _ Sh Ll Ll') as (ndl & Hl & Dl).
    rewrite (load_Some _ _ _ Hl). cbn [bind]. rewrite Dl. by apply IH.
Qed.

(** ** The invariant of the engine *)

Lemma wrap32_small z : (0 ≤ z < 2 ^ 32)%Z → wrap32 z = z.
Proof. intros B. unfold wrap32. by apply Z.mod_small. Qed.

Lemma wrap64_small z : (0 ≤ z < 2 ^ 64)%Z → wrap64 z = z.
Proof. intros B. unfold wrap64. by apply Z.mod_small. Qed.

Lemma wrap64_range z : (0 ≤ wrap64 z < 2 ^ 64)%Z.
Proof. unfold wrap64. by apply Z.mod_pos_bound. Qed.

Lemma wrap64_succ z : wrap64 (wrap64 z + 1) = wrap64 (z + 1).
Proof. unfold wrap64. by rewrite Zplus_mod_idemp_l. Qed.

Lemma layer_cap_range z : (16 < z < 2 ^ 64)%Z → (13 ≤ layer_cap z ≤ 193)%Z.
Proof.
  intros [Lo Hi]. unfold layer_cap.
  assert (5 ≤ Z.log2_up z)%Z.
  { change 5%Z with (Z.log2_up 17). apply Z.log2_up_le_mono. lia. }
  assert (Z.log2_up z ≤ 64)%Z.
  { change 64%Z with (Z.log2_up (2 ^ 64)). apply Z.log2_up_le_mono. lia. }
  rewrite wrap32_small; lia.
Qed.

Lemma layer_iterations_Inv s ls rs E : Inv s ls rs E → layer_iterations s = length ls.
Proof.
  intros I. unfold layer_iterations. rewrite (inv_layer_num _ _ _ _ I).
  pose proof (inv_layers _ _ _ _ I).
  rewrite wrap32_small by lia. unfold int_of_unsigned.
  destruct (Z.ltb_spec (Z.of_nat (length ls) - 1) (2 ^ 31)); lia.
Qed.

Lemma Inv_top s ls rs E :
  Inv s ls rs E →
  ∃ tl tr, top_left s = Some tl ∧ top_right s = Some tr ∧
           ls !! pred (length ls) = Some tl ∧ rs !! pred (length ls) = Some tr.
Proof.
  intros I. pose proof (inv_layers _ _ _ _ I).
  pose proof (shape_length _ _ _ _ (inv_shape _ _ _ _ I)) as Len.
  rewrite (inv_top_left _ _ _ _ I), (inv_top_right _ _ _ _ I), !last_lookup, <- Len.
  destruct (lookup_lt_is_Some_2 ls (pred (length ls))) as [tl Ll]; [lia|].
  destruct (lookup_lt_is_Some_2 rs (pred (length ls))) as [tr Lr]; [lia|].
  by exists tl, tr.
Qed.

(** ** One run of the promotion loop *)

Lemma grow_keys E1 e E2 n :
  ekey <$> (E1 ++ grow e n :: E2) = ekey <$> (E1 ++ e :: E2).
Proof. by rewrite !fmap_app. Qed.

Lemma after_self_not_before k e E2 : ekey e = k → after k E2 → not_before k (e :: E2).
Proof.
  intros <- Af. apply Forall_cons. split; [apply key_ltb_irrefl|by apply after_not_before].
Qed.

(** The first half of the body: the new node is linked into its layer
    and on top of the tower. *)
Lemma promote_link h ls rs E1 e E2 k sl sr :
  Shape h ls rs (E1 ++ e :: E2) → before k E1 → after k E2 → ekey e = k →
  1 ≤ length (etower e) →
  ls !! length (etower e) = Some sl → rs !! length (etower e) = Some sr →
  length E1 < length h →
  ∃ c ndc b ndb,
    scan_lt (length h) h k (Some sl) = Ret (Some c) ∧
    h !! c = Some ndc ∧
    below (etower e) (length (etower e)) = Some b ∧
    (<[c := set_next (Some (length h)) ndc]>
       (h ++ [mkNode (ekey e) (evalue e) (next ndc)
                (below (etower e) (length (etower e))) None])) !! b = Some ndb ∧
    Shape (<[b := set_up (Some (length h)) ndb]>
            (<[c := set_next (Some (length h)) ndc]>
              (h ++ [mkNode (ekey e) (evalue e) (next ndc)
                       (below (etower e) (length (etower e))) None])))
          ls rs (E1 ++ grow e (length h) :: E2).
Proof.
  intros Sh Be Af Ek T1 Ll Lr Fu.
  pose proof (after_self_not_before _ _ _ Ek Af) as Nb.
  assert (I0 : sl ∈ sl :: row (length (etower e)) E1) by by left.
  pose proof (scan_lt_row _ _ _ _ _ _ _ _ _ _ _ Sh Be Nb Ll Lr I0 Fu) as Sc.
  assert (is_Some (last (sl :: row (length (etower e)) E1))) as [c La]
    by by apply last_is_Some.
  rewrite La in Sc.
  assert (Oc : on_layer ls rs (E1 ++ e :: E2) (length (etower e)) c).
  { apply last_Some_elem_of in La. apply elem_of_cons in La as [->|Ic]; [by left|].
    right. right. rewrite row_app. apply elem_of_app. by left. }
  destruct (lookup_lt_is_Some_2 h c) as [ndc Hc].
  { eapply Shape_valid; [done|]. by eapply on_layer_elem. }
  pose proof (Shape_extend _ _ _ _ _ _ _ _ _ Sh Ll La Hc) as Sh2.
  destruct (length (etower e)) as [|t'] eqn:Et; [lia|].
  destruct (lookup_lt_is_Some_2 (etower e) t') as [b Lb]; [lia|].
  assert (Ib : b ∈ towers (E1 ++ grow e (length h) :: E2)).
  { apply elem_of_towers. exists (grow e (length h)). split.
    - apply elem_of_app. right. by left.
    - simpl. apply elem_of_app. left. by eapply list_elem_of_lookup_2. }
  remember (<[c := set_next (Some (length h)) ndc]>
       (h ++ [mkNode (ekey e) (evalue e) (next ndc) (below (etower e) (S t')) None]))
    as h2 eqn:Eh2.
  destruct (lookup_lt_is_Some_2 h2 b) as [ndb Hb].
  { eapply Shape_valid; [done|]. apply elem_of_app. right. apply elem_of_app. by right. }
  exists c, ndc, b, ndb. rewrite <- Eh2.
  split; [done|]. split; [done|]. split; [done|]. split; [done|].
  apply (Shape_frame h2); [done|intros a _; by apply (fld_insert_same _ _ _ _ ndb)..|].
  intros a Ia. apply fld_insert_ne. intros <-.
  pose proof (shape_nodup _ _ _ _ Sh2) as ND. rewrite app_assoc in ND.
  apply NoDup_app in ND as (_ & D & _). by apply (D b).
Qed.

Lemma promote_body_spec k v p ls rs E1 e E2 :
  PInv k v p ls rs E1 e E2 →
  (layer_num (engine p) < max_layer_num (engine p))%Z →
  ∃ p' ls' rs' n,
    promote_body k v p = Ret p' ∧
    PInv k v p' ls' rs' E1 (grow e n) E2 ∧
    max_layer_num (engine p') = max_layer_num (engine p) ∧
    listSize (engine p') = listSize (engine p) ∧
    layer_num (engine p') =
      (if decide (S (length (etower e)) = length ls)
       then layer_num (engine p) + 1 else layer_num (engine p))%Z.
Proof.
  intros [I Ek Ev Be Af Pf Pl Pr Pb] Lt.
  destruct p as [s pf cul cur bel]. simpl in *.
  pose proof (inv_shape _ _ _ _ I) as Sh.
  pose proof (inv_layers _ _ _ _ I) as HL.
  pose proof (inv_fuel _ _ _ _ I) as Fu.
  pose proof (inv_layer_num _ _ _ _ I) as HLn.
  pose proof (inv_max _ _ _ _ I) as HM.
  pose proof (shape_length _ _ _ _ Sh) as Len.
  destruct (inv_towers _ _ _ _ I e) as [T1 T2].
  { apply elem_of_app. right. by left. }
  destruct (lookup_lt_is_Some_2 ls (length (etower e))) as [sl Ll]; [lia|].
  destruct (lookup_lt_is_Some_2 rs (length (etower e))) as [sr Lr]; [lia|].
  rewrite Ll in Pl. rewrite Lr in Pr. subst cul cur bel pf.
  assert (FuE : length E1 < length (heap s)).
  { rewrite length_app in Fu. simpl in Fu. lia. }
  destruct (promote_link _ _ _ _ _ _ _ _ _ Sh Be Af Ek T1 Ll Lr FuE)
    as (c & ndc & b & ndb & Sc & Hc & Eb & Hb & Sh3).
  assert (Hc' : ∀ nd, (heap s ++ [nd]) !! c = Some ndc).
  { intros nd. rewrite lookup_app_l; [done|by eapply lookup_lt_Some]. }
  subst k v.
  unfold promote_body, alloc.
  cbn [engine previousFlip current_up_layer_left current_up_layer_right below_element].
  rewrite Sc. cbn [bind]. rewrite (load_Some _ _ _ Hc). cbn [bind].
  rewrite (store_Some _ _ _ _ (Hc' _)). cbn [bind].
  rewrite Eb in *. rewrite (store_Some _ _ _ _ Hb). cbn [bind].
  remember (<[b := set_up (Some (length (heap s))) ndb]>
             (<[c := set_next (Some (length (heap s))) ndc]>
               (heap s ++ [mkNode (ekey e) (evalue e) (next ndc) (Some b) None])))
    as h3 eqn:Eh3.
  assert (Lh3 : length h3 = S (length (heap s))).
  { subst h3. rewrite !length_insert, length_app. simpl. lia. }
  rewrite HLn. rewrite !wrap32_small by lia.
  assert (Keys : ekey <$> E1 ++ grow e (length (heap s)) :: E2 = ekey <$> E1 ++ e :: E2)
    by apply grow_keys.
  assert (Tw : ∀ e', e' ∈ E1 ++ grow e (length (heap s)) :: E2 →
                1 ≤ length (etower e') ≤ S (length (etower e)) ∨
                1 ≤ length (etower e') < length ls).
  { intros e' [Ie|[->|Ie]%elem_of_cons]%elem_of_app.
    - right. apply (inv_towers _ _ _ _ I). apply elem_of_app. by left.
    - left. simpl. rewrite length_app. simpl. lia.
    - right. apply (inv_towers _ _ _ _ I). apply elem_of_app. right. by right. }
  destruct (Z.eqb_spec (Z.of_nat (length ls) - 1) (Z.of_nat (length (etower e)) - 1 + 1))
    as [Top|NTop].
  - assert (ET : S (length (etower e)) = length ls) by lia.
    assert (Ltl : last ls = Some sl).
    { rewrite last_lookup. replace (pred (length ls)) with (length (etower e)) by lia. done. }
    assert (Ltr : last rs = Some sr).
    { rewrite last_lookup. replace (pred (length rs)) with (length (etower e)) by lia. done. }
    destruct (lookup_lt_is_Some_2 h3 sl) as [ndl Hl].
    { eapply Shape_valid; [done|]. apply elem_of_app. left. by eapply list_elem_of_lookup_2. }
    destruct (lookup_lt_is_Some_2 h3 sr) as [ndr Hr].
    { eapply Shape_valid; [done|]. apply elem_of_app. right. apply elem_of_app. left.
      by eapply list_elem_of_lookup_2. }
    assert (Nlr : sl ≠ sr).
    { intros ->. pose proof (shape_nodup _ _ _ _ Sh) as ND.
      apply NoDup_app in ND as (_ & D & _). apply (D sr).
      - by eapply list_elem_of_lookup_2.
      - apply elem_of_app. left. by eapply list_elem_of_lookup_2. }
    assert (Vl : sl < length h3) by by eapply lookup_lt_Some.
    assert (Vr : sr < length h3) by by eapply lookup_lt_Some.
    pose proof (Shape_new_layer h3 ls rs _ sl sr ndl ndr Sh3 Ltl Ltr) as Sh8.
    specialize (Sh8 ltac:(intros e' Ie; destruct (Tw e' Ie); lia) Hl Hr).
    replace (length (h3 ++ [mkNode key_default value_default None (Some sl) None]))
      with (S (length h3)) by (rewrite length_app; simpl; lia).
    rewrite (inv_top_left _ _ _ _ I), (inv_top_right _ _ _ _ I), Ltl, Ltr.
    rewrite (store_Some _ _ (mkNode key_default value_default None (Some sl) None)).
    2:{ rewrite lookup_app_l by (rewrite length_app; simpl; lia).
        by rewrite list_lookup_middle. }
    cbn [bind].
    rewrite (store_Some _ _ ndl).
    2:{ rewrite list_lookup_insert_ne by lia. rewrite !lookup_app_l; [done|lia|].
        rewrite length_app. simpl. lia. }
    cbn [bind].
    rewrite (store_Some _ _ ndr).
    2:{ rewrite !list_lookup_insert_ne by lia. rewrite !lookup_app_l; [done|lia|].
        rewrite length_app. simpl. lia. }
    cbn [bind heap].
    remember (<[sr:=set_up (Some (S (length h3))) ndr]> _) as h8 eqn:Eh8.
    assert (Lh8 : length h8 = S (S (length h3))).
    { subst h8. rewrite !length_insert, !length_app. simpl. lia. }
    assert (Ll' : (ls ++ [length h3]) !! length (etower e) = Some sl)
      by (rewrite lookup_app_l; [done|lia]).
    assert (Lr' : (rs ++ [S (length h3)]) !! length (etower e) = Some sr)
      by (rewrite lookup_app_l; [done|lia]).
    destruct (shape_left _ _ _ _ Sh8 _ _ Ll') as (_ & _ & (ndl' & Hl' & Ul)%fld_Some).
    destruct (shape_right _ _ _ _ Sh8 _ _ Lr') as (_ & _ & (ndr' & Hr' & Ur)%fld_Some).
    rewrite (load_Some _ _ _ Hl'), (load_Some _ _ _ Hr'). cbn [bind].
    eexists _, (ls ++ [length h3]), (rs ++ [S (length h3)]), (length (heap s)).
    split; [done|]. cbn [engine max_layer_num listSize layer_num].
    rewrite decide_True by done.
    split; [|by rewrite ?wrap32_small by lia].
    split; cbn [engine previousFlip current_up_layer_left current_up_layer_right
                below_element]; try done.
    + split; cbn [heap layer_num max_layer_num top_left top_right bot_left bot_right listSize].
      * done.
      * rewrite ?wrap32_small by lia. rewrite length_app. simpl. lia.
      * rewrite length_app. simpl. lia.
      * done.
      * by rewrite last_snoc.
      * by rewrite last_snoc.
      * rewrite lookup_app_l by lia. apply I.
      * rewrite lookup_app_l by lia. apply I.
      * rewrite Keys. apply I.
      * intros e' Ie. rewrite length_app. simpl. destruct (Tw e' Ie); lia.
      * rewrite (inv_size _ _ _ _ I). by rewrite !length_app.
      * rewrite !length_app in *. simpl in *. lia.
    + simpl. rewrite length_app. simpl. rewrite ?wrap32_small by lia. lia.
    + simpl. rewrite length_app. simpl. by rewrite Ul, Nat.add_1_r.
    + simpl. rewrite length_app. simpl. by rewrite Ur, Nat.add_1_r.
    + simpl. rewrite length_app. simpl. rewrite Nat.add_1_r. simpl.
      by rewrite list_lookup_middle.
  - assert (ET : S (length (etower e)) ≠ length ls) by lia.
    cbn [bind heap].
    destruct (shape_left _ _ _ _ Sh3 _ _ Ll) as (_ & _ & (ndl' & Hl' & Ul)%fld_Some).
    destruct (shape_right _ _ _ _ Sh3 _ _ Lr) as (_ & _ & (ndr' & Hr' & Ur)%fld_Some).
    rewrite (load_Some _ _ _ Hl'), (load_Some _ _ _ Hr'). cbn [bind].
    eexists _, ls, rs, (length (heap s)).
    split; [done|]. cbn [engine max_layer_num listSize layer_num].
    rewrite decide_False by done.
    split; [|done].
    split; cbn [engine previousFlip current_up_layer_left current_up_layer_right
                below_element]; try done.
    + split; cbn [heap layer_num max_layer_num top_left top_right bot_left bot_right listSize];
        try apply I; try done.
      * rewrite Keys. apply I.
      * intros e' Ie. destruct (Tw e' Ie); lia.
      * rewrite (inv_size _ _ _ _ I). by rewrite !length_app.
      * rewrite !length_app in *. simpl in *. lia.
    + simpl. rewrite length_app. simpl. rewrite ?wrap32_small by lia. lia.
    + simpl. rewrite length_app. simpl. by rewrite Ul, Nat.add_1_r.
    + simpl. rewrite length_app. simpl. by rewrite Ur, Nat.add_1_r.
    + simpl. rewrite length_app. simpl. rewrite Nat.add_1_r. simpl.
      by rewrite list_lookup_middle.
Qed.

(** ** The promotion loop *)

Lemma promote_while_spec k v : ∀ fuel p ls rs E1 e E2,
  PInv k v p ls rs E1 e E2 →
  (max_layer_num (engine p) - Z.of_nat (length (etower e)) ≤ Z.of_nat fuel)%Z →
  1 ≤ fuel →
  ∃ s' ls' rs' e',
    promote_while fuel k v p = Ret s' ∧
    Inv s' ls' rs' (E1 ++ e' :: E2) ∧
    ekey e' = k ∧ evalue e' = v ∧
    length (etower e') =
      length (etower e) +
      (if (layer_num (engine p) <? max_layer_num (engine p))%Z
       then streak_from k (Z.of_nat (length (etower e)) - 1)
              (Z.to_nat (max_layer_num (engine p) - 1 - Z.of_nat (length (etower e))))
       else 0) ∧
    max_layer_num s' = max_layer_num (engine p) ∧
    listSize s' = listSize (engine p) ∧
    layer_num s' = Z.max (layer_num (engine p)) (Z.of_nat (length (etower e')) + 1).
Proof.
  induction fuel as [|fuel IH]; intros p ls rs E1 e E2 P Fu F1; [lia|].
  pose proof (pinv_inv _ _ _ _ _ _ _ _ P) as I.
  pose proof (inv_layer_num _ _ _ _ I) as HLn.
  pose proof (inv_max _ _ _ _ I) as HM.
  destruct (inv_towers _ _ _ _ I e) as [T1 T2].
  { apply elem_of_app. right. by left. }
  cbn [promote_while]. rewrite (pinv_flip _ _ _ _ _ _ _ _ P).
  destruct (Z.ltb_spec (layer_num (engine p)) (max_layer_num (engine p))) as [Lt|Ge].
  - remember (Z.to_nat (max_layer_num (engine p) - 1 - Z.of_nat (length (etower e)))) as m
      eqn:Em.
    destruct m as [|m]; [lia|]. cbn [streak_from].
    destruct (flipCoin k (Z.of_nat (length (etower e)) - 1)) eqn:Flip; cbn [andb].
    + destruct (promote_body_spec _ _ _ _ _ _ _ _ P Lt)
        as (p' & ls' & rs' & n & Eq & P' & M' & S' & L').
      rewrite Eq. cbn [bind].
      destruct (IH p' ls' rs' E1 (grow e n) E2 P') as
        (s' & ls'' & rs'' & e' & Eq' & I' & K' & V' & T' & M'' & S'' & L''); [| |].
      * rewrite M'. simpl. rewrite length_app. simpl. lia.
      * lia.
      * exists s', ls'', rs'', e'. split; [done|]. split; [done|].
        split; [done|]. split; [done|].
        rewrite M' in *. rewrite S' in *.
        assert (Hg : length (etower (grow e n)) = S (length (etower e))).
        { simpl. rewrite length_app. simpl. lia. }
        rewrite Hg in T'.
        assert (Hs : (if (layer_num (engine p') <? max_layer_num (engine p))%Z
                      then streak_from k (Z.of_nat (S (length (etower e))) - 1)
                             (Z.to_nat (max_layer_num (engine p) - 1
                                        - Z.of_nat (S (length (etower e)))))
                      else 0)
                     = streak_from k (Z.of_nat (length (etower e)) - 1 + 1) m).
        { replace (Z.of_nat (S (length (etower e))) - 1)%Z
            with (Z.of_nat (length (etower e)) - 1 + 1)%Z by lia.
          replace (Z.to_nat (max_layer_num (engine p) - 1 - Z.of_nat (S (length (etower e)))))
            with m by lia.
          destruct (Z.ltb_spec (layer_num (engine p')) (max_layer_num (engine p)));
            [done|].
          rewrite L' in *. destruct (decide _); [|lia].
          assert (m = 0) as -> by lia. done. }
        rewrite Hs in T'.
        split; [lia|]. split; [done|]. split; [done|].
        rewrite L'', L'. destruct (decide _); lia.
    + exists (engine p), ls, rs, e. split; [done|]. split; [done|].
      split; [apply P|]. split; [apply P|]. split; [lia|]. split; [done|]. split; [done|].
      lia.
  - rewrite andb_false_r.
    exists (engine p), ls, rs, e. split; [done|]. split; [done|].
    split; [apply P|]. split; [apply P|]. split; [lia|]. split; [done|]. split; [done|].
    lia.
Qed.

(** ** Where a key sits among sorted entries *)

Lemma sorted_locate E k :
  StronglySorted key_lt (ekey <$> E) →
  ∃ E1 E3, before k E1 ∧ after k E3 ∧
           (E = E1 ++ E3 ∨ ∃ e, ekey e = k ∧ E = E1 ++ e :: E3).
Proof.
  induction E as [|e E IH]; intros So.
  - exists [], []. split; [constructor|]. split; [constructor|]. by left.
  - rewrite fmap_cons in So. apply StronglySorted_cons in So as [Fa So].
    assert (Gt : ∀ e', e' ∈ E → key_ltb (ekey e) (ekey e') = true).
    { intros e' Ie. rewrite Forall_forall in Fa. apply Fa. by apply list_elem_of_fmap_2. }
    destruct (key_ltb_total (ekey e) k) as [Lt|[Eq|Gk]].
    + destruct (IH So) as (E1 & E3 & Be & Af & Ca).
      exists (e :: E1), E3. split; [by apply Forall_cons|]. split; [done|].
      destruct Ca as [->|(e' & Ek & ->)]; [by left|]. right. by exists e'.
    + exists [], E. split; [constructor|]. split.
      * apply Forall_forall. intros e' Ie. rewrite <- Eq. by apply Gt.
      * right. by exists e.
    + exists [], (e :: E). split; [constructor|]. split; [|by left].
      apply Forall_cons. split; [done|]. apply Forall_forall. intros e' Ie.
      eapply key_ltb_trans; [done|]. by apply Gt.
Qed.

Lemma sorted_insert E1 e E3 :
  StronglySorted key_lt (ekey <$> E1 ++ E3) → before (ekey e) E1 → after (ekey e) E3 →
  StronglySorted key_lt (ekey <$> E1 ++ e :: E3).
Proof.
  intros So Be Af. rewrite fmap_app in *. rewrite fmap_cons.
  apply StronglySorted_app in So as (Cr & S1 & S3).
  unfold before, after in *. rewrite Forall_forall in Be, Af.
  apply StronglySorted_app. split; [|split; [done|]].
  - intros x1 x2 (e1 & -> & I1)%list_elem_of_fmap [->|I2]%elem_of_cons.
    + by apply Be.
    + by apply Cr; [apply list_elem_of_fmap_2|].
  - apply StronglySorted_cons. split; [|done].
    apply Forall_forall. intros x (e3 & -> & I3)%list_elem_of_fmap. by apply Af.
Qed.

(** A key occurs once among sorted entries. *)
Lemma sorted_key_unique E e1 e2 :
  StronglySorted key_lt (ekey <$> E) → e1 ∈ E → e2 ∈ E → ekey e1 = ekey e2 → e1 = e2.
Proof.
  induction E as [|e E IH]; intros So I1 I2 Ek; [by apply elem_of_nil in I1|].
  rewrite fmap_cons in So. apply StronglySorted_cons in So as [Fa So].
  assert (Gt : ∀ e', e' ∈ E → key_ltb (ekey e) (ekey e') = true).
  { intros e' Ie. rewrite Forall_forall in Fa. apply Fa. by apply list_elem_of_fmap_2. }
  apply elem_of_cons in I1 as [->|I1]; apply elem_of_cons in I2 as [->|I2].
  - done.
  - apply Gt in I2. rewrite Ek, key_ltb_irrefl in I2. done.
  - apply Gt in I1. rewrite Ek, key_ltb_irrefl in I1. done.
  - by apply IH.
Qed.

Lemma before_after_absent k E1 E3 e : before k E1 → after k E3 → e ∈ E1 ++ E3 → ekey e ≠ k.
Proof.
  unfold before, after. rewrite !Forall_forall. intros Be Af [I|I]%elem_of_app Ek.
  - apply Be in I. by rewrite Ek, key_ltb_irrefl in I.
  - apply Af in I. by rewrite Ek, key_ltb_irrefl in I.
Qed.

(** ** insert *)

(** A key that is present is refused and the engine is left as it is. *)
Lemma insert_present s ls rs E e v :
  Inv s ls rs E → e ∈ E → insert s (ekey e) v = Ret (false, s).
Proof.
  intros I Ie.
  pose proof (inv_shape _ _ _ _ I) as Sh.
  pose proof (inv_layers _ _ _ _ I) as HL.
  pose proof (inv_fuel _ _ _ _ I) as Fu.
  pose proof (shape_length _ _ _ _ Sh) as Len.
  destruct (sorted_locate E (ekey e) (inv_sorted _ _ _ _ I))
    as (E1 & E3 & Be & Af & [->|(e' & Ek & ->)]).
  { by destruct (before_after_absent _ _ _ _ Be Af Ie). }
  assert (e' = e) as ->.
  { apply (sorted_key_unique _ _ _ (inv_sorted _ _ _ _ I)); [|done..].
    apply elem_of_app. right. by left. }
  destruct (Inv_top _ _ _ _ I) as (tl & tr & Tl & Tr & Ltl & Ltr).
  destruct (lookup_lt_is_Some_2 ls 0) as [sl0 L0]; [lia|].
  destruct (lookup_lt_is_Some_2 rs 0) as [sr0 R0]; [lia|].
  destruct (inv_towers _ _ _ _ I e Ie) as [T1 T2].
  destruct (lookup_lt_is_Some_2 (etower e) 0) as [b Lb]; [lia|].
  assert (FuE : length E1 < length (heap s)).
  { rewrite length_app in Fu. simpl in Fu. lia. }
  pose proof (after_self_not_before _ _ _ eq_refl Af) as Nb.
  unfold insert. rewrite (layer_iterations_Inv _ _ _ _ I), Tl.
  destruct (length ls) as [|n] eqn:EL; [lia|]. simpl in Ltl.
  rewrite (insert_for_previousKey_for _ _ _ _ _ Sh _ _ _ Ltl).
  rewrite (previousKey_for_spec _ _ _ _ _ _ _ Sh Be Nb FuE L0 _ _ _ Ltl) by by left.
  assert (is_Some (last (sl0 :: row 0 E1))) as [c La] by by apply last_is_Some.
  rewrite La. cbn [bind].
  pose proof (shape_chain _ _ _ _ Sh _ _ _ L0 R0) as Ch.
  rewrite row_app, (row_cons_Some _ _ _ _ Lb), <- app_assoc in Ch.
  apply lseg_app in Ch as [Ch1 Ch2].
  pose proof (lseg_last_next _ _ _ _ _ Ch1 La) as (ndc & Hc & Nc)%fld_Some.
  rewrite (load_Some _ _ _ Hc). cbn [bind]. rewrite Nc.
  assert (∃ nb y, heap s !! b = Some nb ∧ next nb = Some y) as (nb & y & Hb & Nb').
  { destruct (row 0 E3); destruct (lseg_cons_load _ _ _ _ _ Ch2) as (nb & Hb & Nb');
      by eexists _, _. }
  rewrite (load_Some _ _ _ Hb). cbn [bind]. rewrite Nb'. cbn [is_null negb andb].
  destruct (shape_tower _ _ _ _ Sh e 0 b Ie Lb) as ((nb' & Hb' & Kb)%fld_Some & _).
  assert (nb' = nb) as -> by congruence.
  by rewrite Kb, key_eqb_refl.
Qed.

(** A key that is absent gets its node on layer 0, between the keys below
    and the keys above it, and its promotions. *)
Lemma insert_absent s ls rs E1 E3 k v :
  Inv s ls rs (E1 ++ E3) → before k E1 → after k E3 →
  ∃ s' ls' rs' e,
    insert s k v = Ret (true, s') ∧
    Inv s' ls' rs' (E1 ++ e :: E3) ∧
    ekey e = k ∧ evalue e = v ∧
    length (etower e) = tower_height s k ∧
    max_layer_num s' = cap_after s ∧
    layer_num s' = Z.max (layer_num s) (Z.of_nat (length (etower e)) + 1) ∧
    listSize s' = wrap64 (listSize s + 1).
Proof.
  intros I Be Af.
  pose proof (inv_shape _ _ _ _ I) as Sh.
  pose proof (inv_layers _ _ _ _ I) as HL.
  pose proof (inv_fuel _ _ _ _ I) as Fu.
  pose proof (inv_max _ _ _ _ I) as HM.
  pose proof (shape_length _ _ _ _ Sh) as Len.
  destruct (Inv_top _ _ _ _ I) as (tl & tr & Tl & Tr & Ltl & Ltr).
  destruct (lookup_lt_is_Some_2 ls 0) as [sl0 L0]; [lia|].
  destruct (lookup_lt_is_Some_2 rs 0) as [sr0 R0]; [lia|].
  destruct (lookup_lt_is_Some_2 ls 1) as [sl1 L1]; [lia|].
  destruct (lookup_lt_is_Some_2 rs 1) as [sr1 R1]; [lia|].
  assert (FuE : length E1 < length (heap s)).
  { rewrite length_app in Fu. lia. }
  pose proof (after_not_before _ _ Af) as Nb.
  unfold insert. rewrite (layer_iterations_Inv _ _ _ _ I), Tl.
  destruct (length ls) as [|n] eqn:EL; [lia|]. simpl in Ltl, Ltr.
  rewrite (insert_for_previousKey_for _ _ _ _ _ Sh _ _ _ Ltl).
  rewrite (previousKey_for_spec _ _ _ _ _ _ _ Sh Be Nb FuE L0 _ _ _ Ltl) by by left.
  assert (is_Some (last (sl0 :: row 0 E1))) as [c La] by by apply last_is_Some.
  rewrite La. cbn [bind].
  pose proof (shape_chain _ _ _ _ Sh _ _ _ L0 R0) as Ch.
  rewrite row_app, <- app_assoc in Ch.
  (* the node behind [c] is the right sentinel or carries a larger key *)
  assert (∃ ndc b nb, heap s !! c = Some ndc ∧ next ndc = Some b ∧ heap s !! b = Some nb ∧
            (next nb = None ∨ key_eqb (key nb) k = false))
    as (ndc & b & nb & Hc & Nc & Hb & Stop).
  { destruct (row 0 E3) as [|b R] eqn:ER; simpl in Ch.
    - apply lseg_snoc in Ch as [Ch1 (nb & Hb & Nb')%fld_Some].
      pose proof (lseg_last_next _ _ _ _ _ Ch1 La) as (ndc & Hc & Nc)%fld_Some.
      exists ndc, sr0, nb. by eauto.
    - apply lseg_app in Ch as [Ch1 Ch2].
      pose proof (lseg_last_next _ _ _ _ _ Ch1 La) as (ndc & Hc & Nc)%fld_Some.
      assert (b ∈ row 0 E3) as (e & Ie & Le)%elem_of_row by (rewrite ER; by left).
      destruct (shape_tower _ _ _ _ Sh e 0 b) as ((nb & Hb & Kb)%fld_Some & _); [|done|].
      { apply elem_of_app. by right. }
      exists ndc, b, nb. split; [done|]. split; [done|]. split; [done|]. right.
      rewrite Kb. apply key_eqb_neq. intros Ek.
      unfold after in Af. rewrite Forall_forall in Af. apply Af in Ie.
      by rewrite Ek, key_ltb_irrefl in Ie. }
  rewrite (load_Some _ _ _ Hc). cbn [bind]. rewrite Nc, (load_Some _ _ _ Hb). cbn [bind].
  replace (negb (is_null (next nb)) && key_eqb (key nb) k) with false.
  2:{ destruct Stop as [->| ->]; [done|]. by rewrite andb_false_r. }
  unfold alloc.
  assert (Hc' : ∀ nd, (heap s ++ [nd]) !! c = Some ndc).
  { intros nd. rewrite lookup_app_l; [done|by eapply lookup_lt_Some]. }
  rewrite (store_Some _ _ _ _ (Hc' _)). cbn [bind].
  (* the new node on layer 0 *)
  pose proof (Shape_stub _ _ _ _ _ k v Sh) as Sh1.
  pose proof (Shape_extend _ _ _ _ _ _ _ _ _ Sh1 L0 La Hc) as Sh2.
  cbn [ekey evalue etower length below] in Sh2. rewrite Nc in Sh2.
  remember (<[c := set_next (Some (length (heap s))) ndc]>
             (heap s ++ [mkNode k v (Some b) None None])) as h2 eqn:Eh2.
  assert (Lh2 : length h2 = S (length (heap s))).
  { subst h2. rewrite length_insert, length_app. simpl. lia. }
  rewrite (inv_bot_left _ _ _ _ I), (inv_bot_right _ _ _ _ I), L0, R0.
  destruct (shape_left _ _ _ _ Sh2 _ _ L0) as (_ & _ & (bl & Hbl & Ubl)%fld_Some).
  destruct (shape_right _ _ _ _ Sh2 _ _ R0) as (_ & _ & (br & Hbr & Ubr)%fld_Some).
  rewrite (load_Some _ _ _ Hbl), (load_Some _ _ _ Hbr). cbn [bind].
  fold (cap_after s).
  assert (HC : (13 ≤ cap_after s ≤ 193)%Z).
  { unfold cap_after. destruct (Z.ltb_spec 16 (wrap64 (listSize s + 1))); [|done].
    apply layer_cap_range. pose proof (wrap64_range (listSize s + 1)). lia. }
  set (e1 := grow (mkEntry k v []) (length (heap s))) in *.
  set (s1 := mkSkipList h2 (wrap64 (listSize s + 1)) (Some tl) (Some sl0) (top_right s)
               (Some sr0)
               (layer_num s) (cap_after s)).
  assert (P : PInv k v (mkPromotion s1 0 (up bl) (up br) (Some (length (heap s))))
                ls rs E1 e1 E3).
  { split; cbn [engine previousFlip current_up_layer_left current_up_layer_right
                below_element]; try done.
    - split; cbn [s1 heap layer_num max_layer_num top_left top_right bot_left bot_right
                  listSize]; try done.
      + apply I.
      + lia.
      + rewrite last_lookup, EL. simpl. by rewrite Ltl.
      + apply I.
      + apply sorted_insert; [apply I|done..].
      + intros e' [Ie|[->|Ie]%elem_of_cons]%elem_of_app.
        * apply (inv_towers _ _ _ _ I). apply elem_of_app. by left.
        * simpl. lia.
        * apply (inv_towers _ _ _ _ I). apply elem_of_app. by right.
      + rewrite (inv_size _ _ _ _ I), wrap64_succ. f_equal.
        rewrite !length_app. simpl. lia.
      + rewrite !length_app in *. simpl. lia. }
  destruct (promote_while_spec k v (Z.to_nat (cap_after s)) _ _ _ _ _ _ P)
    as (s' & ls' & rs' & e' & Eq & I' & K' & V' & T' & M' & S' & L'); [simpl; lia..|].
  exists s', ls', rs', e'. split; [by rewrite Eq|].
  split; [done|]. split; [done|]. split; [done|].
  cbn [engine s1 layer_num max_layer_num listSize e1 etower grow length app] in T', M', S', L'.
  split; [|done]. rewrite T'. unfold tower_height.
  change (Z.of_nat 1) with 1%Z.
  by replace (cap_after s - 1 - 1)%Z with (cap_after s - 2)%Z by lia.
Qed.

(** ** The constructor *)

Lemma ctor_Inv s : SkipList_ctor = Ret s → Inv s [0; 2] [1; 3] [].
Proof.
  unfold SkipList_ctor. simpl. intros [= <-].
  split; simpl; try done; try lia.
  - split; simpl; try done.
    + intros [|[|i]] a; simpl; intros [= <-]; by vm_compute.
    + intros [|[|i]] a; simpl; intros [= <-]; by vm_compute.
    + intros e j a I. by apply elem_of_nil in I.
    + intros [|[|i]] sl sr; simpl; intros [= <-] [= <-]; by vm_compute.
    + by apply (bool_decide_unpack _).
  - constructor.
  - intros e I. by apply elem_of_nil in I.
Qed.

(** ** Every reachable state satisfies the invariant *)

Lemma insert_Inv s ls rs E k v (ok : bool) s' :
  Inv s ls rs E → insert s k v = Ret (ok, s') →
  ∃ ls' rs' E', Inv s' ls' rs' E' ∧ (∀ e, e ∈ E → e ∈ E').
Proof.
  intros I Eq.
  destruct (sorted_locate E k (inv_sorted _ _ _ _ I))
    as (E1 & E3 & Be & Af & [->|(e & Ek & ->)]).
  - destruct (insert_absent _ _ _ _ _ _ v I Be Af) as (s'' & ls' & rs' & e & Eq' & I' & _).
    rewrite Eq in Eq'. injection Eq' as _ <-.
    exists ls', rs', (E1 ++ e :: E3). split; [done|].
    intros e' [Ie|Ie]%elem_of_app; apply elem_of_app; [by left|]. right. by right.
  - assert (Ie : e ∈ E1 ++ e :: E3) by (apply elem_of_app; right; by left).
    pose proof (insert_present _ _ _ _ _ v I Ie) as Eq'.
    rewrite Ek, Eq in Eq'. injection Eq' as _ ->. by exists ls, rs, (E1 ++ e :: E3).
Qed.

Lemma reachable_Inv s : reachable s → ∃ ls rs E, Inv s ls rs E.
Proof.
  induction 1 as [s Eq|s k v ok s' _ (ls & rs & E & I) Eq].
  - exists [0; 2], [1; 3], []. by apply ctor_Inv.
  - destruct (insert_Inv _ _ _ _ _ _ _ _ I Eq) as (ls' & rs' & E' & I' & _). by eauto.
Qed.

(** ** The queries under the invariant *)

Lemma to_bottom_left h ls rs E : Shape h ls rs E →
  ∀ i sl fuel, ls !! i = Some sl → i < fuel → to_bottom fuel h (Some sl) = Ret (ls !! 0).
Proof.
  intros Sh. induction i as [|i IH]; intros sl fuel Ll Fu.
  - destruct fuel as [|fuel]; [lia|].
    destruct (shape_left _ _ _ _ Sh _ _ Ll) as (_ & (nd & Hn & D)%fld_Some & _).
    simpl in *. by rewrite Hn, Ll; simpl; rewrite D.
  - destruct fuel as [|fuel]; [lia|].
    destruct (shape_left _ _ _ _ Sh _ _ Ll) as (_ & (nd & Hn & D)%fld_Some & _).
    destruct (lookup_lt_is_Some_2 ls i) as [sl' Ll']; [apply lookup_lt_Some in Ll; lia|].
    cbn [to_bottom]. rewrite (load_Some _ _ _ Hn). cbn [bind]. rewrite D. simpl below.
    rewrite Ll'. cbn [is_null]. apply IH; [done|lia].
Qed.

(** From a node of a tower the walk down ends on layer 0 of that tower. *)
Lemma to_bottom_tower h ls rs E e : Shape h ls rs E → e ∈ E →
  ∀ i a fuel, etower e !! i = Some a → i < fuel →
    to_bottom fuel h (Some a) = Ret (etower e !! 0).
Proof.
  intros Sh Ie. induction i as [|i IH]; intros a fuel La Fu.
  - destruct fuel as [|fuel]; [lia|].
    destruct (shape_tower _ _ _ _ Sh _ _ _ Ie La) as (_ & _ & (nd & Hn & D)%fld_Some).
    simpl in *. by rewrite Hn, La; simpl; rewrite D.
  - destruct fuel as [|fuel]; [lia|].
    destruct (shape_tower _ _ _ _ Sh _ _ _ Ie La) as (_ & _ & (nd & Hn & D)%fld_Some).
    destruct (lookup_lt_is_Some_2 (etower e) i) as [a' La'];
      [apply lookup_lt_Some in La; lia|].
    cbn [to_bottom]. rewrite (load_Some _ _ _ Hn). cbn [bind]. rewrite D. simpl below.
    rewrite La'. cbn [is_null]. apply IH; [done|lia].
Qed.

Lemma collect_keys_seg h xs : ∀ p r ks acc fuel,
  lseg h p (xs ++ [r]) None →
  Forall2 (λ x kx, fld key h x = Some kx) xs ks →
  length xs < fuel →
  collect_keys fuel h (head (xs ++ [r])) acc = Ret (acc ++ ks).
Proof.
  induction xs as [|x xs IH]; intros p r ks acc fuel Sg Fk Fu.
  - apply Forall2_nil_inv_l in Fk as ->.
    destruct fuel as [|fuel]; [simpl in Fu; lia|].
    destruct Sg as [_ (nr & Hr & Nr)%fld_Some].
    simpl. rewrite Hr. simpl. rewrite Nr. simpl. by rewrite app_nil_r.
  - apply Forall2_cons_inv_l in Fk as (kx & ks' & (nx & Hx & Kx)%fld_Some & Fk & ->).
    destruct fuel as [|fuel]; [simpl in Fu; lia|].
    destruct Sg as [_ Sg].
    assert (∃ y, next nx = Some y ∧ head (xs ++ [r]) = Some y) as (y & Nx & Hd).
    { destruct xs as [|x' xs]; destruct Sg as [(nx' & Hx' & Nx)%fld_Some _];
        assert (nx' = nx) as -> by congruence; by eexists. }
    cbn [collect_keys app head]. rewrite (load_Some _ _ _ Hx). cbn [bind].
    rewrite Nx. cbn [is_null]. rewrite <- Hd, Kx.
    rewrite (IH x r ks' (acc ++ [kx]) fuel Sg Fk); [|simpl in Fu; lia].
    by rewrite <- app_assoc.
Qed.

Lemma row0_keys h ls rs E E' :
  Shape h ls rs E → (∀ e, e ∈ E' → e ∈ E ∧ 1 ≤ length (etower e)) →
  Forall2 (λ x kx, fld key h x = Some kx) (row 0 E') (ekey <$> E').
Proof.
  intros Sh. induction E' as [|e E' IH]; intros Sub; [constructor|].
  destruct (Sub e) as [Ie Te]; [by left|].
  destruct (lookup_lt_is_Some_2 (etower e) 0) as [a La]; [lia|].
  rewrite (row_cons_Some _ _ _ _ La), fmap_cons. constructor.
  - by apply (shape_tower _ _ _ _ Sh e 0 a Ie La).
  - apply IH. intros e' Ie'. apply Sub. by right.
Qed.

Lemma length_row0 E : (∀ e, e ∈ E → 1 ≤ length (etower e)) → length (row 0 E) = length E.
Proof.
  induction E as [|e E IH]; intros Te; [done|].
  destruct (lookup_lt_is_Some_2 (etower e) 0) as [a La]; [apply Te; by left|].
  rewrite (row_cons_Some _ _ _ _ La). simpl. rewrite IH; [done|].
  intros e' Ie'. apply Te. by right.
Qed.

Lemma allKeysInOrder_Inv s ls rs E : Inv s ls rs E → allKeysInOrder s = Ret (ekey <$> E).
Proof.
  intros I.
  pose proof (inv_shape _ _ _ _ I) as Sh.
  pose proof (inv_layers _ _ _ _ I) as HL.
  pose proof (inv_fuel _ _ _ _ I) as Fu.
  pose proof (shape_length _ _ _ _ Sh) as Len.
  destruct (Inv_top _ _ _ _ I) as (tl & tr & Tl & Tr & Ltl & Ltr).
  destruct (lookup_lt_is_Some_2 ls 0) as [sl0 L0]; [lia|].
  destruct (lookup_lt_is_Some_2 rs 0) as [sr0 R0]; [lia|].
  unfold allKeysInOrder. rewrite Tl.
  rewrite (to_bottom_left _ _ _ _ Sh _ _ _ Ltl) by lia. rewrite L0. cbn [bind].
  pose proof (shape_chain _ _ _ _ Sh _ _ _ L0 R0) as Ch.
  assert (∃ nd, heap s !! sl0 = Some nd ∧ next nd = head (row 0 E ++ [sr0]))
    as (nd & Hn & Nn).
  { destruct (row 0 E); destruct (lseg_cons_load _ _ _ _ _ Ch) as (nd & Hn & Nn);
      by exists nd. }
  rewrite (load_Some _ _ _ Hn). cbn [bind]. rewrite Nn.
  rewrite (collect_keys_seg _ _ sl0 sr0 (ekey <$> E) []); [done|done| |].
  - eapply row0_keys; [done|]. intros e Ie. split; [done|]. by apply (inv_towers _ _ _ _ I).
  - rewrite length_row0; [lia|]. intros e Ie. by apply (inv_towers _ _ _ _ I).
Qed.

(** The search of a key that is present. *)
Lemma locate_Inv_present s ls rs E e :
  Inv s ls rs E → e ∈ E →
  ∃ c ndc b nb t,
    locate (layer_iterations s) (heap s) (ekey e) (top_left s) = Ret (Some c, Some t) ∧
    S t = length (etower e) ∧
    heap s !! c = Some ndc ∧ next ndc = Some b ∧
    etower e !! t = Some b ∧
    heap s !! b = Some nb ∧ key nb = ekey e ∧ value nb = evalue e.
Proof.
  intros I Ie.
  pose proof (inv_shape _ _ _ _ I) as Sh.
  pose proof (inv_layers _ _ _ _ I) as HL.
  pose proof (inv_fuel _ _ _ _ I) as Fu.
  pose proof (shape_length _ _ _ _ Sh) as Len.
  destruct (sorted_locate E (ekey e) (inv_sorted _ _ _ _ I))
    as (E1 & E3 & Be & Af & [->|(e' & Ek & ->)]).
  { by destruct (before_after_absent _ _ _ _ Be Af Ie). }
  assert (e' = e) as ->.
  { apply (sorted_key_unique _ _ _ (inv_sorted _ _ _ _ I)); [|done..].
    apply elem_of_app. right. by left. }
  destruct (Inv_top _ _ _ _ I) as (tl & tr & Tl & Tr & Ltl & Ltr).
  destruct (inv_towers _ _ _ _ I e Ie) as [T1 T2].
  destruct (length (etower e)) as [|t] eqn:Et; [lia|].
  destruct (lookup_lt_is_Some_2 ls t) as [slt Lt]; [lia|].
  destruct (lookup_lt_is_Some_2 rs t) as [srt Rt]; [lia|].
  destruct (lookup_lt_is_Some_2 (etower e) t) as [b Lb]; [lia|].
  assert (FuE : length E1 < length (heap s)).
  { rewrite length_app in Fu. simpl in Fu. lia. }
  rewrite (layer_iterations_Inv _ _ _ _ I), Tl.
  destruct (length ls) as [|n] eqn:EL; [lia|]. simpl in Ltl.
  rewrite (locate_present _ _ _ _ _ _ _ _ _ Sh Be eq_refl Af Et FuE Lt n tl tl);
    [|lia|done|by left].
  assert (is_Some (last (slt :: row t E1))) as [c La] by by apply last_is_Some.
  rewrite La.
  pose proof (shape_chain _ _ _ _ Sh _ _ _ Lt Rt) as Ch.
  rewrite row_app, (row_cons_Some _ _ _ _ Lb), <- app_assoc in Ch.
  apply lseg_app in Ch as [Ch1 Ch2].
  pose proof (lseg_last_next _ _ _ _ _ Ch1 La) as (ndc & Hc & Nc)%fld_Some.
  destruct (shape_tower _ _ _ _ Sh e t b Ie Lb)
    as ((nb & Hb & Kb)%fld_Some & (nb' & Hb' & Vb)%fld_Some & _).
  assert (nb' = nb) as -> by congruence.
  by exists c, ndc, b, nb, t.
Qed.

(** The search of a key that is absent ends on layer 0 without a match. *)
Lemma locate_Inv_absent s ls rs E k :
  Inv s ls rs E → (∀ e, e ∈ E → ekey e ≠ k) →
  ∃ c, locate (layer_iterations s) (heap s) k (top_left s) = Ret (Some c, None).
Proof.
  intros I Ab.
  pose proof (inv_shape _ _ _ _ I) as Sh.
  pose proof (inv_layers _ _ _ _ I) as HL.
  pose proof (inv_fuel _ _ _ _ I) as Fu.
  destruct (sorted_locate E k (inv_sorted _ _ _ _ I))
    as (E1 & E3 & Be & Af & [->|(e' & Ek & ->)]).
  2:{ destruct (Ab e'); [|done]. apply elem_of_app. right. by left. }
  destruct (Inv_top _ _ _ _ I) as (tl & tr & Tl & Tr & Ltl & Ltr).
  destruct (lookup_lt_is_Some_2 ls 0) as [sl0 L0]; [lia|].
  assert (FuE : length E1 < length (heap s)).
  { rewrite length_app in Fu. lia. }
  rewrite (layer_iterations_Inv _ _ _ _ I), Tl.
  destruct (length ls) as [|n] eqn:EL; [lia|]. simpl in Ltl.
  rewrite (locate_absent _ _ _ _ _ _ _ Sh Be Af FuE L0 n tl tl); [|done|by left].
  assert (is_Some (last (sl0 :: row 0 E1))) as [c La] by by apply last_is_Some.
  rewrite La. by exists c.
Qed.

Lemma top_left_layer s ls rs E :
  Inv s ls rs E → ∃ n tl, layer_iterations s = S n ∧ top_left s = Some tl ∧ ls !! n = Some tl.
Proof.
  intros I. pose proof (inv_layers _ _ _ _ I) as HL.
  destruct (Inv_top _ _ _ _ I) as (tl & tr & Tl & Tr & Ltl & Ltr).
  rewrite (layer_iterations_Inv _ _ _ _ I).
  destruct (length ls) as [|n] eqn:EL; [lia|]. by exists n, tl.
Qed.

Lemma find_present s ls rs E e : Inv s ls rs E → e ∈ E → find s (ekey e) = Ret (evalue e).
Proof.
  intros I Ie.
  destruct (locate_Inv_present _ _ _ _ _ I Ie)
    as (c & ndc & b & nb & t & Lo & Et & Hc & Nc & Lb & Hb & Kb & Vb).
  destruct (top_left_layer _ _ _ _ I) as (n & tl & It & Tl & Ltl).
  unfold find. rewrite It, Tl in *.
  rewrite (find_for_locate _ _ _ _ _ (inv_shape _ _ _ _ I) _ _ _ Ltl), Lo.
  cbn [bind snd fst]. rewrite (load_Some _ _ _ Hc). cbn [bind].
  rewrite Nc, (load_Some _ _ _ Hb). cbn [bind]. by rewrite Vb.
Qed.

Lemma find_absent s ls rs E k :
  Inv s ls rs E → (∀ e, e ∈ E → ekey e ≠ k) → find s k = Throw msg_absent_the.
Proof.
  intros I Ab.
  destruct (locate_Inv_absent _ _ _ _ _ I Ab) as (c & Lo).
  destruct (top_left_layer _ _ _ _ I) as (n & tl & It & Tl & Ltl).
  unfold find. rewrite It, Tl in *.
  by rewrite (find_for_locate _ _ _ _ _ (inv_shape _ _ _ _ I) _ _ _ Ltl), Lo.
Qed.

Lemma height_present s ls rs E e :
  Inv s ls rs E → e ∈ E → height s (ekey e) = Ret (Z.of_nat (length (etower e))).
Proof.
  intros I Ie.
  destruct (locate_Inv_present _ _ _ _ _ I Ie)
    as (c & ndc & b & nb & t & Lo & Et & Hc & Nc & Lb & Hb & Kb & Vb).
  pose proof (inv_layers _ _ _ _ I) as HL.
  destruct (inv_towers _ _ _ _ I e Ie) as [T1 T2].
  unfold height. rewrite height_for_locate, Lo. cbn [bind snd].
  rewrite wrap32_small by lia.
  destruct (Z.eqb_spec (Z.of_nat t + 1) 0); [lia|]. f_equal. lia.
Qed.

Lemma height_absent s ls rs E k :
  Inv s ls rs E → (∀ e, e ∈ E → ekey e ≠ k) → height s k = Throw msg_absent_the.
Proof.
  intros I Ab.
  destruct (locate_Inv_absent _ _ _ _ _ I Ab) as (c & Lo).
  unfold height. by rewrite height_for_locate, Lo.
Qed.

(** ** Layer 0 around a position *)

(** The last node of layer 0 that belongs to [E1] (the left sentinel when
    [E1] is empty) and its successor, the first node of [E2] (the right
    sentinel when [E2] is empty). *)
Lemma bottom_view s ls rs E1 E2 :
  Inv s ls rs (E1 ++ E2) →
  ∃ sl0 sr0 c ndc x ndx,
    ls !! 0 = Some sl0 ∧ rs !! 0 = Some sr0 ∧
    last (sl0 :: row 0 E1) = Some c ∧
    heap s !! c = Some ndc ∧ next ndc = Some x ∧ heap s !! x = Some ndx ∧
    key ndc = key_or_default (last E1) ∧ down ndc = None ∧
    key ndx = key_or_default (head E2) ∧
    is_null (next ndx) = (if E2 is [] then true else false) ∧
    Some c ≠ top_left s.
Proof.
  intros I.
  pose proof (inv_shape _ _ _ _ I) as Sh.
  pose proof (inv_layers _ _ _ _ I) as HL.
  pose proof (shape_length _ _ _ _ Sh) as Len.
  destruct (Inv_top _ _ _ _ I) as (tl & tr & Tl & Tr & Ltl & Ltr).
  destruct (lookup_lt_is_Some_2 ls 0) as [sl0 L0]; [lia|].
  destruct (lookup_lt_is_Some_2 rs 0) as [sr0 R0]; [lia|].
  assert (is_Some (last (sl0 :: row 0 E1))) as [c La] by by apply last_is_Some.
  pose proof (shape_chain _ _ _ _ Sh _ _ _ L0 R0) as Ch.
  rewrite row_app, <- app_assoc in Ch.
  assert (Tw : ∀ e, e ∈ E1 ++ E2 → ∃ a, etower e !! 0 = Some a).
  { intros e Ie. apply lookup_lt_is_Some. pose proof (inv_towers _ _ _ _ I e Ie). lia. }
  (* the successor *)
  assert (∃ x ndx, fld next (heap s) c = Some (Some x) ∧ heap s !! x = Some ndx ∧
                   key ndx = key_or_default (head E2) ∧
                   is_null (next ndx) = (if E2 is [] then true else false))
    as (x & ndx & Nc & Hx & Kx & Nx).
  { destruct E2 as [|e2 E2].
    - simpl in Ch. apply lseg_snoc in Ch as [Ch1 (ndx & Hx & Nx)%fld_Some].
      exists sr0, ndx. split; [by eapply lseg_last_next|]. split; [done|].
      destruct (shape_right _ _ _ _ Sh _ _ R0) as ((ndx' & Hx' & Kx)%fld_Some & _).
      assert (ndx' = ndx) as -> by congruence. by rewrite Nx.
    - destruct (Tw e2) as [a2 L2]; [apply elem_of_app; right; by left|].
      rewrite (row_cons_Some _ _ _ _ L2) in Ch. simpl in Ch.
      apply lseg_app in Ch as [Ch1 Ch2].
      assert (∃ ndx y, heap s !! a2 = Some ndx ∧ next ndx = Some y) as (ndx & y & Hx & Nx).
      { destruct (row 0 E2); destruct (lseg_cons_load _ _ _ _ _ Ch2) as (ndx & Hx & Nx);
          by eexists _, _. }
      exists a2, ndx. split; [by eapply lseg_last_next|]. split; [done|].
      destruct (shape_tower _ _ _ _ Sh e2 0 a2) as ((ndx' & Hx' & Kx)%fld_Some & _);
        [apply elem_of_app; right; by left|done|].
      assert (ndx' = ndx) as -> by congruence. by rewrite Nx. }
  apply fld_Some in Nc as (ndc & Hc & Nc).
  (* the node itself *)
  assert (key ndc = key_or_default (last E1) ∧ down ndc = None ∧ on_layer ls rs (E1 ++ E2) 0 c)
    as (Kc & Dc & Oc).
  { destruct E1 as [|p E1 _] using rev_ind.
    - simpl in La. injection La as <-.
      destruct (shape_left _ _ _ _ Sh _ _ L0)
        as ((nd1 & Hd1 & K1)%fld_Some & (nd2 & Hd2 & D2)%fld_Some & _).
      assert (nd1 = ndc) as -> by congruence. assert (nd2 = ndc) as -> by congruence.
      split; [done|]. split; [done|]. by left.
    - destruct (Tw p) as [a La1]; [apply elem_of_app; left; apply elem_of_app; right; by left|].
      rewrite row_app, (row_cons_Some _ _ _ _ La1) in La.
      change (sl0 :: row 0 E1 ++ a :: row 0 []) with ((sl0 :: row 0 E1) ++ [a]) in La.
      rewrite last_snoc in La. injection La as <-.
      assert (Ip : p ∈ (E1 ++ [p]) ++ E2).
      { apply elem_of_app; left; apply elem_of_app; right; by left. }
      destruct (shape_tower _ _ _ _ Sh p 0 a Ip La1)
        as ((nd1 & Hd1 & K1)%fld_Some & _ & (nd2 & Hd2 & D2)%fld_Some).
      assert (nd1 = ndc) as -> by congruence. assert (nd2 = ndc) as -> by congruence.
      split; [by rewrite last_snoc|]. split; [done|].
      right. right. apply elem_of_row. by exists p. }
  exists sl0, sr0, c, ndc, x, ndx. do 10 (split; [done|]).
  rewrite Tl. intros [= ->].
  assert (0 = pred (length ls)); [|lia].
  eapply on_layer_inj; [apply (shape_nodup _ _ _ _ Sh)|done|by left].
Qed.


(** ** previousKey *)

(** [previousKey] stands on the last node below [k]; it throws when the
    node behind it does not carry [k], and otherwise returns the key of the
    node it stands on, be it a sentinel or not. *)
Lemma previousKey_Inv s ls rs E1 E2 k :
  Inv s ls rs (E1 ++ E2) → before k E1 → not_before k E2 →
  previousKey s k =
    if key_eqb (key_or_default (head E2)) k then Ret (key_or_default (last E1))
    else Throw msg_absent_this.
Proof.
  intros I Be Nb.
  pose proof (inv_shape _ _ _ _ I) as Sh.
  pose proof (inv_layers _ _ _ _ I) as HL.
  pose proof (inv_fuel _ _ _ _ I) as Fu.
  destruct (Inv_top _ _ _ _ I) as (tl & tr & Tl & Tr & Ltl & Ltr).
  destruct (bottom_view _ _ _ _ _ I)
    as (sl0 & sr0 & c & ndc & x & ndx & L0 & R0 & La & Hc & Nc & Hx & Kc & Dc & Kx & Nx & Nt).
  assert (FuE : length E1 < length (heap s)).
  { rewrite length_app in Fu. lia. }
  unfold previousKey. rewrite (layer_iterations_Inv _ _ _ _ I).
  destruct (length ls) as [|n] eqn:EL; [lia|]. simpl in Ltl.
  rewrite Tl at 1.
  rewrite (previousKey_for_spec _ _ _ _ _ _ _ Sh Be Nb FuE L0 _ _ _ Ltl) by by left.
  rewrite La. cbn [bind]. rewrite (load_Some _ _ _ Hc). cbn [bind].
  rewrite Nc, (load_Some _ _ _ Hx). cbn [bind is_null]. rewrite orb_false_r, Kx, Kc, Dc.
  destruct (key_eqb _ k); [|done]. cbn [negb is_null].
  assert (ptr_eqb (Some c) (top_left s) = false) as ->; [|done].
  rewrite Tl in *. simpl. apply Nat.eqb_neq. congruence.
Qed.


(** ** nextKey *)

(** Walking [down] from a node of a tower ends on its node of layer 0. *)
Lemma descend_tower h ls rs E e :
  Shape h ls rs E → e ∈ E →
  ∀ i a, etower e !! i = Some a → descend i h (Some a) = Ret (etower e !! 0).
Proof.
  intros Sh Ie. induction i as [|i IH]; intros a La.
  - simpl. by rewrite La.
  - destruct (shape_tower _ _ _ _ Sh _ _ _ Ie La) as (_ & _ & (nd & Hn & D)%fld_Some).
    cbn [descend]. rewrite (load_Some _ _ _ Hn). cbn [bind]. rewrite D. simpl.
    destruct (lookup_lt_is_Some_2 (etower e) i) as [a' La'].
    { apply lookup_lt_Some in La. lia. }
    rewrite La'. by apply IH.
Qed.

(** On a key that is present [nextKey] returns from inside its search
    loop, with the key of the node behind the key on layer 0, be it the
    right sentinel or not. *)
Lemma nextKey_present s ls rs E1 e E3 :
  Inv s ls rs (E1 ++ e :: E3) → nextKey s (ekey e) = Ret (key_or_default (head E3)).
Proof.
  intros I.
  pose proof (inv_shape _ _ _ _ I) as Sh.
  assert (Ie : e ∈ E1 ++ e :: E3) by (apply elem_of_app; right; by left).
  destruct (locate_Inv_present _ _ _ _ _ I Ie)
    as (c & ndc & b & nb & t & Lo & Et & Hc & Nc & Lb & Hb & Kb & Vb).
  destruct (top_left_layer _ _ _ _ I) as (n & tl & It & Tl & Ltl).
  assert (I' : Inv s ls rs ((E1 ++ [e]) ++ E3)) by by rewrite <- app_assoc.
  destruct (bottom_view _ _ _ _ _ I')
    as (sl0 & sr0 & c0 & ndc0 & x & ndx & L0 & R0 & La & Hc0 & Nc0 & Hx & _ & _ & Kx & _).
  destruct (lookup_lt_is_Some_2 (etower e) 0) as [b0 Lb0]; [lia|].
  rewrite row_app, (row_cons_Some _ _ _ _ Lb0) in La.
  change (sl0 :: row 0 E1 ++ b0 :: row 0 []) with ((sl0 :: row 0 E1) ++ [b0]) in La.
  rewrite last_snoc in La. injection La as <-.
  unfold nextKey. rewrite It, Tl in *.
  rewrite (nextKey_for_locate _ _ _ _ _ Sh _ _ _ Ltl), Lo.
  cbn [bind snd fst]. rewrite (load_Some _ _ _ Hc). cbn [bind]. rewrite Nc.
  rewrite (descend_tower _ _ _ _ _ Sh Ie _ _ Lb), Lb0. cbn [bind].
  rewrite (load_Some _ _ _ Hc0). cbn [bind]. rewrite Nc0, (load_Some _ _ _ Hx). cbn [bind].
  by rewrite Kx.
Qed.

(** On a key that is absent [nextKey] leaves its loop on the last node
    below the key; it throws when that node does not carry [k]. *)
Lemma nextKey_absent s ls rs E1 E3 k :
  Inv s ls rs (E1 ++ E3) → before k E1 → after k E3 →
  nextKey s k =
    if key_eqb (key_or_default (last E1)) k then
      match E3 with
      | [] => Throw msg_largest
      | e :: _ => Ret (ekey e)
      end
    else Throw msg_absent_this.
Proof.
  intros I Be Af.
  pose proof (inv_shape _ _ _ _ I) as Sh.
  pose proof (inv_layers _ _ _ _ I) as HL.
  pose proof (inv_fuel _ _ _ _ I) as Fu.
  destruct (Inv_top _ _ _ _ I) as (tl & tr & Tl & Tr & Ltl & Ltr).
  destruct (bottom_view _ _ _ _ _ I)
    as (sl0 & sr0 & c & ndc & x & ndx & L0 & R0 & La & Hc & Nc & Hx & Kc & Dc & Kx & Nx & Nt).
  assert (FuE : length E1 < length (heap s)).
  { rewrite length_app in Fu. lia. }
  unfold nextKey. rewrite (layer_iterations_Inv _ _ _ _ I).
  destruct (length ls) as [|n] eqn:EL; [lia|]. simpl in Ltl. rewrite Tl.
  rewrite (nextKey_for_locate _ _ _ _ _ Sh _ _ _ Ltl).
  rewrite (locate_absent _ _ _ _ _ _ _ Sh Be Af FuE L0 n tl tl); [|done|by left].
  rewrite La. cbn [bind snd fst]. rewrite (load_Some _ _ _ Hc). cbn [bind]. rewrite Kc.
  destruct (key_eqb _ k); [|done]. cbn [negb].
  rewrite Nc, (load_Some _ _ _ Hx). cbn [bind]. rewrite Nx, Kx.
  by destruct E3.
Qed.


(** ** isSmallestKey and isLargestKey *)

Lemma sorted_split E1 e E3 :
  StronglySorted key_lt (ekey <$> E1 ++ e :: E3) → before (ekey e) E1 ∧ after (ekey e) E3.
Proof.
  rewrite fmap_app, fmap_cons. intros (Cr & _ & S3)%StronglySorted_app.
  apply StronglySorted_cons in S3 as [Fa _]. split.
  - apply Forall_forall. intros e1 I1. apply Cr; [by apply list_elem_of_fmap_2|by left].
  - apply Forall_forall. intros e3 I3. rewrite Forall_forall in Fa.
    by apply Fa, list_elem_of_fmap_2.
Qed.

(** Where the search of a key that is present stops. *)
Lemma locate_Inv_present_at s ls rs E1 e E3 :
  Inv s ls rs (E1 ++ e :: E3) →
  ∃ t slt c,
    S t = length (etower e) ∧ ls !! t = Some slt ∧ last (slt :: row t E1) = Some c ∧
    locate (layer_iterations s) (heap s) (ekey e) (top_left s) = Ret (Some c, Some t).
Proof.
  intros I.
  pose proof (inv_shape _ _ _ _ I) as Sh.
  pose proof (inv_layers _ _ _ _ I) as HL.
  pose proof (inv_fuel _ _ _ _ I) as Fu.
  destruct (sorted_split _ _ _ (inv_sorted _ _ _ _ I)) as [Be Af].
  assert (Ie : e ∈ E1 ++ e :: E3) by (apply elem_of_app; right; by left).
  destruct (Inv_top _ _ _ _ I) as (tl & tr & Tl & Tr & Ltl & Ltr).
  destruct (inv_towers _ _ _ _ I e Ie) as [T1 T2].
  destruct (length (etower e)) as [|t] eqn:Et; [lia|].
  destruct (lookup_lt_is_Some_2 ls t) as [slt Lt]; [lia|].
  assert (FuE : length E1 < length (heap s)).
  { rewrite length_app in Fu. simpl in Fu. lia. }
  assert (is_Some (last (slt :: row t E1))) as [c La] by by apply last_is_Some.
  exists t, slt, c. split; [done|]. split; [done|]. split; [done|].
  rewrite (layer_iterations_Inv _ _ _ _ I), Tl.
  destruct (length ls) as [|n] eqn:EL; [lia|]. simpl in Ltl.
  rewrite (locate_present _ _ _ _ _ _ _ _ _ Sh Be eq_refl Af Et FuE Lt n tl tl);
    [by rewrite La|lia|done|by left].
Qed.

Lemma isSmallestKey_present s ls rs E e :
  Inv s ls rs E → e ∈ E →
  isSmallestKey s (ekey e) = Ret (key_eqb (key_or_default (head E)) (ekey e)).
Proof.
  intros I Ie.
  destruct (locate_Inv_present _ _ _ _ _ I Ie) as (c & ndc & b & nb & t & Lo & _).
  destruct (bottom_view s ls rs [] E I)
    as (sl0 & sr0 & c0 & ndc0 & x & ndx & L0 & R0 & La & Hc0 & Nc0 & Hx & _ & _ & Kx & _).
  simpl in La. injection La as <-.
  unfold isSmallestKey. rewrite exists_for_locate, Lo. cbn [bind snd fst negb].
  rewrite (inv_bot_left _ _ _ _ I), L0, (load_Some _ _ _ Hc0). cbn [bind].
  rewrite Nc0, (load_Some _ _ _ Hx). cbn [bind]. by rewrite Kx.
Qed.

(** [while (currentNode->next->next != nullptr)] stops on the last node
    before the right sentinel. *)
Lemma to_last_seg h l : ∀ fuel a sr,
  lseg h a (l ++ [sr]) None → length l < fuel → to_last fuel h (Some a) = Ret (last (a :: l)).
Proof.
  induction l as [|b l IH]; intros fuel a sr Sg Fu.
  - destruct fuel as [|fuel]; [simpl in Fu; lia|].
    destruct Sg as [(nda & Ha & Na)%fld_Some (ndr & Hr & Nr)%fld_Some].
    cbn [to_last]. rewrite (load_Some _ _ _ Ha). cbn [bind].
    rewrite Na, (load_Some _ _ _ Hr). cbn [bind]. by rewrite Nr.
  - destruct fuel as [|fuel]; [simpl in Fu; lia|].
    destruct Sg as [(nda & Ha & Na)%fld_Some Sg].
    assert (∃ ndb y, h !! b = Some ndb ∧ next ndb = Some y) as (ndb & y & Hb & Nb).
    { destruct l; destruct (lseg_cons_load _ _ _ _ _ Sg) as (ndb & Hb & Nb); by eexists _, _. }
    cbn [to_last]. rewrite (load_Some _ _ _ Ha). cbn [bind].
    rewrite Na, (load_Some _ _ _ Hb). cbn [bind]. rewrite Nb. cbn [is_null].
    rewrite (IH fuel b sr Sg) by (simpl in Fu; lia). by rewrite last_cons_cons.
Qed.

Lemma isLargestKey_present s ls rs E e :
  Inv s ls rs E → e ∈ E →
  isLargestKey s (ekey e) = Ret (key_eqb (key_or_default (last E)) (ekey e)).
Proof.
  intros I Ie.
  pose proof (inv_shape _ _ _ _ I) as Sh.
  pose proof (inv_layers _ _ _ _ I) as HL.
  pose proof (inv_fuel _ _ _ _ I) as Fu.
  pose proof (shape_length _ _ _ _ Sh) as Len.
  assert (I' : Inv s ls rs (E ++ [])) by by rewrite app_nil_r.
  destruct (bottom_view _ _ _ _ _ I')
    as (sl0 & sr0 & cl & ndl & x & ndx & L0 & R0 & La & Hl & _ & _ & Kl & _).
  pose proof (shape_chain _ _ _ _ Sh _ _ _ L0 R0) as Ch.
  assert (Tw : ∀ e', e' ∈ E → 1 ≤ length (etower e')).
  { intros e' Ie'. pose proof (inv_towers _ _ _ _ I e' Ie'). lia. }
  apply list_elem_of_split in Ie as (E1 & E3 & ->).
  destruct (locate_Inv_present_at _ _ _ _ _ _ I) as (t & slt & c & Et & Lt & Lc & Lo).
  assert (Ht : t < length ls) by by eapply lookup_lt_Some.
  (* down to layer 0 *)
  assert (∃ c0, to_bottom (length (heap s)) (heap s) (Some c) = Ret (Some c0) ∧
                c0 ∈ sl0 :: row 0 (E1 ++ e :: E3)) as (c0 & Tb & I0).
  { apply last_Some_elem_of in Lc.
    apply elem_of_cons in Lc as [->|(e' & Ie' & Le')%elem_of_row].
    - exists sl0. rewrite (to_bottom_left _ _ _ _ Sh _ _ _ Lt), L0 by lia. split; [done|by left].
    - assert (Ie : e' ∈ E1 ++ e :: E3) by (apply elem_of_app; by left).
      destruct (lookup_lt_is_Some_2 (etower e') 0) as [a0 La0]; [by apply Tw|].
      exists a0. rewrite (to_bottom_tower _ _ _ _ _ Sh Ie _ _ _ Le'), La0 by lia.
      split; [done|]. right. apply elem_of_row. by exists e'. }
  (* right to the last key *)
  apply list_elem_of_split in I0 as (pre & post & Eq).
  pose proof (lseg_from _ _ _ _ _ _ _ _ Ch Eq) as Sg.
  assert (Lp : length post ≤ length (E1 ++ e :: E3)).
  { rewrite <- (length_row0 _ Tw). apply (f_equal length) in Eq.
    rewrite length_app in Eq. simpl in Eq. lia. }
  assert (Ll : last (c0 :: post) = Some cl).
  { rewrite <- La, Eq. by rewrite last_app_cons. }
  unfold isLargestKey. rewrite exists_for_locate, Lo. cbn [bind snd fst negb].
  rewrite Tb. cbn [bind]. rewrite (to_last_seg _ _ _ _ _ Sg) by lia.
  rewrite Ll. cbn [bind]. rewrite (load_Some _ _ _ Hl). cbn [bind]. by rewrite Kl.
Qed.

Lemma isSmallestKey_absent s ls rs E k :
  Inv s ls rs E → (∀ e, e ∈ E → ekey e ≠ k) → isSmallestKey s k = Throw msg_absent_the.
Proof.
  intros I Ab. destruct (locate_Inv_absent _ _ _ _ _ I Ab) as (c & Lo).
  unfold isSmallestKey. by rewrite exists_for_locate, Lo.
Qed.

Lemma isLargestKey_absent s ls rs E k :
  Inv s ls rs E → (∀ e, e ∈ E → ekey e ≠ k) → isLargestKey s k = Throw msg_absent_the.
Proof.
  intros I Ab. destruct (locate_Inv_absent _ _ _ _ _ I Ab) as (c & Lo).
  unfold isLargestKey. by rewrite exists_for_locate, Lo.
Qed.


(** ** What [insert] allocates *)

(** What one run of the body allocates: the node of the key and, when the
    key reaches the topmost layer, two sentinels. *)
Lemma promote_body_heap k v p p' :
  promote_body k v p = Ret p' →
  let top := (wrap32 (layer_num (engine p) - 1) =? wrap32 (previousFlip p + 1))%Z in
  length (heap (engine p')) = length (heap (engine p)) + (if top then 3 else 1) ∧
  layer_num (engine p') =
    (if top then wrap32 (layer_num (engine p) + 1) else layer_num (engine p)) ∧
  max_layer_num (engine p') = max_layer_num (engine p) ∧
  previousFlip p' = wrap32 (previousFlip p + 1).
Proof.
  unfold promote_body, alloc.
  destruct (scan_lt _ _ _ _) as [cn| | |]; try done. cbn [bind].
  destruct (load _ cn) as [c| | |]; try done. cbn [bind].
  destruct (store _ cn _) as [h1| | |] eqn:S1; try done. cbn [bind].
  destruct (store h1 _ _) as [h2| | |] eqn:S2; try done. cbn [bind].
  apply store_length in S1, S2. rewrite length_app in S1. simpl in S1.
  destruct (_ =? _)%Z.
  - destruct (store _ _ _) as [h3| | |] eqn:S3; try done. cbn [bind].
    destruct (store h3 _ _) as [h4| | |] eqn:S4; try done. cbn [bind].
    destruct (store h4 _ _) as [h5| | |] eqn:S5; try done. cbn [bind heap].
    destruct (load h5 _) as [l| | |]; try done. cbn [bind].
    destruct (load h5 _) as [r| | |]; try done. cbn [bind].
    intros [= <-]. simpl.
    apply store_length in S3, S4, S5. rewrite !length_app in S3. simpl in S3.
    split; [lia|done].
  - cbn [bind heap].
    destruct (load h2 _) as [l| | |]; try done. cbn [bind].
    destruct (load h2 _) as [r| | |]; try done. cbn [bind].
    intros [= <-]. simpl. split; [lia|done].
Qed.

Lemma streak_from_le k p n : streak_from k p n ≤ n.
Proof. revert p. induction n as [|n IH]; intros p; simpl; [done|]. destruct (flipCoin k p); [|lia]. specialize (IH (p + 1)%Z). lia. Qed.

(** What the promotion loop allocates: a node for each promotion and two
    sentinels for each new layer. *)
Lemma promote_while_heap k v : ∀ fuel p s',
  promote_while fuel k v p = Ret s' →
  (0 ≤ previousFlip p)%Z → (previousFlip p + 2 ≤ layer_num (engine p))%Z →
  (max_layer_num (engine p) ≤ 193)%Z →
  (Z.of_nat (length (heap s')) - 2 * layer_num s' =
   Z.of_nat (length (heap (engine p))) - 2 * layer_num (engine p) +
   Z.of_nat (if (layer_num (engine p) <? max_layer_num (engine p))%Z
             then streak_from k (previousFlip p)
                    (Z.to_nat (max_layer_num (engine p) - 2 - previousFlip p))
             else 0))%Z.
Proof.
  induction fuel as [|fuel IH]; intros p s' Eq P0 PL M; [done|].
  cbn [promote_while] in Eq.
  destruct (Z.ltb_spec (layer_num (engine p)) (max_layer_num (engine p))) as [Lt|Ge].
  - remember (Z.to_nat (max_layer_num (engine p) - 2 - previousFlip p)) as m eqn:Em.
    destruct m as [|m]; [lia|]. cbn [streak_from].
    destruct (flipCoin k (previousFlip p)); cbn [andb] in Eq.
    + destruct (promote_body k v p) as [p'| | |] eqn:Eb; try done. cbn [bind] in Eq.
      destruct (promote_body_heap _ _ _ _ Eb) as (Hh & Hl & Hm & Hf).
      rewrite (wrap32_small (layer_num (engine p) - 1)) in Hh, Hl by lia.
      rewrite (wrap32_small (previousFlip p + 1)) in Hh, Hl, Hf by lia.
      rewrite (wrap32_small (layer_num (engine p) + 1)) in Hl by lia.
      specialize (IH p' s' Eq). rewrite Hm, Hf, Hl in IH.
      replace (Z.to_nat (max_layer_num (engine p) - 2 - (previousFlip p + 1))) with m in IH
        by lia.
      destruct (Z.eqb_spec (layer_num (engine p) - 1) (previousFlip p + 1)) as [Top|NTop].
      * rewrite IH by lia.
        destruct (Z.ltb_spec (layer_num (engine p) + 1) (max_layer_num (engine p))); [lia|].
        assert (m = 0) as -> by lia. simpl. lia.
      * rewrite IH by lia.
        destruct (Z.ltb_spec (layer_num (engine p)) (max_layer_num (engine p))); lia.
    + injection Eq as <-. lia.
  - rewrite andb_false_r in Eq. injection Eq as <-. lia.
Qed.

Lemma cap_after_range s ls rs E : Inv s ls rs E → (13 ≤ cap_after s ≤ 193)%Z.
Proof.
  intros I. unfold cap_after.
  destruct (Z.ltb_spec 16 (wrap64 (listSize s + 1))); [|apply I].
  apply layer_cap_range. pose proof (wrap64_range (listSize s + 1)). lia.
Qed.

(** What a successful [insert] allocates. *)
Lemma insert_heap s ls rs E k v s' :
  Inv s ls rs E → insert s k v = Ret (true, s') →
  (Z.of_nat (length (heap s')) - 2 * layer_num s' =
   Z.of_nat (length (heap s)) - 2 * layer_num s + Z.of_nat (tower_height s k))%Z.
Proof.
  intros I. pose proof (cap_after_range _ _ _ _ I) as HC.
  pose proof (inv_layers _ _ _ _ I) as HL.
  pose proof (inv_layer_num _ _ _ _ I) as HLn.
  unfold insert, alloc.
  destruct (insert_for _ _ _ _ _) as [cn| | |]; try done. cbn [bind].
  destruct (load _ cn) as [c| | |]; try done. cbn [bind].
  destruct (load _ (next c)) as [n| | |]; try done. cbn [bind].
  destruct (_ && _); [done|].
  destruct (store _ cn _) as [h1| | |] eqn:S1; try done. cbn [bind].
  destruct (load h1 _) as [bl| | |]; try done. cbn [bind].
  destruct (load h1 _) as [br| | |]; try done. cbn [bind].
  destruct (promote_while _ _ _ _) as [s1| | |] eqn:Ep; try done. cbn [bind].
  intros [= <-].
  apply store_length in S1. rewrite length_app in S1. simpl in S1.
  apply promote_while_heap in Ep; simpl in *; fold (cap_after s) in *; try lia.
  rewrite Ep, S1. unfold tower_height. rewrite Z.sub_0_r.
  destruct (_ <? _)%Z; lia.
Qed.

(** ** The invariant with its counts *)

Lemma layers_of_middle E1 e E3 :
  layers_of (E1 ++ e :: E3) = S (length (etower e)) `max` layers_of (E1 ++ E3).
Proof. induction E1 as [|e1 E1 IH]; simpl; [done|]. rewrite IH. lia. Qed.

Lemma layers_of_ge E e : e ∈ E → S (length (etower e)) ≤ layers_of E.
Proof.
  induction E as [|e0 E IH]; [by intros ?%elem_of_nil|].
  intros [->|Ie]%elem_of_cons; simpl; [lia|]. specialize (IH Ie). lia.
Qed.

Lemma layers_of_nil : layers_of ([] : list (@entry Key Value)) = 2.
Proof. done. Qed.

(** With a key in the engine, the layer count is the height of a tallest
    tower plus one. *)
Lemma layers_of_attained E :
  E ≠ [] → (∀ e, e ∈ E → 1 ≤ length (etower e)) →
  ∃ e, e ∈ E ∧ layers_of E = S (length (etower e)).
Proof.
  induction E as [|e0 E IH]; [done|]. intros _ Tw.
  destruct E as [|e1 E].
  - exists e0. split; [by left|]. simpl. specialize (Tw e0 ltac:(by left)). lia.
  - destruct IH as (e & Ie & Le); [done|intros e' Ie'; apply Tw; by right|].
    change (layers_of (e0 :: e1 :: E))
      with (S (length (etower e0)) `max` layers_of (e1 :: E)).
    destruct (Nat.max_spec (S (length (etower e0))) (layers_of (e1 :: E))) as [[_ ->]|[_ ->]].
    + exists e. split; [by right|done].
    + exists e0. split; [by left|done].
Qed.

Lemma layer_cap_exact z : (16 < z < 2 ^ 64)%Z → layer_cap z = (3 * Z.log2_up z + 1)%Z.
Proof.
  intros [Lo Hi]. unfold layer_cap.
  assert (5 ≤ Z.log2_up z)%Z.
  { change 5%Z with (Z.log2_up 17). apply Z.log2_up_le_mono. lia. }
  assert (Z.log2_up z ≤ 64)%Z.
  { change 64%Z with (Z.log2_up (2 ^ 64)). apply Z.log2_up_le_mono. lia. }
  rewrite wrap32_small; lia.
Qed.

(** The cap never shrinks as the size grows. *)
Lemma cap_of_mono x y : (0 ≤ x ≤ y)%Z → (y < 2 ^ 64)%Z → (cap_of x ≤ cap_of y)%Z.
Proof.
  intros [A0 AB] B. unfold cap_of.
  destruct (Z.ltb_spec 16 x), (Z.ltb_spec 16 y); try lia.
  - rewrite !layer_cap_exact by lia. pose proof (Z.log2_up_le_mono x y AB). lia.
  - pose proof (layer_cap_range y). lia.
Qed.

Lemma ctor_Full s : SkipList_ctor = Ret s → Full s [0; 2] [1; 3] [].
Proof.
  intros Eq. split; [by apply ctor_Inv| | |].
  - unfold SkipList_ctor in Eq. simpl in Eq. by injection Eq as <-.
  - done.
  - intros _. unfold SkipList_ctor in Eq. simpl in Eq. injection Eq as <-. simpl.
    split; [done|]. by vm_compute.
Qed.

Lemma insert_Full s ls rs E k v (ok : bool) s' :
  Full s ls rs E → insert s k v = Ret (ok, s') →
  ∃ ls' rs' E', Full s' ls' rs' E' ∧ (∀ e, e ∈ E → e ∈ E').
Proof.
  intros [I Cn Ly Cp] Eq.
  destruct (sorted_locate E k (inv_sorted _ _ _ _ I))
    as (E1 & E3 & Be & Af & [->|(e & Ek & ->)]).
  - destruct (insert_absent _ _ _ _ _ _ v I Be Af)
      as (s'' & ls' & rs' & e & Eq' & I' & Ke & Ve & Te & Mx & Lx & Sz).
    rewrite Eq in Eq'. injection Eq' as -> <-.
    exists ls', rs', (E1 ++ e :: E3). split.
    2:{ intros e' [?|?]%elem_of_app; apply elem_of_app; [by left|right; by right]. }
    pose proof (insert_heap _ _ _ _ _ _ _ I Eq) as Hp.
    pose proof (inv_layer_num _ _ _ _ I) as L0.
    pose proof (inv_layer_num _ _ _ _ I') as L1.
    pose proof (shape_length _ _ _ _ (inv_shape _ _ _ _ I)) as N0.
    pose proof (shape_length _ _ _ _ (inv_shape _ _ _ _ I')) as N1.
    pose proof (inv_layers _ _ _ _ I) as HL.
    pose proof (cap_after_range _ _ _ _ I) as HC.
    split; [done| | |].
    + rewrite towers_app, towers_cons, !length_app in *. lia.
    + rewrite layers_of_middle, <- Ly. lia.
    + rewrite !length_app in *. simpl. intros Bd.
      destruct Cp as [Cm Cl]; [lia|].
      assert (Hs : listSize s = Z.of_nat (length E1 + length E3)).
      { rewrite (inv_size _ _ _ _ I), length_app. apply wrap64_small. lia. }
      assert (Hc : cap_after s = cap_of (Z.of_nat (length E1 + S (length E3)))).
      { unfold cap_after, cap_of. rewrite Hs, wrap64_small by lia.
        replace (Z.of_nat (length E1 + S (length E3)))
          with (Z.of_nat (length E1 + length E3) + 1)%Z by lia.
        destruct (Z.ltb_spec 16 (Z.of_nat (length E1 + length E3) + 1)); [done|].
        rewrite Cm. unfold cap_of. destruct (Z.ltb_spec 16 (Z.of_nat (length E1 + length E3))); [lia|done]. }
      rewrite Mx. split; [done|]. rewrite Lx, Te.
      assert (cap_of (Z.of_nat (length E1 + length E3)) ≤ cap_after s)%Z.
      { rewrite Hc. apply cap_of_mono; lia. }
      unfold tower_height.
      destruct (Z.ltb_spec (layer_num s) (cap_after s)); [|lia].
      pose proof (streak_from_le k 0 (Z.to_nat (cap_after s - 2))). lia.
  - assert (Ie : e ∈ E1 ++ e :: E3) by (apply elem_of_app; right; by left).
    pose proof (insert_present _ _ _ _ _ v I Ie) as Eq'.
    rewrite Ek, Eq in Eq'. injection Eq' as -> ->.
    by exists ls, rs, (E1 ++ e :: E3).
Qed.

Lemma reachable_Full s : reachable s → ∃ ls rs E, Full s ls rs E.
Proof.
  induction 1 as [s Eq|s k v ok s' _ (ls & rs & E & F) Eq].
  - exists [0; 2], [1; 3], []. by apply ctor_Full.
  - destruct (insert_Full _ _ _ _ _ _ _ _ F Eq) as (ls' & rs' & E' & F' & _). by eauto.
Qed.

(** ** The destructor *)

Lemma elem_of_option_list_Some (o : option nat) x : x ∈ option_list o ↔ o = Some x.
Proof.
  destruct o as [y|]; simpl.
  - rewrite list_elem_of_singleton. split; [by intros ->|by intros [= ->]].
  - split; [by intros ?%elem_of_nil|done].
Qed.

Lemma elem_of_layer_nodes ls rs E i x : x ∈ layer_nodes ls rs E i ↔ on_layer ls rs E i x.
Proof.
  unfold layer_nodes, on_layer. rewrite !elem_of_app, !elem_of_option_list_Some. tauto.
Qed.

Lemma elem_of_layers_down ls rs E i x :
  x ∈ layers_down ls rs E i ↔ ∃ j, j ≤ i ∧ on_layer ls rs E j x.
Proof.
  induction i as [|i IH]; simpl.
  - rewrite elem_of_layer_nodes. split; [by exists 0|]. intros (j & Hj & O).
    by assert (j = 0) as -> by lia.
  - rewrite elem_of_app, elem_of_layer_nodes, IH. split.
    + intros [O|(j & Hj & O)]; [by exists (S i)|]. exists j. split; [lia|done].
    + intros (j & Hj & O). destruct (decide (j = S i)) as [->|]; [by left|].
      right. exists j. split; [lia|done].
Qed.

(** Deleting along a layer deletes its nodes, one after the other. *)
Lemma delete_row_seg h l : ∀ a dead fuel,
  lseg h a l None → NoDup (a :: l) → (∀ x, x ∈ a :: l → x ∉ dead) → length l < fuel →
  delete_row fuel h dead (Some a) = Ret (dead ++ a :: l).
Proof.
  induction l as [|b l IH]; intros a dead fuel Sg ND Dj Fu.
  - destruct fuel as [|fuel]; [simpl in Fu; lia|].
    apply fld_Some in Sg as (nd & Hn & Nn).
    cbn [delete_row load_live delete_node].
    rewrite bool_decide_eq_false_2 by (apply Dj; by left).
    rewrite (load_Some _ _ _ Hn). cbn [bind]. rewrite Nn. by destruct fuel.
  - destruct fuel as [|fuel]; [simpl in Fu; lia|].
    destruct Sg as [(nd & Hn & Nn)%fld_Some Sg].
    apply NoDup_cons in ND as [Na ND].
    cbn [delete_row load_live delete_node].
    rewrite bool_decide_eq_false_2 by (apply Dj; by left).
    rewrite (load_Some _ _ _ Hn). cbn [bind]. rewrite Nn.
    rewrite (IH b (dead ++ [a]) fuel Sg ND); [by rewrite <- app_assoc| |simpl in Fu; lia].
    intros x Ix [Id| ->%list_elem_of_singleton]%elem_of_app; [|done].
    eapply Dj; [|done]. by right.
Qed.

(** Deleting from layer [i] downwards deletes the layers [i], ..., 0. *)
Lemma delete_layers_spec h ls rs E :
  Shape h ls rs E → length E + 1 < length h →
  ∀ i sl dead fuel,
    ls !! i = Some sl → i < fuel →
    (∀ x, x ∈ dead → ∃ j, i < j ∧ on_layer ls rs E j x) →
    delete_layers fuel h dead (Some sl) = Ret (dead ++ layers_down ls rs E i).
Proof.
  intros Sh Fu. induction i as [|i IH]; intros sl dead fuel Ll Hf Dd.
  - destruct fuel as [|fuel]; [lia|].
    assert (is_Some (rs !! 0)) as [sr Lr].
    { apply lookup_lt_is_Some. rewrite <- (shape_length _ _ _ _ Sh). by eapply lookup_lt_Some. }
    destruct (shape_left _ _ _ _ Sh _ _ Ll) as (_ & (nd & Hn & Dn)%fld_Some & _).
    assert (Dj : ∀ x, x ∈ sl :: row 0 E ++ [sr] → x ∉ dead).
    { intros x Ix Id. destruct (Dd x Id) as (j & Hj & Oj).
      pose proof (chain_on_layer _ _ _ _ _ _ _ Ll Lr Ix) as O0.
      pose proof (on_layer_inj _ _ _ _ _ _ (shape_nodup _ _ _ _ Sh) O0 Oj). lia. }
    cbn [delete_layers load_live].
    rewrite bool_decide_eq_false_2 by (apply Dj; by left).
    rewrite (load_Some _ _ _ Hn). cbn [bind].
    rewrite (delete_row_seg _ _ _ _ _ (shape_chain _ _ _ _ Sh _ _ _ Ll Lr)
               (chain_NoDup _ _ _ _ _ _ (shape_nodup _ _ _ _ Sh) Ll Lr) Dj).
    2:{ rewrite length_app. simpl. pose proof (length_row 0 E). lia. }
    cbn [bind]. rewrite Dn. simpl. unfold layer_nodes. rewrite Ll, Lr. by destruct fuel.
  - destruct fuel as [|fuel]; [lia|].
    assert (is_Some (rs !! S i)) as [sr Lr].
    { apply lookup_lt_is_Some. rewrite <- (shape_length _ _ _ _ Sh). by eapply lookup_lt_Some. }
    assert (is_Some (ls !! i)) as [sl' Ll'].
    { apply lookup_lt_is_Some. apply lookup_lt_Some in Ll. lia. }
    destruct (shape_left _ _ _ _ Sh _ _ Ll) as (_ & (nd & Hn & Dn)%fld_Some & _).
    assert (Dj : ∀ x, x ∈ sl :: row (S i) E ++ [sr] → x ∉ dead).
    { intros x Ix Id. destruct (Dd x Id) as (j & Hj & Oj).
      pose proof (chain_on_layer _ _ _ _ _ _ _ Ll Lr Ix) as O0.
      pose proof (on_layer_inj _ _ _ _ _ _ (shape_nodup _ _ _ _ Sh) O0 Oj). lia. }
    cbn [delete_layers load_live].
    rewrite bool_decide_eq_false_2 by (apply Dj; by left).
    rewrite (load_Some _ _ _ Hn). cbn [bind].
    rewrite (delete_row_seg _ _ _ _ _ (shape_chain _ _ _ _ Sh _ _ _ Ll Lr)
               (chain_NoDup _ _ _ _ _ _ (shape_nodup _ _ _ _ Sh) Ll Lr) Dj).
    2:{ rewrite length_app. simpl. pose proof (length_row (S i) E). lia. }
    cbn [bind]. rewrite Dn. simpl. rewrite Ll'.
    rewrite (IH sl' _ fuel Ll'); [|lia|].
    + unfold layer_nodes. rewrite Ll, Lr. f_equal. by rewrite <- (app_assoc dead).
    + intros x [Id|Ix]%elem_of_app.
      * destruct (Dd x Id) as (j & Hj & Oj). exists j. split; [lia|done].
      * exists (S i). split; [lia|]. by eapply chain_on_layer.
Qed.

Lemma layers_down_NoDup ls rs E i :
  NoDup (ls ++ rs ++ towers E) → length ls = length rs → i < length ls →
  NoDup (layers_down ls rs E i).
Proof.
  intros ND Len. induction i as [|i IH]; intros Hi.
  - destruct (lookup_lt_is_Some_2 ls 0) as [sl Ll]; [lia|].
    destruct (lookup_lt_is_Some_2 rs 0) as [sr Lr]; [lia|].
    simpl. unfold layer_nodes. rewrite Ll, Lr. by eapply chain_NoDup.
  - destruct (lookup_lt_is_Some_2 ls (S i)) as [sl Ll]; [lia|].
    destruct (lookup_lt_is_Some_2 rs (S i)) as [sr Lr]; [lia|].
    simpl. apply NoDup_app. split; [|split; [|apply IH; lia]].
    + unfold layer_nodes. rewrite Ll, Lr. by eapply chain_NoDup.
    + intros x O1%elem_of_layer_nodes (j & Hj & O2)%elem_of_layers_down.
      pose proof (on_layer_inj _ _ _ _ _ _ ND O1 O2). lia.
Qed.

(** ** The reference that [find] returns *)

Lemma find_ref_for_locate h ls rs E k :
  Shape h ls rs E →
  ∀ n sl c, ls !! n = Some sl →
    find_ref_for (S n) h k c (Some sl) =
      let* r := locate (S n) h k c in
      match r.2 with
      | Some _ =>
          let* c := load h r.1 in
          let* _ := load h (next c) in
          Ret (Some (next c))
      | None => Ret None
      end.
Proof.
  intros Sh. induction n as [|i IH]; intros sl c Ll.
  - cbn [find_ref_for locate]. by destruct (scan_le _ _ _ _) as [[c' [|]]| | |].
  - cbn [find_ref_for locate].
    destruct (scan_le _ _ _ _) as [[c' [|]]| | |]; try done. cbn [bind].
    destruct (load h c') as [nd| | |]; try done. cbn [bind].
    assert (is_Some (ls !! i)) as [sl' Ll'].
    { apply lookup_lt_is_Some. apply lookup_lt_Some in Ll. lia. }
    destruct (left_down _ _ _ _ _ _ _ Sh Ll Ll') as (ndl & Hl & Dl).
    rewrite (load_Some _ _ _ Hl). cbn [bind]. rewrite Dl. by apply IH.
Qed.

(** The reference designates the topmost node of the tower of the key. *)
Lemma find_ref_present s ls rs E e :
  Inv s ls rs E → e ∈ E →
  ∃ a nd, find_ref s (ekey e) = Ret (Some a) ∧ last (etower e) = Some a ∧
          heap s !! a = Some nd ∧ key nd = ekey e ∧ value nd = evalue e.
Proof.
  intros I Ie.
  destruct (locate_Inv_present _ _ _ _ _ I Ie)
    as (c & ndc & b & nb & t & Lo & Et & Hc & Nc & Lb & Hb & Kb & Vb).
  destruct (top_left_layer _ _ _ _ I) as (n & tl & It & Tl & Ltl).
  exists b, nb. split; [|split; [|done]].
  - unfold find_ref. rewrite It, Tl in *.
    rewrite (find_ref_for_locate _ _ _ _ _ (inv_shape _ _ _ _ I) _ _ _ Ltl), Lo.
    cbn [bind snd fst]. rewrite (load_Some _ _ _ Hc). cbn [bind].
    rewrite Nc, (load_Some _ _ _ Hb). by cbn [bind].
  - rewrite last_lookup, <- Et. done.
Qed.

End Shape.

(** * Runs of inserts *)

Section Runs.
Context {Key Value : Type} `{KeyLaws Key} `{ValueType Value}.

Implicit Types (s : SkipList Key Value) (kvs : list (Key * Value)) (E : list (@entry Key Value)).

(** Later inserts keep the entries that are there, with their towers and
    values. *)
Lemma insert_all_Inv kvs : ∀ s ls rs E n s',
  Inv s ls rs E → insert_all s kvs = Ret (n, s') →
  ∃ ls' rs' E', Inv s' ls' rs' E' ∧ (∀ e, e ∈ E → e ∈ E').
Proof.
  induction kvs as [|[k v] kvs IH]; intros s ls rs E n s' I Eq.
  - injection Eq as _ <-. by exists ls, rs, E.
  - cbn [insert_all] in Eq.
    destruct (insert s k v) as [[ok s1]| | |] eqn:E1; try done. cbn [bind] in Eq.
    destruct (insert_all s1 kvs) as [[m s2]| | |] eqn:E2; try done. cbn [bind] in Eq.
    injection Eq as _ <-.
    destruct (insert_Inv _ _ _ _ _ _ _ _ I E1) as (ls1 & rs1 & E1' & I1 & Sub1).
    destruct (IH _ _ _ _ _ _ I1 E2) as (ls2 & rs2 & E2' & I2 & Sub2).
    exists ls2, rs2, E2'. split; [done|]. intros e Ie. by apply Sub2, Sub1.
Qed.

(** Inserting keys that are new and pairwise distinct succeeds every time
    and adds exactly these keys. *)
Lemma insert_all_distinct kvs : ∀ s ls rs E,
  Inv s ls rs E → NoDup kvs.*1 →
  (∀ k e, k ∈ kvs.*1 → e ∈ E → ekey e ≠ k) →
  ∃ s' ls' rs' E',
    insert_all s kvs = Ret (length kvs, s') ∧ Inv s' ls' rs' E' ∧
    ekey <$> E' ≡ₚ (ekey <$> E) ++ kvs.*1.
Proof.
  induction kvs as [|[k v] kvs IH]; intros s ls rs E I ND Ab.
  - exists s, ls, rs, E. split; [done|]. split; [done|]. by rewrite app_nil_r.
  - rewrite fmap_cons in ND, Ab. simpl in ND, Ab. apply NoDup_cons in ND as [Nk ND].
    destruct (sorted_locate E k (inv_sorted _ _ _ _ I))
      as (E1 & E3 & Be & Af & [->|(e & Ek & ->)]).
    2:{ destruct (Ab k e); [by left| |done]. apply elem_of_app. right. by left. }
    destruct (insert_absent _ _ _ _ _ _ v I Be Af)
      as (s1 & ls1 & rs1 & e & Eq1 & I1 & Ke & _).
    destruct (IH s1 ls1 rs1 (E1 ++ e :: E3) I1 ND) as (s' & ls' & rs' & E' & Eq & I' & P).
    { intros k' e' Ik' [Ie'|[->|Ie']%elem_of_cons]%elem_of_app.
      - apply Ab; [by right|]. apply elem_of_app. by left.
      - rewrite Ke. by intros <-.
      - apply Ab; [by right|]. apply elem_of_app. by right. }
    exists s', ls', rs', E'. split; [|split; [done|]].
    + cbn [insert_all]. rewrite Eq1. cbn [bind]. by rewrite Eq.
    + rewrite P, !fmap_app, fmap_cons, Ke. simpl.
      rewrite <- !app_assoc. simpl. by rewrite Permutation_middle.
Qed.

End Runs.

(** * The claims about the engine *)

Section Claims.
Context {Key Value : Type} `{KeyLaws Key} `{ValueType Value}.

Implicit Types (s : SkipList Key Value) (kvs : list (Key * Value)) (k : Key) (v : Value).

(** What a successful [insert] leaves behind. *)
Lemma insert_true_entry s k v s1 :
  reachable s → insert s k v = Ret (true, s1) →
  ∃ ls rs E e,
    Inv s1 ls rs E ∧ e ∈ E ∧ ekey e = k ∧ evalue e = v ∧
    length (etower e) = tower_height s k ∧
    layer_num s1 = Z.max (layer_num s) (Z.of_nat (length (etower e)) + 1).
Proof.
  intros (ls & rs & E & I)%reachable_Inv Eq.
  destruct (sorted_locate E k (inv_sorted _ _ _ _ I))
    as (E1 & E3 & Be & Af & [->|(e & Ek & ->)]).
  - destruct (insert_absent _ _ _ _ _ _ v I Be Af)
      as (s' & ls' & rs' & e & Eq' & I' & Ke & Ve & Te & _ & Le & _).
    rewrite Eq in Eq'. injection Eq' as <-.
    exists ls', rs', (E1 ++ e :: E3), e. split; [done|]. split; [|done].
    apply elem_of_app. right. by left.
  - assert (Ie : e ∈ E1 ++ e :: E3) by (apply elem_of_app; right; by left).
    pose proof (insert_present _ _ _ _ _ v I Ie) as Eq'.
    rewrite Ek, Eq in Eq'. done.
Qed.

(** C9.  The constructor returns an engine with two layers, size zero and
    [isEmpty] true, and no reachable engine has fewer than two layers. *)
Theorem numLayers_at_least_two :
  ∃ s0 : SkipList Key Value,
    SkipList_ctor = Ret s0 ∧ numLayers s0 = 2%Z ∧ size s0 = 0%Z ∧ isEmpty s0 = true ∧
    ∀ s, reachable s → (2 ≤ numLayers s)%Z.
Proof.
  eexists. split; [reflexivity|]. split; [reflexivity|]. split; [reflexivity|].
  split; [reflexivity|].
  intros s (ls & rs & E & I)%reachable_Inv. unfold numLayers.
  rewrite (inv_layer_num _ _ _ _ I). pose proof (inv_layers _ _ _ _ I). lia.
Qed.

(** C2.  Inserting pairwise distinct keys into a fresh engine, fewer than
    [2 ^ 64] of them (the range of [size_t]): every insert succeeds, [size]
    is their number, and [allKeysInOrder] is the increasing arrangement of
    exactly these keys. *)
Theorem distinct_inserts_size_and_order kvs :
  NoDup kvs.*1 → (Z.of_nat (length kvs) < 2 ^ 64)%Z →
  ∃ s0 s ks,
    SkipList_ctor = Ret s0 ∧
    insert_all s0 kvs = Ret (length kvs, s) ∧
    size s = Z.of_nat (length kvs) ∧
    allKeysInOrder s = Ret ks ∧
    StronglySorted key_lt ks ∧ ks ≡ₚ kvs.*1.
Proof.
  intros ND Bd.
  eexists. pose proof (ctor_Inv _ eq_refl) as I0.
  destruct (insert_all_distinct kvs _ _ _ _ I0 ND) as (s & ls & rs & E & Eq & I & P).
  { intros k e _ Ie. by apply elem_of_nil in Ie. }
  simpl in P.
  exists s, (ekey <$> E). split; [reflexivity|]. split; [done|].
  assert (Len : length E = length kvs).
  { apply Permutation_length in P. by rewrite !length_fmap in P. }
  split; [|split; [|split]].
  - unfold size. rewrite (inv_size _ _ _ _ I), Len. apply wrap64_small. lia.
  - by apply (allKeysInOrder_Inv _ _ _ _ I).
  - apply I.
  - done.
Qed.

(** C4.  The height of a key, asked at any time after its insertion, is
    one plus the number of heads its flips show in a row from flip 0 on,
    cut off by the cap that was in force when the key was inserted: no
    promotion once the layer count has met the cap ([tower_height]). *)
Theorem height_is_promotion_streak s k v s1 kvs n s2 :
  reachable s → insert s k v = Ret (true, s1) → insert_all s1 kvs = Ret (n, s2) →
  height s2 k = Ret (Z.of_nat (tower_height s k)).
Proof.
  intros R Eq1 Eq2.
  destruct (insert_true_entry _ _ _ _ R Eq1) as (ls & rs & E & e & I & Ie & Ke & Ve & Te & _).
  destruct (insert_all_Inv _ _ _ _ _ _ _ I Eq2) as (ls' & rs' & E' & I' & Sub).
  subst k. rewrite <- Te. apply (height_present _ _ _ _ _ I'). by apply Sub.
Qed.

(** C6.  Inserting a key that is present returns [false] and the engine
    is the one it was: same size, keys, layer count and bindings. *)
Theorem reinsert_changes_nothing s k v ks :
  reachable s → allKeysInOrder s = Ret ks → k ∈ ks →
  ∃ s', insert s k v = Ret (false, s') ∧ s' = s ∧
        size s' = size s ∧ allKeysInOrder s' = allKeysInOrder s ∧
        numLayers s' = numLayers s ∧ ∀ k', find s' k' = find s k'.
Proof.
  intros (ls & rs & E & I)%reachable_Inv Eq Ik.
  rewrite (allKeysInOrder_Inv _ _ _ _ I) in Eq. injection Eq as <-.
  apply list_elem_of_fmap in Ik as (e & -> & Ie).
  exists s. split; [by apply (insert_present _ _ _ _ _ v I)|]. done.
Qed.

(** C8.  In every reachable engine the topmost layer is the bare pair of
    sentinels, linked down to the sentinels of the layer below and back up;
    and an insert that raises a tower to the topmost layer leaves one more
    layer above it: afterwards the layer count is the larger of the old
    count and the height of the new key plus one. *)
Theorem top_layer_has_no_keys s :
  reachable s →
  (∃ tl tr ntl ntr bl br nbl nbr,
     top_left s = Some tl ∧ top_right s = Some tr ∧
     heap s !! tl = Some ntl ∧ heap s !! tr = Some ntr ∧
     next ntl = Some tr ∧ next ntr = None ∧
     down ntl = Some bl ∧ down ntr = Some br ∧
     heap s !! bl = Some nbl ∧ heap s !! br = Some nbr ∧
     up nbl = Some tl ∧ up nbr = Some tr) ∧
  ∀ k v s', insert s k v = Ret (true, s') →
    ∃ hk, height s' k = Ret hk ∧ numLayers s' = Z.max (numLayers s) (hk + 1).
Proof.
  intros R. split.
  - destruct (reachable_Inv _ R) as (ls & rs & E & I).
    pose proof (inv_shape _ _ _ _ I) as Sh.
    pose proof (inv_layers _ _ _ _ I) as HL.
    pose proof (shape_length _ _ _ _ Sh) as Len.
    destruct (Inv_top _ _ _ _ I) as (tl & tr & Tl & Tr & Ltl & Ltr).
    destruct (length ls) as [|[|n]] eqn:EL; [lia..|]. simpl in Ltl, Ltr.
    destruct (lookup_lt_is_Some_2 ls n) as [bl Lbl]; [lia|].
    destruct (lookup_lt_is_Some_2 rs n) as [br Lbr]; [lia|].
    pose proof (shape_chain _ _ _ _ Sh _ _ _ Ltl Ltr) as Ch.
    rewrite row_nil in Ch.
    2:{ intros e Ie. pose proof (inv_towers _ _ _ _ I e Ie). lia. }
    destruct Ch as [(ntl & Htl & Ntl)%fld_Some (ntr & Htr & Ntr)%fld_Some].
    destruct (shape_left _ _ _ _ Sh _ _ Ltl) as (_ & (ntl' & Htl' & Dtl)%fld_Some & _).
    destruct (shape_right _ _ _ _ Sh _ _ Ltr) as (_ & (ntr' & Htr' & Dtr)%fld_Some & _).
    destruct (shape_left _ _ _ _ Sh _ _ Lbl) as (_ & _ & (nbl & Hbl & Ubl)%fld_Some).
    destruct (shape_right _ _ _ _ Sh _ _ Lbr) as (_ & _ & (nbr & Hbr & Ubr)%fld_Some).
    assert (ntl' = ntl) as -> by congruence. assert (ntr' = ntr) as -> by congruence.
    simpl in Dtl, Dtr. rewrite Lbl in Dtl. rewrite Lbr in Dtr.
    rewrite Ltl in Ubl. rewrite Ltr in Ubr.
    by exists tl, tr, ntl, ntr, bl, br, nbl, nbr.
  - intros k v s' Eq.
    destruct (insert_true_entry _ _ _ _ R Eq) as (ls & rs & E & e & I & Ie & Ke & _ & _ & Le).
    exists (Z.of_nat (length (etower e))). split; [|done].
    rewrite <- Ke. by apply (height_present _ _ _ _ _ I).
Qed.

(** C10.  On the freshly constructed (empty) engine, [previousKey] of the
    default-constructed key returns that key and signals nothing: the
    search ends on the bottom left sentinel, whose successor is the right
    sentinel, and the absence test compares the argument with the key that
    sentinel carries, [Key()]. *)
Theorem previousKey_default_on_empty :
  ∃ s0 : SkipList Key Value,
    SkipList_ctor = Ret s0 ∧ previousKey s0 key_default = Ret key_default.
Proof.
  eexists. split; [reflexivity|].
  unfold previousKey. change (layer_iterations _) with 2%nat. cbn.
  by rewrite key_eqb_refl.
Qed.

End Claims.

(** * The neighbour queries and the extremal tests *)

Section Neighbours.
Context {Key Value : Type} `{KeyLaws Key} `{ValueType Value}.

Implicit Types (s : SkipList Key Value) (k : Key) (ks : list Key).

(** The keys [allKeysInOrder] lists are the keys of the entries. *)
Lemma listed_keys s ks :
  reachable s → allKeysInOrder s = Ret ks → ∃ ls rs E, Inv s ls rs E ∧ ks = ekey <$> E.
Proof.
  intros (ls & rs & E & I)%reachable_Inv Eq.
  rewrite (allKeysInOrder_Inv _ _ _ _ I) in Eq. injection Eq as <-. by exists ls, rs, E.
Qed.

(** Two keys next to each other on layer 0 are each other's
    neighbours. *)
Theorem adjacent_keys_are_neighbours s l1 a b l2 :
  reachable s → allKeysInOrder s = Ret (l1 ++ a :: b :: l2) →
  nextKey s a = Ret b ∧ previousKey s b = Ret a.
Proof.
  intros R Eq. destruct (listed_keys _ _ R Eq) as (ls & rs & E & I & Ek).
  symmetry in Ek. apply fmap_app_inv in Ek as (E1 & E' & -> & Ek & ->).
  symmetry in Ek. apply fmap_cons_inv in Ek as (ea & E'' & -> & Ek & ->).
  symmetry in Ek. apply fmap_cons_inv in Ek as (eb & E2 & -> & -> & ->).
  split.
  - by rewrite (nextKey_present _ _ _ _ _ _ I).
  - assert (I' : Inv s ls rs ((E1 ++ [ea]) ++ eb :: E2)) by by rewrite <- app_assoc.
    destruct (sorted_split _ _ _ (inv_sorted _ _ _ _ I')) as [Be Af].
    rewrite (previousKey_Inv _ _ _ _ _ _ I' Be (after_self_not_before _ _ _ eq_refl Af)).
    simpl. by rewrite key_eqb_refl, last_snoc.
Qed.

(** What the code does at the two ends of the keys: it returns the key of
    the sentinel, [Key()], and throws nothing. *)
Theorem extremal_neighbour_is_default s ks k :
  reachable s → allKeysInOrder s = Ret ks →
  (head ks = Some k → previousKey s k = Ret key_default) ∧
  (last ks = Some k → nextKey s k = Ret key_default).
Proof.
  intros R Eq. destruct (listed_keys _ _ R Eq) as (ls & rs & E & I & ->). split.
  - destruct E as [|e E2]; [done|]. intros [= <-].
    destruct (sorted_split [] _ _ (inv_sorted _ _ _ _ I)) as [Be Af].
    rewrite (previousKey_Inv s ls rs [] (e :: E2) _ I Be (after_self_not_before _ _ _ eq_refl Af)).
    simpl. by rewrite key_eqb_refl.
  - rewrite fmap_last. destruct (last E) as [e|] eqn:La; [|done]. intros [= <-].
    apply last_Some in La as [E1 ->].
    by rewrite (nextKey_present _ _ _ _ _ _ I).
Qed.

(** A key that is absent and is not [Key()] makes all six queries throw
    the absent-key exception. *)
Theorem absent_key_signals s ks k :
  reachable s → allKeysInOrder s = Ret ks → k ∉ ks →
  height s k = Throw msg_absent_the ∧ find s k = Throw msg_absent_the ∧
  isSmallestKey s k = Throw msg_absent_the ∧ isLargestKey s k = Throw msg_absent_the ∧
  (k ≠ key_default →
   previousKey s k = Throw msg_absent_this ∧ nextKey s k = Throw msg_absent_this).
Proof.
  intros R Eq Nk. destruct (listed_keys _ _ R Eq) as (ls & rs & E & I & ->).
  assert (Ab : ∀ e, e ∈ E → ekey e ≠ k).
  { intros e Ie <-. apply Nk. by apply list_elem_of_fmap_2. }
  split; [by apply (height_absent _ _ _ _ _ I)|].
  split; [by apply (find_absent _ _ _ _ _ I)|].
  split; [by apply (isSmallestKey_absent _ _ _ _ _ I)|].
  split; [by apply (isLargestKey_absent _ _ _ _ _ I)|].
  intros Nd.
  destruct (sorted_locate E k (inv_sorted _ _ _ _ I))
    as (E1 & E3 & Be & Af & [->|(e' & Ek & ->)]).
  2:{ destruct (Ab e'); [|done]. apply elem_of_app. right. by left. }
  split.
  - rewrite (previousKey_Inv _ _ _ _ _ _ I Be (after_not_before _ _ Af)).
    assert (key_eqb (key_or_default (head E3)) k = false) as ->; [|done].
    apply key_eqb_neq. destruct E3 as [|e3 E3]; [done|]. simpl.
    apply Ab, elem_of_app. right. by left.
  - rewrite (nextKey_absent _ _ _ _ _ _ I Be Af).
    assert (key_eqb (key_or_default (last E1)) k = false) as ->; [|done].
    apply key_eqb_neq. destruct E1 as [|e1 E1 _] using rev_ind; [done|].
    rewrite last_snoc. simpl. apply Ab, elem_of_app. left. apply elem_of_app. right. by left.
Qed.

(** The key [Key()] when it is absent: below all the keys, [nextKey]
    takes the left sentinel for it; above all the keys, [previousKey] takes
    the right sentinel for it. *)
Theorem absent_default_key_taken_for_sentinel s ks :
  reachable s → allKeysInOrder s = Ret ks →
  (Forall (key_lt key_default) ks →
   nextKey s key_default = match ks with [] => Throw msg_largest | k :: _ => Ret k end) ∧
  (Forall (λ x, key_lt x key_default) ks →
   previousKey s key_default = Ret (default key_default (last ks))).
Proof.
  intros R Eq. destruct (listed_keys _ _ R Eq) as (ls & rs & E & I & ->). split; intros Fa.
  - assert (Af : after key_default E).
    { apply Forall_forall. intros e Ie. rewrite Forall_forall in Fa.
      by apply Fa, list_elem_of_fmap_2. }
    rewrite (nextKey_absent s ls rs [] E _ I (Forall_nil_2 _) Af).
    simpl. rewrite key_eqb_refl. by destruct E.
  - assert (Be : before key_default E).
    { apply Forall_forall. intros e Ie. rewrite Forall_forall in Fa.
      by apply Fa, list_elem_of_fmap_2. }
    assert (I' : Inv s ls rs (E ++ [])) by by rewrite app_nil_r.
    rewrite (previousKey_Inv _ _ _ _ _ _ I' Be (Forall_nil_2 _)).
    simpl. rewrite key_eqb_refl. f_equal.
    rewrite fmap_last. by destruct (last E).
Qed.

(** [isSmallestKey] and [isLargestKey] of a key that is present say
    whether it is the first, respectively the last, of the keys. *)
Theorem smallest_largest_tests s ks k :
  reachable s → allKeysInOrder s = Ret ks → k ∈ ks →
  ∃ first_one last_one,
    isSmallestKey s k = Ret first_one ∧ (first_one = true ↔ head ks = Some k) ∧
    isLargestKey s k = Ret last_one ∧ (last_one = true ↔ last ks = Some k).
Proof.
  intros R Eq Ik. destruct (listed_keys _ _ R Eq) as (ls & rs & E & I & ->).
  apply list_elem_of_fmap in Ik as (e & -> & Ie).
  eexists _, _. split; [by apply (isSmallestKey_present _ _ _ _ _ I)|].
  split; [|split; [by apply (isLargestKey_present _ _ _ _ _ I)|]].
  - rewrite key_eqb_eq. destruct E as [|e0 E]; [by apply elem_of_nil in Ie|]. simpl.
    split; [by intros ->|by intros [= ->]].
  - rewrite key_eqb_eq, fmap_last.
    destruct (last E) as [el|] eqn:La; simpl.
    + split; [by intros ->|by intros [= ->]].
    + apply last_None in La as ->. by apply elem_of_nil in Ie.
Qed.

End Neighbours.

(** * What the operations do in every reachable state *)

Section Behaviour.
Context {Key Value : Type} `{KeyLaws Key} `{ValueType Value}.

Implicit Types (s : SkipList Key Value) (k : Key) (v : Value) (ks : list Key).
Implicit Types (kvs : list (Key * Value)) (e : @entry Key Value) (E : list (@entry Key Value)).

(** A key is among the entries or it is not. *)
Lemma entry_or_absent E k :
  StronglySorted key_lt (ekey <$> E) →
  (∃ e, e ∈ E ∧ ekey e = k) ∨ (∀ e, e ∈ E → ekey e ≠ k).
Proof.
  intros So. destruct (sorted_locate E k So) as (E1 & E3 & Be & Af & [->|(e & Ek & ->)]).
  - right. intros e Ie. by eapply before_after_absent.
  - left. exists e. split; [|done]. apply elem_of_app. right. by left.
Qed.

(** Under the invariant the queries come back, whatever the key. *)
Lemma queries_settled s ls rs E k :
  Inv s ls rs E →
  settled (height s k) ∧ settled (find s k) ∧
  settled (nextKey s k) ∧ settled (previousKey s k) ∧
  settled (isSmallestKey s k) ∧ settled (isLargestKey s k) ∧
  settled (allKeysInOrder s).
Proof.
  intros I.
  assert (settled (allKeysInOrder s)) by by rewrite (allKeysInOrder_Inv _ _ _ _ I).
  destruct (sorted_locate E k (inv_sorted _ _ _ _ I))
    as (E1 & E3 & Be & Af & [->|(e & <- & ->)]).
  - assert (Ab : ∀ e, e ∈ E1 ++ E3 → ekey e ≠ k) by (intros e Ie; by eapply before_after_absent).
    rewrite (height_absent _ _ _ _ _ I Ab), (find_absent _ _ _ _ _ I Ab).
    rewrite (isSmallestKey_absent _ _ _ _ _ I Ab), (isLargestKey_absent _ _ _ _ _ I Ab).
    rewrite (nextKey_absent _ _ _ _ _ _ I Be Af).
    rewrite (previousKey_Inv _ _ _ _ _ _ I Be (after_not_before _ _ Af)).
    repeat split; try done.
    + destruct (key_eqb _ k); [by destruct E3|done].
    + by destruct (key_eqb _ k).
  - assert (Ie : e ∈ E1 ++ e :: E3) by (apply elem_of_app; right; by left).
    rewrite (height_present _ _ _ _ _ I Ie), (find_present _ _ _ _ _ I Ie).
    rewrite (isSmallestKey_present _ _ _ _ _ I Ie), (isLargestKey_present _ _ _ _ _ I Ie).
    rewrite (nextKey_present _ _ _ _ _ _ I).
    rewrite (previousKey_Inv _ _ _ _ _ _ I Be (after_self_not_before _ _ _ eq_refl Af)).
    simpl. by rewrite key_eqb_refl.
Qed.

(** The six queries and [allKeysInOrder] come back in every reachable
    state, whatever the key: no null pointer is read and every loop ends. *)
Theorem queries_come_back s k :
  reachable s →
  settled (height s k) ∧ settled (find s k) ∧
  settled (nextKey s k) ∧ settled (previousKey s k) ∧
  settled (isSmallestKey s k) ∧ settled (isLargestKey s k) ∧
  settled (allKeysInOrder s).
Proof. intros (ls & rs & E & I)%reachable_Inv. by eapply queries_settled. Qed.

(** [insert] comes back in every reachable state, with [true] exactly
    when the key was not there, and the state it leaves is reachable. *)
Theorem insert_comes_back s ks k v :
  reachable s → allKeysInOrder s = Ret ks →
  ∃ ok s', insert s k v = Ret (ok, s') ∧ (ok = true ↔ k ∉ ks) ∧ reachable s'.
Proof.
  intros R Eq. destruct (listed_keys _ _ R Eq) as (ls & rs & E & I & ->).
  destruct (sorted_locate E k (inv_sorted _ _ _ _ I))
    as (E1 & E3 & Be & Af & [->|(e & <- & ->)]).
  - destruct (insert_absent _ _ _ _ _ _ v I Be Af) as (s' & ls' & rs' & e & Eq' & _).
    exists true, s'. split; [done|]. split; [|by eapply reachable_insert].
    split; [|done]. intros _ (e' & -> & Ie)%list_elem_of_fmap.
    by eapply before_after_absent.
  - assert (Ie : e ∈ E1 ++ e :: E3) by (apply elem_of_app; right; by left).
    exists false, s. split; [by apply (insert_present _ _ _ _ _ v I)|]. split; [|done].
    split; [done|]. intros Nk. destruct Nk. by apply list_elem_of_fmap_2.
Qed.

(** What the insert of a key that is not listed does. *)
Lemma insert_unlisted s ks k v :
  reachable s → allKeysInOrder s = Ret ks → k ∉ ks →
  ∃ s' l1 l2,
    insert s k v = Ret (true, s') ∧
    ks = l1 ++ l2 ∧ Forall (λ x, key_lt x k) l1 ∧ Forall (key_lt k) l2 ∧
    allKeysInOrder s' = Ret (l1 ++ k :: l2) ∧
    size s' = wrap64 (size s + 1) ∧
    find s' k = Ret v ∧
    ∀ k', k' ≠ k → find s' k' = find s k' ∧ height s' k' = height s k'.
Proof.
  intros R Eq Nk. destruct (listed_keys _ _ R Eq) as (ls & rs & E & I & ->).
  destruct (sorted_locate E k (inv_sorted _ _ _ _ I))
    as (E1 & E3 & Be & Af & [->|(e & <- & ->)]).
  2:{ destruct Nk. apply list_elem_of_fmap_2, elem_of_app. right. by left. }
  destruct (insert_absent _ _ _ _ _ _ v I Be Af)
    as (s' & ls' & rs' & e & Eq' & I' & Ke & Ve & _ & _ & _ & Sz).
  assert (Ie : e ∈ E1 ++ e :: E3) by (apply elem_of_app; right; by left).
  exists s', (ekey <$> E1), (ekey <$> E3).
  split; [done|]. split; [by rewrite fmap_app|].
  split; [by apply Forall_fmap|]. split; [by apply Forall_fmap|].
  split; [by rewrite (allKeysInOrder_Inv _ _ _ _ I'), fmap_app, fmap_cons, Ke|].
  split; [done|].
  split; [by rewrite <- Ke, <- Ve; apply (find_present _ _ _ _ _ I')|].
  intros k' Nk'.
  destruct (entry_or_absent (E1 ++ E3) k' (inv_sorted _ _ _ _ I)) as [(e' & Ie' & <-)|Ab].
  - assert (Ie'' : e' ∈ E1 ++ e :: E3).
    { apply elem_of_app in Ie' as [?|?]; apply elem_of_app; [by left|right; by right]. }
    rewrite (find_present _ _ _ _ _ I Ie'), (find_present _ _ _ _ _ I' Ie'').
    by rewrite (height_present _ _ _ _ _ I Ie'), (height_present _ _ _ _ _ I' Ie'').
  - assert (Ab' : ∀ e', e' ∈ E1 ++ e :: E3 → ekey e' ≠ k').
    { intros e' [?|[->|?]%elem_of_cons]%elem_of_app.
      - apply Ab, elem_of_app. by left.
      - by rewrite Ke.
      - apply Ab, elem_of_app. by right. }
    rewrite (find_absent _ _ _ _ _ I Ab), (find_absent _ _ _ _ _ I' Ab').
    by rewrite (height_absent _ _ _ _ _ I Ab), (height_absent _ _ _ _ _ I' Ab').
Qed.

(** A new key goes to its place among the listed keys; it is found with
    its value, the size grows by one, and the values and heights of all the
    other keys, present or not, are what they were. *)
Theorem insert_new_key s ks k v :
  reachable s → allKeysInOrder s = Ret ks → k ∉ ks →
  ∃ s' l1 l2,
    insert s k v = Ret (true, s') ∧
    ks = l1 ++ l2 ∧ Forall (λ x, key_lt x k) l1 ∧ Forall (key_lt k) l2 ∧
    allKeysInOrder s' = Ret (l1 ++ k :: l2) ∧
    size s' = wrap64 (size s + 1) ∧
    find s' k = Ret v ∧
    ∀ k', k' ≠ k → find s' k' = find s k' ∧ height s' k' = height s k'.
Proof. apply insert_unlisted. Qed.

(** The listing is strictly increasing, so without repetition; [size] is
    its length, as a [size_t], and [isEmpty] says whether it is empty. *)
Theorem listing_size_isEmpty s :
  reachable s →
  ∃ ks, allKeysInOrder s = Ret ks ∧ StronglySorted key_lt ks ∧ NoDup ks ∧
        size s = wrap64 (Z.of_nat (length ks)) ∧
        ((Z.of_nat (length ks) < 2 ^ 64)%Z → (isEmpty s = true ↔ ks = [])).
Proof.
  intros (ls & rs & E & I)%reachable_Inv.
  exists (ekey <$> E). split; [by apply (allKeysInOrder_Inv _ _ _ _ I)|].
  pose proof (inv_sorted _ _ _ _ I) as So. split; [done|].
  split.
  { clear I. induction So as [|x l So IH Fa]; constructor; [|done].
    intros Ix. rewrite Forall_forall in Fa. apply Fa in Ix.
    unfold key_lt in Ix. by rewrite key_ltb_irrefl in Ix. }
  unfold size, isEmpty. rewrite (inv_size _ _ _ _ I), length_fmap. split; [done|].
  intros Bd. rewrite wrap64_small by lia. rewrite Z.eqb_eq.
  destruct E; simpl; split; (done || lia).
Qed.

Lemma first_value_None k kvs : first_value k kvs = None ↔ k ∉ (kvs.*1).
Proof.
  induction kvs as [|[k' v] kvs IH]; simpl.
  - split; [by intros _ ?%elem_of_nil|done].
  - rewrite not_elem_of_cons. destruct (key_eqb k' k) eqn:Ek.
    + apply key_eqb_eq in Ek as ->. split; [done|]. by intros [? _].
    + apply key_eqb_neq in Ek. rewrite IH. split; [by split|by intros [_ ?]].
Qed.

(** [find] in a reachable state returns or throws the absent-key
    exception, according to the listing. *)
Lemma find_listed s ks k :
  reachable s → allKeysInOrder s = Ret ks →
  (k ∈ ks ∧ (∃ v, find s k = Ret v)) ∨ ((k ∉ ks) ∧ find s k = Throw msg_absent_the).
Proof.
  intros R Eq. destruct (listed_keys _ _ R Eq) as (ls & rs & E & I & ->).
  destruct (entry_or_absent E k (inv_sorted _ _ _ _ I)) as [(e & Ie & <-)|Ab].
  - left. split; [by apply list_elem_of_fmap_2|].
    exists (evalue e). by apply (find_present _ _ _ _ _ I).
  - right. split; [|by apply (find_absent _ _ _ _ _ I)].
    intros (e & -> & Ie)%list_elem_of_fmap. by apply (Ab e).
Qed.

(** A run of inserts, repeated keys or not: every call comes back, the
    calls that return [true] are those of the keys that were not there yet,
    the listing gains exactly the keys of the run, the keys that were there
    keep their heights, and every key keeps the value of the first insert
    that brought it in. *)
Theorem first_insert_wins kvs : ∀ s ks,
  reachable s → allKeysInOrder s = Ret ks →
  ∃ n s' ks',
    insert_all s kvs = Ret (n, s') ∧ reachable s' ∧
    allKeysInOrder s' = Ret ks' ∧
    (∀ k, k ∈ ks' ↔ k ∈ ks ∨ k ∈ (kvs.*1)) ∧
    length ks' = length ks + n ∧
    (∀ k, k ∈ ks → height s' k = height s k) ∧
    ∀ k, find s' k =
           match find s k, first_value k kvs with
           | Ret v, _ => Ret v
           | _, Some v => Ret v
           | _, None => Throw msg_absent_the
           end.
Proof.
  induction kvs as [|[k0 v0] kvs IH]; intros s ks R Eq.
  - exists 0, s, ks. split; [done|]. split; [done|]. split; [done|].
    split; [intros k; rewrite elem_of_nil; tauto|]. split; [lia|]. split; [done|].
    intros k. simpl. by destruct (find_listed s ks k R Eq) as [[_ [v ->]]|[_ ->]].
  - destruct (find_listed s ks k0 R Eq) as [[Ik _]|[Nk _]].
    + (* the key is there: the call changes nothing *)
      pose proof Eq as Eq0.
      destruct (listed_keys _ _ R Eq) as (ls & rs & E & I & ->).
      apply list_elem_of_fmap in Ik as (e & -> & Ie).
      pose proof (insert_present _ _ _ _ _ v0 I Ie) as Ei.
      destruct (IH s _ R Eq0) as (n & s' & ks' & Er & R' & El & Mem & Len & Hk & Fi).
      exists n, s', ks'. split; [by cbn [insert_all]; rewrite Ei; cbn [bind]; rewrite Er|].
      split; [done|]. split; [done|]. split; [|split; [done|split; [done|]]].
      * intros k. rewrite Mem, fmap_cons, elem_of_cons. simpl. split; [tauto|].
        intros [?|[->|?]]; [tauto| |tauto]. left. by apply list_elem_of_fmap_2.
      * intros k. rewrite Fi. simpl.
        destruct (key_eqb (ekey e) k) eqn:Ek; [|done].
        apply key_eqb_eq in Ek as <-. by rewrite (find_present _ _ _ _ _ I Ie).
    + destruct (insert_unlisted s ks k0 v0 R Eq Nk)
        as (s1 & l1 & l2 & Ei & -> & F1 & F2 & El1 & _ & Fk & Fo).
      assert (R1 : reachable s1) by by eapply reachable_insert.
      destruct (IH s1 _ R1 El1) as (n & s' & ks' & Er & R' & El & Mem & Len & Hk & Fi).
      exists (S n), s', ks'.
      split; [by cbn [insert_all]; rewrite Ei; cbn [bind]; rewrite Er|].
      split; [done|]. split; [done|]. split; [|split; [|split]].
      * intros k. rewrite Mem, fmap_cons, !elem_of_app, !elem_of_cons. simpl.
        tauto.
      * rewrite Len, !length_app. simpl. lia.
      * intros k Ik. rewrite Hk.
        -- apply Fo. by intros ->.
        -- apply elem_of_app in Ik as [?|?]; apply elem_of_app; [by left|right; by right].
      * intros k. rewrite Fi. simpl.
        destruct (key_eqb k0 k) eqn:Ek.
        -- apply key_eqb_eq in Ek as <-. rewrite Fk.
           by destruct (find_listed s _ k0 R Eq) as [[? _]|[_ ->]].
        -- apply key_eqb_neq in Ek. by destruct (Fo k ltac:(done)) as [-> _].
Qed.

(** The layer count is two in an empty engine and otherwise one more than
    the height of a tallest key; every height is below it. *)
Theorem layers_above_tallest_tower s ks :
  reachable s → allKeysInOrder s = Ret ks →
  (ks = [] → numLayers s = 2%Z) ∧
  (∀ k, k ∈ ks → ∃ hk, height s k = Ret hk ∧ (1 ≤ hk < numLayers s)%Z) ∧
  (ks ≠ [] → ∃ k, k ∈ ks ∧ height s k = Ret (numLayers s - 1)%Z).
Proof.
  intros (ls & rs & E & [I Cn Ly Cp])%reachable_Full Eq.
  rewrite (allKeysInOrder_Inv _ _ _ _ I) in Eq. injection Eq as <-.
  unfold numLayers. rewrite (inv_layer_num _ _ _ _ I).
  split; [|split].
  - intros ->%fmap_nil_inv. by rewrite Ly.
  - intros k (e & -> & Ie)%list_elem_of_fmap.
    exists (Z.of_nat (length (etower e))). split; [by apply (height_present _ _ _ _ _ I)|].
    pose proof (inv_towers _ _ _ _ I e Ie). lia.
  - intros Ne. destruct (layers_of_attained E) as (e & Ie & Le).
    + by intros ->.
    + intros e Ie. pose proof (inv_towers _ _ _ _ I e Ie). lia.
    + exists (ekey e). split; [by apply list_elem_of_fmap_2|].
      rewrite (height_present _ _ _ _ _ I Ie). f_equal. lia.
Qed.

(** The layer count, and with it every height, stays within the cap of the
    current size: 13 up to 16 keys, [3 * ceil(log2 n) + 1] beyond. *)
Theorem layers_within_cap s ks :
  reachable s → allKeysInOrder s = Ret ks → (Z.of_nat (length ks) < 2 ^ 64)%Z →
  (numLayers s ≤
   if 16 <? Z.of_nat (length ks) then 3 * Z.log2_up (Z.of_nat (length ks)) + 1 else 13)%Z.
Proof.
  intros (ls & rs & E & [I Cn Ly Cp])%reachable_Full Eq Bd.
  rewrite (allKeysInOrder_Inv _ _ _ _ I) in Eq. injection Eq as <-.
  rewrite length_fmap in *. destruct (Cp Bd) as [Cm Cl].
  unfold numLayers. rewrite Cm in Cl. unfold cap_of in Cl.
  destruct (Z.ltb_spec 16 (Z.of_nat (length E))); [|done].
  by rewrite layer_cap_exact in Cl by lia.
Qed.

(** In every reachable state the destructor deletes every node of the
    arena exactly once, and reads no node it has deleted. *)
Theorem destructor_deletes_every_node_once s :
  reachable s →
  ∃ dead, SkipList_dtor s = Ret dead ∧ dead ≡ₚ seq 0 (length (heap s)).
Proof.
  intros (ls & rs & E & [I Cn Ly Cp])%reachable_Full.
  pose proof (inv_shape _ _ _ _ I) as Sh.
  pose proof (inv_layers _ _ _ _ I) as HL.
  pose proof (inv_fuel _ _ _ _ I) as Fu.
  pose proof (shape_length _ _ _ _ Sh) as Len.
  pose proof (shape_nodup _ _ _ _ Sh) as ND.
  destruct (Inv_top _ _ _ _ I) as (tl & tr & Tl & Tr & Ltl & Ltr).
  exists (layers_down ls rs E (pred (length ls))). split.
  - unfold SkipList_dtor. rewrite Tl.
    rewrite (delete_layers_spec _ _ _ _ Sh ltac:(lia) _ _ [] _ Ltl); [done|lia|].
    by intros x ?%elem_of_nil.
  - transitivity (ls ++ rs ++ towers E).
    + apply NoDup_Permutation; [apply layers_down_NoDup; (done || lia)|done|].
      intros x. rewrite elem_of_layers_down. split.
      * intros (j & _ & O). by eapply on_layer_elem.
      * rewrite !elem_of_app.
        intros [(j & Lj)%list_elem_of_lookup|[(j & Lj)%list_elem_of_lookup
                 |(e & Ie & (j & Lj)%list_elem_of_lookup)%elem_of_towers]].
        -- exists j. split; [apply lookup_lt_Some in Lj; lia|by left].
        -- exists j. split; [apply lookup_lt_Some in Lj; lia|right; by left].
        -- exists j. split.
           ++ pose proof (inv_towers _ _ _ _ I e Ie). apply lookup_lt_Some in Lj. lia.
           ++ right. right. apply elem_of_row. by exists e.
    + apply submseteq_length_Permutation.
      * apply NoDup_submseteq; [done|]. intros x Ix. apply elem_of_seq.
        pose proof (Shape_valid _ _ _ _ _ Sh Ix). lia.
      * rewrite length_seq, !length_app. lia.
Qed.

(** The overload of [find] that returns a reference: it throws for a key
    that is not listed; for a listed key the reference designates a node
    that carries this key and the value that the other overload returns,
    and after any later inserts it is still the node that [find] designates,
    with the same value. *)
Theorem find_reference_is_stable s ks k :
  reachable s → allKeysInOrder s = Ret ks →
  (k ∉ ks → find_ref s k = Throw msg_absent_the) ∧
  (k ∈ ks →
   ∃ a nd, find_ref s k = Ret (Some a) ∧ heap s !! a = Some nd ∧
           key nd = k ∧ find s k = Ret (value nd) ∧
           ∀ kvs n s', insert_all s kvs = Ret (n, s') →
             ∃ nd', find_ref s' k = Ret (Some a) ∧ heap s' !! a = Some nd' ∧
                    key nd' = k ∧ value nd' = value nd).
Proof.
  intros R Eq. destruct (listed_keys _ _ R Eq) as (ls & rs & E & I & ->). split.
  - intros Nk.
    assert (Ab : ∀ e, e ∈ E → ekey e ≠ k).
    { intros e Ie <-. apply Nk. by apply list_elem_of_fmap_2. }
    destruct (locate_Inv_absent _ _ _ _ _ I Ab) as (c & Lo).
    destruct (top_left_layer _ _ _ _ I) as (n & tl & It & Tl & Ltl).
    unfold find_ref. rewrite It, Tl in *.
    by rewrite (find_ref_for_locate _ _ _ _ _ (inv_shape _ _ _ _ I) _ _ _ Ltl), Lo.
  - intros (e & -> & Ie)%list_elem_of_fmap.
    destruct (find_ref_present _ _ _ _ _ I Ie) as (a & nd & Fr & La & Hn & Kn & Vn).
    exists a, nd. split; [done|]. split; [done|]. split; [done|].
    split; [by rewrite Vn; apply (find_present _ _ _ _ _ I)|].
    intros kvs n s' Er.
    destruct (insert_all_Inv _ _ _ _ _ _ _ I Er) as (ls' & rs' & E' & I' & Sub).
    destruct (find_ref_present _ _ _ _ _ I' (Sub e Ie)) as (a' & nd' & Fr' & La' & Hn' & Kn' & Vn').
    assert (a' = a) as -> by congruence.
    exists nd'. by rewrite Vn, Vn'.
Qed.

Lemma revalue_heap_one (h : list (Node Key Value)) n a nd w :
  h !! a = Some nd →
  revalue_heap n (λ a' v, if decide (a' = a) then w else v) h =
    if a <? n then <[a := set_value w nd]> h else h.
Proof.
  intros Ha. apply list_eq. intros i. unfold revalue_heap. rewrite list_lookup_imap.
  assert (Id : ∀ x : Node Key Value, set_value (value x) x = x) by by intros [].
  destruct (Nat.ltb_spec a n) as [Lt|Ge].
  - destruct (decide (i = a)) as [->|Ne].
    + rewrite list_lookup_insert_eq by by eapply lookup_lt_Some. rewrite Ha. simpl.
      unfold renode. rewrite (proj2 (Nat.ltb_lt _ _) Lt). by rewrite decide_True.
    + rewrite list_lookup_insert_ne by done. destruct (h !! i) as [x|]; [|done]. simpl.
      unfold renode. destruct (i <? n); [|done]. by rewrite decide_False, Id.
  - destruct (h !! i) as [x|] eqn:Hi; [|done]. simpl. unfold renode.
    destruct (Nat.ltb_spec i n); [|done]. rewrite decide_False by lia. by rewrite Id.
Qed.

(** Assigning through the reference that [find(k)] returns, [find(k) = w]:
    one value field changes; from then on, also after later inserts,
    [find(k)] returns the assigned value and [find] of every other key
    returns what it would have returned. *)
Theorem assignment_through_find s ks k w :
  reachable s → allKeysInOrder s = Ret ks → k ∈ ks →
  ∃ a nd, find_ref s k = Ret (Some a) ∧ heap s !! a = Some nd ∧
    let written := revalue (length (heap s)) (λ a' v, if decide (a' = a) then w else v) in
    heap (written s) = <[a := set_value w nd]> (heap s) ∧
    ∀ kvs m s',
      insert_all s kvs = Ret (m, s') →
      insert_all (written s) kvs = Ret (m, written s') ∧
      find (written s') k = Ret w ∧
      ∀ k', k' ≠ k → find (written s') k' = find s' k'.
Proof.
  intros R Eq Ik. destruct (listed_keys _ _ R Eq) as (ls & rs & E & I & ->).
  apply list_elem_of_fmap in Ik as (e & -> & Ie).
  destruct (find_ref_present _ _ _ _ _ I Ie) as (a & nd & Fr & La & Hn & Kn & Vn).
  exists a, nd. split; [done|]. split; [done|]. intros written.
  assert (Va : a < length (heap s)) by by eapply lookup_lt_Some.
  split.
  { unfold written. cbn [revalue heap]. rewrite (revalue_heap_one _ _ _ _ _ Hn).
    by rewrite (proj2 (Nat.ltb_lt _ _) Va). }
  intros kvs m s' Er.
  split.
  { unfold written. rewrite insert_all_revalue by done. by rewrite Er. }
  destruct (insert_all_Inv _ _ _ _ _ _ _ I Er) as (ls' & rs' & E' & I' & Sub).
  destruct (find_ref_present _ _ _ _ _ I' (Sub e Ie))
    as (a' & nd' & Fr' & La' & Hn' & Kn' & Vn').
  assert (a' = a) as -> by congruence.
  split.
  - unfold written. rewrite find_revalue, Fr'. cbn [bind].
    rewrite (load_Some _ _ _ Hn'). cbn [bind reread].
    unfold renode. rewrite (proj2 (Nat.ltb_lt _ _) Va). simpl. by rewrite decide_True.
  - intros k' Nk'. unfold written. rewrite find_revalue.
    destruct (entry_or_absent E' k' (inv_sorted _ _ _ _ I')) as [(e' & Ie' & <-)|Ab].
    + destruct (find_ref_present _ _ _ _ _ I' Ie') as (a' & nd2 & Fr2 & _ & Hn2 & Kn2 & Vn2).
      rewrite Fr2, (find_present _ _ _ _ _ I' Ie'). cbn [bind].
      rewrite (load_Some _ _ _ Hn2). cbn [bind reread]. f_equal. rewrite <- Vn2.
      unfold renode. destruct (a' <? length (heap s)); [|done]. simpl.
      rewrite decide_False; [done|]. intros ->. congruence.
    + destruct (locate_Inv_absent _ _ _ _ _ I' Ab) as (c & Lo).
      destruct (top_left_layer _ _ _ _ I') as (n' & tl & It & Tl & Ltl).
      rewrite (find_absent _ _ _ _ _ I' Ab).
      unfold find_ref. rewrite It, Tl in *.
      by rewrite (find_ref_for_locate _ _ _ _ _ (inv_shape _ _ _ _ I') _ _ _ Ltl), Lo.
Qed.

End Behaviour.

(** * What [print] writes *)

Section PrintFacts.
Context {Key Value : Type} `{KeyLaws Key} `{ValueType Value}.
Context `{Printable Key} `{Printable Value}.

Implicit Types (s : SkipList Key Value) (h : list (Node Key Value)) (k : Key).
Implicit Types (e : @entry Key Value) (E : list (@entry Key Value)) (ls rs l : list nat).

Lemma string_app_assoc (x y z : string) : ((x ++ y) ++ z = x ++ (y ++ z))%string.
Proof. induction x as [|a x IH]; simpl; [done|]. by rewrite IH. Qed.

Lemma string_app_nil_r (x : string) : (x ++ "" = x)%string.
Proof. induction x as [|a x IH]; simpl; [done|]. by rewrite IH. Qed.

Lemma cells_app h l1 l2 : (cells h (l1 ++ l2) = cells h l1 ++ cells h l2)%string.
Proof.
  induction l1 as [|a l1 IH]; simpl; [done|].
  destruct (h !! a); [|done]. by rewrite IH, string_app_assoc.
Qed.

Lemma print_row_seg h l : ∀ a out fuel,
  lseg h a l None → length l < fuel →
  print_row fuel h (Some a) out = Ret (out ++ cells h (a :: l))%string.
Proof.
  induction l as [|b l IH]; intros a out fuel Sg Fu.
  - destruct fuel as [|fuel]; [simpl in Fu; lia|].
    apply fld_Some in Sg as (nd & Hn & Nn).
    cbn [print_row cells]. rewrite (load_Some _ _ _ Hn), Hn. cbn [bind]. rewrite Nn.
    destruct fuel; simpl; by rewrite string_app_nil_r.
  - destruct fuel as [|fuel]; [simpl in Fu; lia|].
    destruct Sg as [(nd & Hn & Nn)%fld_Some Sg].
    cbn [print_row]. rewrite (load_Some _ _ _ Hn). cbn [bind]. rewrite Nn.
    rewrite (IH b _ fuel Sg) by (simpl in Fu; lia).
    change (cells h (a :: b :: l)) with
      (match h !! a with
       | Some nd => (cell (key nd) (value nd) ++ cells h (b :: l))%string
       | None => cells h (b :: l)
       end).
    by rewrite Hn, string_app_assoc.
Qed.

(** The cells of a row are the cells of the keys that reach its layer. *)
Lemma cells_row s ls rs E i :
  Inv s ls rs E → ∀ E', (∀ e, e ∈ E' → e ∈ E) →
  cells (heap s) (row i E') = line_cells s i (ekey <$> E').
Proof.
  intros I. induction E' as [|e E' IH]; intros Sub; [done|].
  assert (Ie : e ∈ E) by (apply Sub; by left).
  rewrite fmap_cons. cbn [line_cells].
  rewrite (height_present _ _ _ _ _ I Ie), (find_present _ _ _ _ _ I Ie).
  specialize (IH ltac:(intros e' Ie'; apply Sub; by right)).
  destruct (Z.ltb_spec (Z.of_nat i) (Z.of_nat (length (etower e)))) as [Lt|Ge].
  - destruct (lookup_lt_is_Some_2 (etower e) i) as [a La]; [lia|].
    rewrite (row_cons_Some _ _ _ _ La). cbn [cells].
    destruct (shape_tower _ _ _ _ (inv_shape _ _ _ _ I) e i a Ie La)
      as ((nd & Hn & Kn)%fld_Some & (nd' & Hn' & Vn)%fld_Some & _).
    assert (nd' = nd) as -> by congruence.
    by rewrite Hn, Kn, Vn, IH.
  - rewrite row_cons_None; [done|]. apply lookup_ge_None. lia.
Qed.

Lemma cells_sentinel h a nd : h !! a = Some nd → key nd = key_default →
  cells h [a] = "(-, -) -> "%string.
Proof. intros Hn Kn. simpl. rewrite Hn, Kn. unfold cell. by rewrite key_eqb_refl. Qed.

(** Printing from layer [i] downwards writes the lines of the layers
    [i], ..., 0. *)
Lemma print_layers_spec s ls rs E :
  Inv s ls rs E →
  ∀ i sl out fuel,
    ls !! i = Some sl → i < fuel →
    print_layers fuel (heap s) (Some sl) out =
      Ret (out ++ (layer_line s (ekey <$> E) <$> rev (seq 0 (S i)))).
Proof.
  intros I.
  pose proof (inv_shape _ _ _ _ I) as Sh.
  pose proof (inv_layers _ _ _ _ I) as HL.
  pose proof (inv_fuel _ _ _ _ I) as Fu.
  assert (Line : ∀ i sl, ls !! i = Some sl →
    print_row (length (heap s)) (heap s) (Some sl) "" =
      Ret ("(-, -) -> " ++ line_cells s i (ekey <$> E) ++ "(-, -) -> ")%string).
  { intros i sl Ll.
    assert (is_Some (rs !! i)) as [sr Lr].
    { apply lookup_lt_is_Some. rewrite <- (shape_length _ _ _ _ Sh). by eapply lookup_lt_Some. }
    rewrite (print_row_seg _ _ _ _ _ (shape_chain _ _ _ _ Sh _ _ _ Ll Lr)).
    2:{ rewrite length_app. simpl. pose proof (length_row i E). lia. }
    destruct (shape_left _ _ _ _ Sh _ _ Ll) as ((ndl & Hl & Kl)%fld_Some & _).
    destruct (shape_right _ _ _ _ Sh _ _ Lr) as ((ndr & Hr & Kr)%fld_Some & _).
    change (sl :: row i E ++ [sr]) with ([sl] ++ row i E ++ [sr]).
    rewrite !cells_app, (cells_sentinel _ _ _ Hl Kl), (cells_sentinel _ _ _ Hr Kr).
    by rewrite (cells_row _ _ _ _ _ I E (λ e Ie, Ie)). }
  induction i as [|i IH]; intros sl out fuel Ll Hf.
  - destruct fuel as [|fuel]; [lia|].
    destruct (shape_left _ _ _ _ Sh _ _ Ll) as (_ & (nd & Hn & Dn)%fld_Some & _).
    cbn [print_layers]. rewrite (Line _ _ Ll). cbn [bind].
    rewrite (load_Some _ _ _ Hn). cbn [bind]. rewrite Dn. simpl below.
    destruct fuel; simpl; unfold layer_line; by rewrite !string_app_assoc.
  - destruct fuel as [|fuel]; [lia|].
    assert (is_Some (ls !! i)) as [sl' Ll'].
    { apply lookup_lt_is_Some. apply lookup_lt_Some in Ll. lia. }
    destruct (shape_left _ _ _ _ Sh _ _ Ll) as (_ & (nd & Hn & Dn)%fld_Some & _).
    cbn [print_layers]. rewrite (Line _ _ Ll). cbn [bind].
    rewrite (load_Some _ _ _ Hn). cbn [bind]. rewrite Dn. simpl below. rewrite Ll'.
    rewrite (IH sl' _ fuel Ll') by lia.
    rewrite (seq_S (S i)), rev_unit, fmap_cons, <- app_assoc. simpl.
    unfold layer_line at 2. by rewrite !string_app_assoc.
Qed.

(** [print] writes one line for each layer, the topmost first; the line of
    layer [i] shows, between two sentinels, the keys of height above [i] in
    increasing order with their values, a key equal to [Key()] as a
    sentinel. *)
Theorem print_writes_the_layers s ks :
  reachable s → allKeysInOrder s = Ret ks →
  print s = Ret (layer_line s ks <$> rev (seq 0 (Z.to_nat (numLayers s)))).
Proof.
  intros R Eq. destruct (listed_keys _ _ R Eq) as (ls & rs & E & I & ->).
  pose proof (inv_layers _ _ _ _ I) as HL. pose proof (inv_fuel _ _ _ _ I) as Fu.
  destruct (Inv_top _ _ _ _ I) as (tl & tr & Tl & Tr & Ltl & Ltr).
  unfold print, numLayers. rewrite Tl, (inv_layer_num _ _ _ _ I), Nat2Z.id.
  rewrite (print_layers_spec _ _ _ _ I _ _ [] _ Ltl) by lia.
  by replace (S (pred (length ls))) with (length ls) by lia.
Qed.

End PrintFacts.

(** * Sequences of calls, with assignments through [find] *)

Section Calls.
Context {Key Value : Type} `{KeyLaws Key} `{ValueType Value}.
Context `{Printable Key} `{Printable Value}.

Implicit Types (s : SkipList Key Value) (h : list (Node Key Value)) (nd : Node Key Value).
Implicit Types (k : Key) (v w x : Value) (f : nat → Value → Value) (a n : nat).
Implicit Types (e : @entry Key Value) (E : list (@entry Key Value)) (ls rs : list nat).
Implicit Types (op : operation Key Value) (ops : list (operation Key Value)).

(** The engine [s] after assignments through references: the value of the
    node at [a] went from [x] to [f a x]. *)
#[local] Abbreviation written f s := (revalue (length (heap s)) f s).

(** The assignments went to the topmost nodes of the towers of [E] only. *)
#[local] Abbreviation on_tops f E := (∀ a, ¬ tops E a → ∀ x, f a x = x).

Lemma set_value_id nd : set_value (value nd) nd = nd.
Proof. by destruct nd. Qed.

Lemma revalue_id n s : revalue n (λ _ x, x) s = s.
Proof.
  destruct s as [h ? ? ? ? ? ? ?]. unfold revalue. cbn. f_equal.
  apply list_eq. intros i. unfold revalue_heap. rewrite list_lookup_imap.
  destruct (h !! i) as [nd|]; [|done]. simpl. unfold renode.
  destruct (i <? n); [|done]. by rewrite set_value_id.
Qed.

Lemma revalue_extend n m f s :
  n ≤ m → revalue n f s = revalue m (λ a x, if a <? n then f a x else x) s.
Proof.
  intros Le. unfold revalue. f_equal.
  apply list_eq. intros i. unfold revalue_heap. rewrite !list_lookup_imap.
  destruct (heap s !! i) as [nd|]; [|done]. simpl. unfold renode.
  destruct (Nat.ltb_spec i n), (Nat.ltb_spec i m); try done; try lia.
  by rewrite set_value_id.
Qed.

(** Assigning through the reference of [find] is one more write. *)
Lemma assign_written f s a nd k w :
  find_ref s k = Ret (Some a) → heap s !! a = Some nd →
  assign (written f s) k w = Ret (written (λ a' x, if decide (a' = a) then w else f a' x) s).
Proof.
  intros Fr Hn. assert (Va : a < length (heap s)) by by eapply lookup_lt_Some.
  unfold assign. rewrite find_ref_revalue, Fr. cbn [bind revalue heap listSize top_left
    bot_left top_right bot_right layer_num max_layer_num].
  assert (Hr : revalue_heap (length (heap s)) f (heap s) !! a
               = Some (renode (length (heap s)) f a nd)).
  { unfold revalue_heap. by rewrite list_lookup_imap, Hn. }
  rewrite (store_Some _ _ _ _ Hr). cbn [bind]. unfold revalue. do 2 f_equal.
  apply list_eq. intros i. unfold revalue_heap.
  destruct (decide (i = a)) as [->|Ne].
  - rewrite list_lookup_insert_eq by by rewrite length_imap.
    rewrite list_lookup_imap, Hn. simpl. unfold renode.
    rewrite (proj2 (Nat.ltb_lt _ _) Va), decide_True by done. done.
  - rewrite list_lookup_insert_ne by done. rewrite !list_lookup_imap.
    destruct (heap s !! i) as [x|]; [|done]. simpl. unfold renode.
    destruct (i <? length (heap s)); [|done]. by rewrite decide_False.
Qed.

(** *** The topmost nodes of the towers *)

Lemma top_is_Some s ls rs E e : Inv s ls rs E → e ∈ E → ∃ a, last (etower e) = Some a.
Proof.
  intros I Ie. destruct (inv_towers _ _ _ _ I e Ie) as [T1 _].
  destruct (etower e) as [|b l] eqn:Et; [simpl in T1; lia|].
  apply (last_is_Some (b :: l)). done.
Qed.

Lemma top_node s ls rs E e a :
  Inv s ls rs E → e ∈ E → last (etower e) = Some a →
  ∃ nd, find_ref s (ekey e) = Ret (Some a) ∧ heap s !! a = Some nd ∧
        key nd = ekey e ∧ value nd = evalue e.
Proof.
  intros I Ie La.
  destruct (find_ref_present _ _ _ _ _ I Ie) as (a' & nd & Fr & La' & Hn & Kn & Vn).
  assert (a' = a) as -> by congruence. by exists nd.
Qed.

Lemma top_unique s ls rs E e1 e2 a :
  Inv s ls rs E → e1 ∈ E → e2 ∈ E →
  last (etower e1) = Some a → last (etower e2) = Some a → e1 = e2.
Proof.
  intros I I1 I2 L1 L2.
  destruct (top_node _ _ _ _ _ _ I I1 L1) as (n1 & _ & H1' & K1 & _).
  destruct (top_node _ _ _ _ _ _ I I2 L2) as (n2 & _ & H2' & K2 & _).
  apply (sorted_key_unique _ _ _ (inv_sorted _ _ _ _ I)); [done..|congruence].
Qed.

Lemma find_ref_absent s ls rs E k :
  Inv s ls rs E → (∀ e, e ∈ E → ekey e ≠ k) → find_ref s k = Throw msg_absent_the.
Proof.
  intros I Ab.
  destruct (locate_Inv_absent _ _ _ _ _ I Ab) as (c & Lo).
  destruct (top_left_layer _ _ _ _ I) as (n & tl & It & Tl & Ltl).
  unfold find_ref. rewrite It, Tl in *.
  by rewrite (find_ref_for_locate _ _ _ _ _ (inv_shape _ _ _ _ I) _ _ _ Ltl), Lo.
Qed.

(** [find] after the writes returns what was written last to the topmost
    node of the tower. *)
Lemma find_written s ls rs E f e a :
  Inv s ls rs E → e ∈ E → last (etower e) = Some a →
  find (written f s) (ekey e) = Ret (f a (evalue e)).
Proof.
  intros I Ie La. destruct (top_node _ _ _ _ _ _ I Ie La) as (nd & Fr & Hn & _ & Vn).
  rewrite find_revalue, Fr. cbn [bind]. rewrite (load_Some _ _ _ Hn). cbn [bind reread].
  unfold renode. rewrite (proj2 (Nat.ltb_lt _ _) (lookup_lt_Some _ _ _ Hn)). simpl.
  by rewrite Vn.
Qed.

Lemma find_written_settled s ls rs E f k : Inv s ls rs E → settled (find (written f s) k).
Proof.
  intros I. destruct (entry_or_absent E k (inv_sorted _ _ _ _ I)) as [(e & Ie & <-)|Ab].
  - destruct (top_is_Some _ _ _ _ _ I Ie) as [a La].
    by rewrite (find_written _ _ _ _ _ _ _ I Ie La).
  - by rewrite find_revalue, (find_ref_absent _ _ _ _ _ I Ab).
Qed.

(** *** [print] after the writes *)

Lemma print_row_revalue n f h : ∀ fuel p out o,
  print_row fuel h p out = Ret o →
  ∀ out', ∃ o', print_row fuel (revalue_heap n f h) p out' = Ret o'.
Proof.
  induction fuel as [|fuel IH]; intros [a|] out o Eq out'; try by eexists.
  cbn [print_row] in *. rewrite load_revalue.
  destruct (load h (Some a)) as [c| | |]; try done. cbn [bind] in *.
  rewrite next_reread. by eapply IH.
Qed.

Lemma print_layers_revalue n f h : ∀ fuel p out o,
  print_layers fuel h p out = Ret o →
  ∀ out', ∃ o', print_layers fuel (revalue_heap n f h) p out' = Ret o'.
Proof.
  induction fuel as [|fuel IH]; intros [a|] out o Eq out'; try by eexists.
  cbn [print_layers] in *. rewrite length_revalue_heap.
  destruct (print_row (length h) h (Some a) "") as [line| | |] eqn:Er; try done.
  destruct (print_row_revalue n f h _ _ _ _ Er ""%string) as [line' ->].
  cbn [bind] in *. rewrite load_revalue.
  destruct (load h (Some a)) as [c| | |]; try done. cbn [bind] in *.
  rewrite down_reread. by eapply IH.
Qed.

Lemma print_written s ls rs E f : Inv s ls rs E → ∃ out, print (written f s) = Ret out.
Proof.
  intros I.
  pose proof (inv_layers _ _ _ _ I) as HL. pose proof (inv_fuel _ _ _ _ I) as Fu.
  destruct (Inv_top _ _ _ _ I) as (tl & tr & Tl & Tr & Ltl & Ltr).
  unfold print. cbn [revalue heap top_left]. rewrite length_revalue_heap, Tl.
  eapply print_layers_revalue.
  apply (print_layers_spec _ _ _ _ I _ _ [] _ Ltl). lia.
Qed.

(** *** One operation *)

Lemma caught_settled {A : Type} s (r : outcome A) : settled r → caught s (observe s r) = Ret s.
Proof. by destruct r. Qed.

(** An [insert] after the writes: the new nodes are written by [insert]
    alone, so the new key has the inserted value. *)
Lemma insert_written s0 ls rs E f k v :
  Inv s0 ls rs E → on_tops f E →
  ∃ (ok : bool) s0' ls' rs' E' f',
    insert (written f s0) k v = Ret (ok, written f' s0') ∧
    Inv s0' ls' rs' E' ∧ on_tops f' E' ∧
    (∀ e, e ∈ E → e ∈ E') ∧
    (∀ e a, e ∈ E → last (etower e) = Some a → f' a (evalue e) = f a (evalue e)) ∧
    (ok = true →
     ∃ e a, e ∈ E' ∧ ekey e = k ∧ evalue e = v ∧ last (etower e) = Some a ∧ f' a v = v).
Proof.
  intros I Of.
  destruct (sorted_locate E k (inv_sorted _ _ _ _ I))
    as (E1 & E3 & Be & Af & [->|(e & Ek & ->)]).
  - destruct (insert_absent _ _ _ _ _ _ v I Be Af)
      as (s0' & ls' & rs' & e & Eq & I' & Ke & Ve & _).
    pose proof (insert_length _ _ _ _ _ Eq) as Le.
    assert (Sub : ∀ e0, e0 ∈ E1 ++ E3 → e0 ∈ E1 ++ e :: E3).
    { intros e0 [?|?]%elem_of_app; apply elem_of_app; [by left|right; by right]. }
    exists true, s0', ls', rs', (E1 ++ e :: E3),
      (λ a x, if a <? length (heap s0) then f a x else x).
    split.
    { rewrite insert_revalue, Eq by done. cbn [bind]. by rewrite (revalue_extend _ _ _ _ Le). }
    split; [done|]. split.
    { intros a Na x. destruct (a <? length (heap s0)); [|done]. apply Of.
      intros (e0 & Ie0 & La0). apply Na. exists e0. split; [by apply Sub|done]. }
    split; [done|]. split.
    { intros e0 a Ie0 La0.
      destruct (top_node _ _ _ _ _ _ I Ie0 La0) as (nd & _ & Hn & _).
      by rewrite (proj2 (Nat.ltb_lt _ _) (lookup_lt_Some _ _ _ Hn)). }
    intros _.
    assert (Ie : e ∈ E1 ++ e :: E3) by (apply elem_of_app; right; by left).
    destruct (top_is_Some _ _ _ _ _ I' Ie) as [a La].
    exists e, a. split; [done|]. split; [done|]. split; [done|]. split; [done|].
    destruct (a <? length (heap s0)); [|done]. apply Of.
    intros (e0 & Ie0 & La0).
    assert (e0 = e) as -> by by eapply (top_unique _ _ _ _ _ _ _ I' (Sub _ Ie0) Ie).
    by destruct (before_after_absent _ _ _ _ Be Af Ie0).
  - assert (Ie : e ∈ E1 ++ e :: E3) by (apply elem_of_app; right; by left).
    exists false, s0, ls, rs, (E1 ++ e :: E3), f.
    split.
    { rewrite insert_revalue by done. rewrite <- Ek, (insert_present _ _ _ _ _ v I Ie). done. }
    done.
Qed.

(** One operation after the writes: it comes back, and the engine is
    again an engine that inserts alone have built, with writes to the
    topmost nodes of its towers. *)
Lemma perform_written s0 ls rs E f op :
  Inv s0 ls rs E → on_tops f E →
  ∃ s0' ls' rs' E' f',
    perform (written f s0) op = Ret (written f' s0') ∧
    Inv s0' ls' rs' E' ∧ on_tops f' E' ∧
    (∀ e, e ∈ E → e ∈ E') ∧
    (∀ e a, e ∈ E → last (etower e) = Some a →
       f' a (evalue e) = assigned (ekey e) op (f a (evalue e))).
Proof.
  intros I Of.
  assert (Same : perform (written f s0) op = Ret (written f s0) →
            (∀ k x, assigned k op x = x) →
            ∃ s0' ls' rs' E' f',
              perform (written f s0) op = Ret (written f' s0') ∧
              Inv s0' ls' rs' E' ∧ on_tops f' E' ∧
              (∀ e, e ∈ E → e ∈ E') ∧
              (∀ e a, e ∈ E → last (etower e) = Some a →
                 f' a (evalue e) = assigned (ekey e) op (f a (evalue e)))).
  { intros Eq As. exists s0, ls, rs, E, f.
    split; [done|]. split; [done|]. split; [done|]. split; [done|].
    intros e a _ _. by rewrite As. }
  pose proof (λ k, queries_settled s0 ls rs E k I) as Qs.
  destruct op as [k v|k w|k|k|k|k|k|k| | | | |]; cbn [perform].
  - destruct (insert_written _ _ _ _ f k v I Of)
      as (ok & s0' & ls' & rs' & E' & f' & Eq & I' & Of' & Sub & Old & _).
    exists s0', ls', rs', E', f'. rewrite Eq. cbn [bind].
    split; [done|]. split; [done|]. split; [done|]. split; [done|]. exact Old.
  - destruct (entry_or_absent E k (inv_sorted _ _ _ _ I)) as [(e & Ie & <-)|Ab].
    + destruct (top_is_Some _ _ _ _ _ I Ie) as [a La].
      destruct (top_node _ _ _ _ _ _ I Ie La) as (nd & Fr & Hn & _).
      exists s0, ls, rs, E, (λ a' x, if decide (a' = a) then w else f a' x).
      rewrite (assign_written _ _ _ _ _ _ Fr Hn). cbn [caught].
      split; [done|]. split; [done|]. split.
      { intros a' Na x. rewrite decide_False; [by apply Of|].
        intros ->. apply Na. by exists e. }
      split; [done|]. intros e0 a0 Ie0 La0. cbn [assigned].
      destruct (decide (a0 = a)) as [->|Ne].
      * rewrite (top_unique _ _ _ _ _ _ _ I Ie0 Ie La0 La). by rewrite key_eqb_refl.
      * destruct (key_eqb (ekey e) (ekey e0)) eqn:Ke; [|done].
        apply key_eqb_eq in Ke.
        assert (e = e0) as ->
          by (apply (sorted_key_unique _ _ _ (inv_sorted _ _ _ _ I)); done).
        congruence.
    + exists s0, ls, rs, E, f. unfold assign.
      rewrite find_ref_revalue, (find_ref_absent _ _ _ _ _ I Ab). cbn [bind caught].
      split; [done|]. split; [done|]. split; [done|]. split; [done|].
      intros e a Ie La. cbn [assigned].
      destruct (key_eqb k (ekey e)) eqn:Ke; [|done].
      apply key_eqb_eq in Ke. by destruct (Ab e Ie).
  - apply Same; [|done]. apply caught_settled. by eapply find_written_settled.
  - apply Same; [|done]. apply caught_settled. rewrite height_revalue. apply Qs.
  - apply Same; [|done]. apply caught_settled. rewrite nextKey_revalue. apply Qs.
  - apply Same; [|done]. apply caught_settled. rewrite previousKey_revalue. apply Qs.
  - apply Same; [|done]. apply caught_settled. rewrite isSmallestKey_revalue. apply Qs.
  - apply Same; [|done]. apply caught_settled. rewrite isLargestKey_revalue. apply Qs.
  - apply Same; [|done]. apply caught_settled. rewrite allKeysInOrder_revalue.
    apply (Qs key_default).
  - by apply Same.
  - by apply Same.
  - by apply Same.
  - apply Same; [|done]. apply caught_settled.
    by destruct (print_written _ _ _ _ f I) as [out ->].
Qed.

(** *** A sequence of operations *)

Lemma run_written ops : ∀ s0 ls rs E f,
  Inv s0 ls rs E → on_tops f E →
  ∃ s0' ls' rs' E' f',
    run (written f s0) ops = Ret (written f' s0') ∧
    Inv s0' ls' rs' E' ∧ on_tops f' E' ∧
    (∀ e, e ∈ E → e ∈ E') ∧
    (∀ e a, e ∈ E → last (etower e) = Some a →
       f' a (evalue e) = last_assigned (ekey e) ops (f a (evalue e))).
Proof.
  induction ops as [|op ops IH]; intros s0 ls rs E f I Of.
  - by exists s0, ls, rs, E, f.
  - destruct (perform_written _ _ _ _ _ op I Of)
      as (s1 & ls1 & rs1 & E1 & f1 & Eq1 & I1 & Of1 & Sub1 & As1).
    destruct (IH _ _ _ _ _ I1 Of1) as (s2 & ls2 & rs2 & E2 & f2 & Eq2 & I2 & Of2 & Sub2 & As2).
    exists s2, ls2, rs2, E2, f2. cbn [run]. rewrite Eq1. cbn [bind].
    split; [done|]. split; [done|]. split; [done|].
    split; [intros e Ie; by apply Sub2, Sub1|].
    intros e a Ie La. rewrite (As2 e a (Sub1 e Ie) La), (As1 e a Ie La). done.
Qed.

Lemma last_assigned_none k ops : ∀ v,
  (∀ w, op_assign k w ∉ ops) → last_assigned k ops v = v.
Proof.
  induction ops as [|op ops IH]; intros v No; [done|].
  change (last_assigned k (op :: ops) v) with (last_assigned k ops (assigned k op v)).
  rewrite IH by (intros w Iw; apply (No w); by right).
  destruct op as [k' v'|k' w|k'|k'|k'|k'|k'|k'| | | | |]; try done. cbn [assigned].
  destruct (key_eqb k' k) eqn:Ke; [|done].
  apply key_eqb_eq in Ke as ->. destruct (No w). by left.
Qed.

(** C7.  After a successful [insert s k v] in an engine that any
    operations have led to, and after any further operations (inserts,
    queries, assignments through the references that [find] returns),
    [find k] returns the value assigned last through [find k], and [v] when
    nothing was assigned through it.  A write through a reference obtained
    earlier is the same write: the topmost node of a tower stays where it
    is. *)
Theorem find_returns_last_assigned_value s0 ops0 s k v s1 ops :
  SkipList_ctor = Ret s0 → run s0 ops0 = Ret s → insert s k v = Ret (true, s1) →
  ∃ s2, run s1 ops = Ret s2 ∧
        find s2 k = Ret (last_assigned k ops v) ∧
        ((∀ w, op_assign k w ∉ ops) → find s2 k = Ret v).
Proof.
  intros E0 Er Ei.
  pose proof (ctor_Inv _ E0) as I0.
  destruct (run_written ops0 s0 _ _ _ (λ _ x, x) I0 ltac:(done))
    as (sa & lsa & rsa & Ea & fa & Eqa & Ia & Ofa & _).
  rewrite revalue_id, Er in Eqa. injection Eqa as ->.
  destruct (insert_written _ _ _ _ fa k v Ia Ofa)
    as (ok & sb & lsb & rsb & Eb & fb & Eqb & Ib & Ofb & _ & _ & New).
  rewrite Ei in Eqb. injection Eqb as <- ->.
  destruct (New eq_refl) as (e & a & Ie & <- & <- & La & Fv).
  destruct (run_written ops sb _ _ _ fb Ib Ofb)
    as (sc & lsc & rsc & Ec & fc & Eqc & Ic & Ofc & Sub & As).
  exists (revalue (length (heap sc)) fc sc). split; [done|].
  assert (Fi : find (revalue (length (heap sc)) fc sc) (ekey e)
               = Ret (last_assigned (ekey e) ops (evalue e))).
  { rewrite (find_written _ _ _ _ _ _ _ Ic (Sub e Ie) La), (As e a Ie La). by rewrite Fv. }
  split; [done|]. intros No. by rewrite Fi, last_assigned_none.
Qed.

End Calls.

(** * The deterministic coin against its reference definition *)

Section Coin.
Local Open Scope Z_scope.

Lemma same_byte_refl a : same_byte a a.
Proof. by intros i _. Qed.

Lemma same_byte_trans a b c : same_byte a b → same_byte b c → same_byte a c.
Proof. intros E1 E2 i Hi. by rewrite E1, E2. Qed.

Lemma same_byte_lxor a a' b b' :
  same_byte a a' → same_byte b b' → same_byte (Z.lxor a b) (Z.lxor a' b').
Proof. intros Ea Eb i Hi. by rewrite !Z.lxor_spec, Ea, Eb. Qed.

Lemma same_byte_mod a : same_byte (a mod 256) a.
Proof. intros i Hi. change 256 with (2 ^ 8). apply Z.mod_pow2_bits_low. lia. Qed.

(** Storing into a [char] keeps the low eight bits, signed or not. *)
Lemma same_byte_to_char sgn a : same_byte (to_char sgn a) a.
Proof.
  unfold to_char. destruct (sgn && (128 <=? a mod 256)); [|apply same_byte_mod].
  intros i Hi. rewrite <- (same_byte_mod a i Hi).
  rewrite <- (Z.mod_pow2_bits_low (a mod 256 - 256) 8 i) by lia.
  rewrite <- (Z.mod_pow2_bits_low (a mod 256) 8 i) by lia.
  f_equal. change (2 ^ 8) with 256.
  rewrite <- (Z_mod_plus_full (a mod 256 - 256) 1 256). f_equal. lia.
Qed.

(** [c & (1 << i)] is non-zero exactly when bit [i] of [c] is set. *)
Lemma mask_test c i : 0 ≤ i → negb (Z.land c (Z.shiftl 1 i) =? 0) = Z.testbit c i.
Proof.
  intros Hi.
  assert (E : Z.land c (Z.shiftl 1 i) = if Z.testbit c i then Z.shiftl 1 i else 0).
  { apply Z.bits_inj'. intros n Hn. rewrite Z.land_spec, Z.shiftl_spec by done.
    destruct (Z.eq_dec n i) as [->|Ne].
    - rewrite Z.sub_diag. change (Z.testbit 1 0) with true. rewrite andb_true_r.
      destruct (Z.testbit c i) eqn:T; [|by rewrite Z.bits_0].
      rewrite Z.shiftl_spec, Z.sub_diag by done. done.
    - assert (Z.testbit 1 (n - i) = false) as ->.
      { destruct (Z.lt_ge_cases (n - i) 0); [by apply Z.testbit_neg_r|].
        change 1 with (2 ^ 0). apply Z.pow2_bits_false. lia. }
      rewrite andb_false_r. destruct (Z.testbit c i); [|by rewrite Z.bits_0].
      rewrite Z.shiftl_spec by done.
      destruct (Z.lt_ge_cases (n - i) 0); [by rewrite Z.testbit_neg_r|].
      change 1 with (2 ^ 0). symmetry. apply Z.pow2_bits_false. lia. }
  rewrite E. destruct (Z.testbit c i); [|done].
  rewrite Z.shiftl_1_l. destruct (Z.eqb_spec (2 ^ i) 0) as [Z0|]; [|done].
  pose proof (Z.pow_pos_nonneg 2 i). lia.
Qed.

(** Masking and dividing picks one 8-bit group of the key. *)
Lemma byte_group key m :
  0 ≤ m → Z.land key (Z.shiftl (Z.ones 8) m) / 2 ^ m = (key / 2 ^ m) mod 2 ^ 8.
Proof.
  intros Hm. apply Z.bits_inj'. intros n Hn.
  rewrite Z.div_pow2_bits, Z.land_spec, Z.shiftl_spec by lia.
  replace (n + m - m) with n by lia.
  destruct (Z.lt_ge_cases n 8).
  - rewrite Z.ones_spec_low, andb_true_r by lia.
    rewrite Z.mod_pow2_bits_low by lia. by rewrite Z.div_pow2_bits by lia.
  - rewrite Z.ones_spec_high, andb_false_r by lia.
    by rewrite Z.mod_pow2_bits_high by lia.
Qed.

Lemma flipCoin_unsigned_spec sgn key p : flipCoin_unsigned sgn key p = promote_spec key p.
Proof.
  unfold flipCoin_unsigned, promote_spec.
  assert (Hp : 0 ≤ p mod 8 < 8) by (apply Z.mod_pos_bound; lia).
  rewrite mask_test by lia. rewrite (same_byte_to_char sgn _ _ Hp).
  f_equal. unfold xor_all, byte_groups. simpl foldr.
  change 0xFF000000 with (Z.shiftl (Z.ones 8) 24).
  change 0x00FF0000 with (Z.shiftl (Z.ones 8) 16).
  change 0x0000FF00 with (Z.shiftl (Z.ones 8) 8).
  change 0x000000FF with (Z.ones 8).
  change 0x01000000 with (2 ^ 24). change 0x00010000 with (2 ^ 16).
  change 0x00000100 with (2 ^ 8).
  rewrite !byte_group by lia. rewrite Z.land_ones by lia.
  change (8 * 3) with 24. change (8 * 2) with 16. change (8 * 1) with 8.
  change (8 * 0) with 0. change (2 ^ 0) with 1. rewrite Z.div_1_r.
  change (2 ^ 8) with 256. rewrite Z.lxor_0_r. by rewrite !Z.lxor_assoc.
Qed.

Lemma xor_chars_shift sgn a key n j c :
  xor_chars sgn (String a key) n (S j) c = xor_chars sgn key n j c.
Proof. revert j c. induction n as [|n IH]; intros j c; [done|]. simpl. apply IH. Qed.

Lemma xor_chars_bytes sgn key : ∀ c acc,
  same_byte c acc →
  same_byte (xor_chars sgn key (String.length key) 0 c)
            (Z.lxor acc (xor_all (string_bytes key))).
Proof.
  induction key as [|a key IH]; intros c acc E.
  - simpl. unfold xor_all. simpl. by rewrite Z.lxor_0_r.
  - cbn [String.length xor_chars]. rewrite xor_chars_shift.
    cbn [char_at]. eapply same_byte_trans.
    + apply (IH _ (Z.lxor acc (Z.of_N (N_of_ascii a)))).
      eapply same_byte_trans; [apply same_byte_to_char|].
      apply same_byte_lxor; [done|apply same_byte_to_char].
    + unfold xor_all, string_bytes. simpl. rewrite Z.lxor_assoc. apply same_byte_refl.
Qed.

Lemma flipCoin_string_spec sgn key p : flipCoin_string sgn key p = promote_spec_string key p.
Proof.
  unfold flipCoin_string, promote_spec_string.
  assert (Hp : 0 ≤ p mod 8 < 8) by (apply Z.mod_pos_bound; lia).
  rewrite mask_test by lia.
  destruct key as [|a key]; [done|].
  cbn [String.length char_at]. rewrite Nat.sub_succ, Nat.sub_0_r, xor_chars_shift.
  rewrite (xor_chars_bytes sgn key _ (Z.of_N (N_of_ascii a)) (same_byte_to_char _ _) _ Hp).
  done.
Qed.

(** C3.  Both overloads of [flipCoin] are the reference definition: the
    8-bit groups of the key (the characters of a string key) are XORed into
    one byte and bit [p mod 8] of it is returned; in particular the flips of
    key 0 at count 0 and of key 5 at counts 0 and 1 are tails, heads,
    tails. *)
Theorem flipCoin_is_reference (sgn : bool) :
  (∀ key p, flipCoin_unsigned sgn key p = promote_spec key p) ∧
  flipCoin_unsigned sgn 0 0 = false ∧
  flipCoin_unsigned sgn 5 0 = true ∧
  flipCoin_unsigned sgn 5 1 = false ∧
  (∀ key p, flipCoin_string sgn key p = promote_spec_string key p).
Proof.
  split; [apply flipCoin_unsigned_spec|].
  split; [by destruct sgn|]. split; [by destruct sgn|]. split; [by destruct sgn|].
  apply flipCoin_string_spec.
Qed.

(** The coin is the same where plain [char] is signed and where it is
    unsigned, it has period 8 in the number of flips, and the wrap-around of
    the [unsigned] count of flips does not show. *)
Theorem flipCoin_portable_and_periodic :
  (∀ key p, flipCoin_unsigned true key p = flipCoin_unsigned false key p) ∧
  (∀ key p, flipCoin_string true key p = flipCoin_string false key p) ∧
  (∀ sgn key p, flipCoin_unsigned sgn key (p + 8) = flipCoin_unsigned sgn key p) ∧
  (∀ sgn key p, flipCoin_string sgn key (p + 8) = flipCoin_string sgn key p) ∧
  (∀ sgn key p, flipCoin_unsigned sgn key (wrap32 p) = flipCoin_unsigned sgn key p) ∧
  (∀ sgn key p, flipCoin_string sgn key (wrap32 p) = flipCoin_string sgn key p).
Proof.
  assert (P8 : ∀ p, (p + 8) mod 8 = p mod 8).
  { intros p. rewrite <- (Z.mul_1_l 8) at 1. apply Z_mod_plus_full. }
  assert (PW : ∀ p, wrap32 p mod 8 = p mod 8).
  { intros p. unfold wrap32. change (2 ^ 32) with (8 * 2 ^ 29).
    rewrite Z.rem_mul_r by lia. rewrite Z.mul_comm, Z_mod_plus_full. apply Z.mod_mod. lia. }
  repeat split; intros.
  - by rewrite !flipCoin_unsigned_spec.
  - by rewrite !flipCoin_string_spec.
  - rewrite !flipCoin_unsigned_spec. unfold promote_spec. by rewrite P8.
  - rewrite !flipCoin_string_spec. unfold promote_spec_string. by rewrite P8.
  - rewrite !flipCoin_unsigned_spec. unfold promote_spec. by rewrite PW.
  - rewrite !flipCoin_string_spec. unfold promote_spec_string. by rewrite PW.
Qed.

End Coin.

(** * The engine at [unsigned] keys and values *)

Lemma unsigned_key_laws (sgn : bool) : @KeyLaws Z (unsigned_key sgn).
Proof.
  split; simpl.
  - apply Z.eqb_eq.
  - apply Z.ltb_irrefl.
  - intros x y z. rewrite !Z.ltb_lt. lia.
  - intros x y. rewrite !Z.ltb_lt. lia.
  - intros x y. destruct (Z.leb_spec x y), (Z.ltb_spec x y), (Z.eqb_spec x y); simpl; lia.
Qed.

Section Unsigned.
Variable sgn : bool.
Local Open Scope Z_scope.

#[local] Instance unsigned_key_instance : KeyType Z := unsigned_key sgn.
#[local] Instance unsigned_value_instance : ValueType Z := unsigned_value.

(** C1 (the code departs from it).  [insert(3, 5)] on a fresh engine makes
    3 the smallest and the largest key; [previousKey(3)] and [nextKey(3)]
    then return 0, the key of a sentinel, and throw nothing.  The same
    happens at both ends of the keys 0..9. *)
Theorem extremal_neighbours_return_default :
  ∃ s0 s s' : SkipList Z Z, SkipList_ctor = Ret s0 ∧
    insert s0 3 5 = Ret (true, s) ∧
    allKeysInOrder s = Ret [3] ∧
    previousKey s 3 = Ret 0 ∧ nextKey s 3 = Ret 0 ∧
    insert_all s0 (map (λ i, (i, 100 + i)) [0; 1; 2; 3; 4; 5; 6; 7; 8; 9]) = Ret (10%nat, s') ∧
    previousKey s' 0 = Ret 0 ∧ nextKey s' 9 = Ret 0.
Proof.
  do 3 eexists. unfold unsigned_key_instance, unsigned_value_instance.
  split; [reflexivity|].
  split; [destruct sgn; vm_compute; reflexivity|].
  split; [by destruct sgn|]. split; [by destruct sgn|]. split; [by destruct sgn|].
  split; [destruct sgn; vm_compute; reflexivity|].
  split; by destruct sgn.
Qed.

(** C5 (the code departs from it).  The key 0 is never inserted.  On the
    fresh engine [previousKey(0)] returns 0 and [nextKey(0)] throws the
    largest-key exception; once 3 is inserted [nextKey(0)] returns 3.  None
    of the three signals that the key is absent. *)
Theorem absent_default_key_not_reported :
  ∃ s0 s : SkipList Z Z, SkipList_ctor = Ret s0 ∧
    insert s0 3 5 = Ret (true, s) ∧
    allKeysInOrder s0 = Ret [] ∧ allKeysInOrder s = Ret [3] ∧
    previousKey s0 0 = Ret 0 ∧
    nextKey s0 0 = Throw msg_largest ∧
    nextKey s 0 = Ret 3 ∧
    ¬ signals (previousKey s0 0) KeyNotFound ∧
    ¬ signals (nextKey s0 0) KeyNotFound ∧
    ¬ signals (nextKey s 0) KeyNotFound.
Proof.
  do 2 eexists. unfold unsigned_key_instance, unsigned_value_instance.
  split; [reflexivity|].
  split; [destruct sgn; vm_compute; reflexivity|].
  split; [by destruct sgn|]. split; [by destruct sgn|]. split; [by destruct sgn|].
  split; [by destruct sgn|]. split; [by destruct sgn|].
  split; [destruct sgn; vm_compute; tauto|].
  split; [destruct sgn; vm_compute; intros [?|?]; discriminate|].
  destruct sgn; vm_compute; tauto.
Qed.

(** The two tests of the project on the keys 0..9: every key from 1 to 8
    has its two neighbours, and the keys are listed in order. *)
Theorem neighbours_of_keys_0_to_9 :
  ∃ s0 s t : SkipList Z Z, SkipList_ctor = Ret s0 ∧
    insert_all s0 (map (λ i, (i, i)) [0; 1; 2; 3; 4; 5; 6; 7; 8; 9]) = Ret (10%nat, s) ∧
    Forall (λ i, previousKey s i = Ret (i - 1) ∧ nextKey s i = Ret (i + 1))
           [1; 2; 3; 4; 5; 6; 7; 8] ∧
    insert_all s0 (map (λ i, (i, 100 + i)) [0; 1; 2; 3; 4; 5; 6; 7; 8; 9]) = Ret (10%nat, t) ∧
    allKeysInOrder t = Ret [0; 1; 2; 3; 4; 5; 6; 7; 8; 9] ∧
    Forall (λ i, previousKey t i = Ret (i - 1) ∧ nextKey t i = Ret (i + 1))
           [1; 2; 3; 4; 5; 6; 7; 8].
Proof.
  do 3 eexists. unfold unsigned_key_instance, unsigned_value_instance.
  split; [reflexivity|].
  split; [destruct sgn; vm_compute; reflexivity|].
  split; [repeat constructor; by destruct sgn|].
  split; [destruct sgn; vm_compute; reflexivity|].
  split; [by destruct sgn|].
  repeat constructor; by destruct sgn.
Qed.

End Unsigned.

(** * The engine at [std::string] keys *)

Lemma ascii_compare_refl (a : ascii) : Ascii.compare a a = Eq.
Proof. unfold Ascii.compare. apply N.compare_refl. Qed.

Lemma string_compare_refl (x : string) : String.compare x x = Eq.
Proof. induction x as [|a x IH]; [done|]. simpl. by rewrite ascii_compare_refl. Qed.

Lemma ascii_compare_lt_trans (a b c : ascii) :
  Ascii.compare a b = Lt → Ascii.compare b c = Lt → Ascii.compare a c = Lt.
Proof. unfold Ascii.compare. rewrite !N.compare_lt_iff. lia. Qed.

Lemma string_compare_lt_trans (x : string) : ∀ y z,
  String.compare x y = Lt → String.compare y z = Lt → String.compare x z = Lt.
Proof.
  induction x as [|a x IH]; intros [|b y] [|c z]; simpl; try done.
  destruct (Ascii.compare a b) eqn:Eab; try done.
  - apply Ascii.compare_eq_iff in Eab as ->.
    destruct (Ascii.compare b c); try done. apply IH.
  - intros _. destruct (Ascii.compare b c) eqn:Ebc; try done.
    + apply Ascii.compare_eq_iff in Ebc as <-. by rewrite Eab.
    + by rewrite (ascii_compare_lt_trans _ _ _ Eab Ebc).
Qed.

Lemma string_key_laws (sgn : bool) : @KeyLaws string (string_key sgn).
Proof.
  split; simpl.
  - apply String.eqb_eq.
  - intros x. unfold String.ltb. by rewrite string_compare_refl.
  - intros x y z. unfold String.ltb.
    destruct (String.compare x y) eqn:Exy; try done.
    destruct (String.compare y z) eqn:Eyz; try done.
    by rewrite (string_compare_lt_trans _ _ _ Exy Eyz).
  - intros x y. unfold String.ltb.
    destruct (String.compare x y) eqn:Exy.
    + right. left. by apply String.compare_eq_iff.
    + by left.
    + right. right. rewrite String.compare_antisym, Exy. done.
  - intros x y. unfold String.ltb, String.leb.
    destruct (String.compare x y) eqn:Exy; simpl.
    + apply String.compare_eq_iff in Exy as ->. by rewrite String.eqb_refl.
    + done.
    + symmetry. apply String.eqb_neq. intros ->. by rewrite string_compare_refl in Exy.
Qed.

Section Strings.
Variable sgn : bool.
Local Open Scope string_scope.

#[local] Instance string_key_instance : KeyType string := string_key sgn.
#[local] Instance string_value_instance : ValueType string := string_value.

(** The first string test of the project: after [insert("Shindler", "ICS 46")]
    the key is found with its value, its height follows its flips, and it
    is the smallest and the largest key. *)
Theorem string_keys_scenario :
  ∃ s0 s : SkipList string string, SkipList_ctor = Ret s0 ∧
    insert s0 "Shindler" "ICS 46" = Ret (true, s) ∧
    find s "Shindler" = Ret "ICS 46" ∧
    size s = 1%Z ∧ allKeysInOrder s = Ret ["Shindler"] ∧
    isSmallestKey s "Shindler" = Ret true ∧ isLargestKey s "Shindler" = Ret true ∧
    find s "Thornton" = Throw msg_absent_the.
Proof.
  do 2 eexists. unfold string_key_instance, string_value_instance.
  split; [reflexivity|].
  split; [destruct sgn; vm_compute; reflexivity|].
  repeat split; by destruct sgn.
Qed.

End Strings.

(** * The claims at concrete engines *)

Section Witnesses.
Local Open Scope Z_scope.

#[local] Instance signed_char_key : KeyType Z := unsigned_key true.
#[local] Instance signed_char_laws : KeyLaws Z := unsigned_key_laws true.
#[local] Existing Instance unsigned_value.
#[local] Existing Instance unsigned_show.

Lemma reachable_build (kvs : list (Z * Z)) (s0 s : SkipList Z Z) (n : nat) :
  SkipList_ctor = Ret s0 → insert_all s0 kvs = Ret (n, s) → reachable s.
Proof.
  intros E0 Eq. apply reachable_ctor in E0. revert s0 n s E0 Eq.
  induction kvs as [|[k v] kvs IH]; intros s0 n s R Eq.
  - by injection Eq as _ <-.
  - cbn [insert_all] in Eq.
    destruct (insert s0 k v) as [[ok s1]| | |] eqn:E1; try done. cbn [bind] in Eq.
    destruct (insert_all s1 kvs) as [[m s2]| | |] eqn:E2; try done. cbn [bind] in Eq.
    injection Eq as _ <-. eapply IH; [|done]. by eapply reachable_insert.
Qed.

Lemma numLayers_at_least_two_witness :
  ∃ s0 s : SkipList Z Z,
    SkipList_ctor = Ret s0 ∧ insert_all s0 [(3, 5); (255, 1)] = Ret (2%nat, s) ∧
    numLayers s0 = 2 ∧ numLayers s = 13 ∧ 2 ≤ numLayers s.
Proof.
  do 2 eexists. split; [reflexivity|]. split; [vm_compute; reflexivity|].
  split; [reflexivity|]. split; [reflexivity|].
  destruct (numLayers_at_least_two (Key := Z) (Value := Z)) as (s0 & _ & _ & _ & _ & R).
  apply R. eapply (reachable_build [(3, 5); (255, 1)]); [reflexivity|].
  vm_compute. reflexivity.
Defined.

Lemma distinct_inserts_size_and_order_witness :
  ∃ s0 s ks,
    SkipList_ctor = Ret s0 ∧
    insert_all s0 [(3, 5); (1, 7); (2, 9)] = Ret (3%nat, s) ∧
    size s = 3 ∧
    allKeysInOrder s = Ret ks ∧
    StronglySorted key_lt ks ∧ ks ≡ₚ [3; 1; 2].
Proof.
  apply (distinct_inserts_size_and_order [(3, 5); (1, 7); (2, 9)]).
  - by apply (bool_decide_unpack _).
  - reflexivity.
Defined.

Lemma height_is_promotion_streak_witness :
  ∃ s0 s1 s2 t1 t2 : SkipList Z Z,
    SkipList_ctor = Ret s0 ∧
    insert s0 3 5 = Ret (true, s1) ∧ insert_all s1 [(1, 7)] = Ret (1%nat, s2) ∧
    height s2 3 = Ret 3 ∧
    insert s0 255 1 = Ret (true, t1) ∧ insert t1 5 2 = Ret (true, t2) ∧
    flipCoin 5 0 = true ∧ height t2 255 = Ret 12 ∧ height t2 5 = Ret 1.
Proof.
  do 5 eexists. split; [reflexivity|].
  split; [vm_compute; reflexivity|]. split; [vm_compute; reflexivity|].
  split.
  { eapply eq_trans;
      [eapply (height_is_promotion_streak _ 3 5 _ [(1, 7)] 1%nat _);
         [by apply reachable_ctor|vm_compute; reflexivity..]
      |reflexivity]. }
  split; [vm_compute; reflexivity|]. split; [vm_compute; reflexivity|].
  split; [reflexivity|]. split.
  { eapply eq_trans;
      [eapply (height_is_promotion_streak _ 255 1 _ [(5, 2)] 1%nat _);
         [by apply reachable_ctor|vm_compute; reflexivity..]
      |reflexivity]. }
  eapply eq_trans;
    [eapply (height_is_promotion_streak _ 5 2 _ [] 0%nat _);
       [eapply (reachable_build [(255, 1)]); [reflexivity|vm_compute; reflexivity]
       |vm_compute; reflexivity
       |reflexivity]
    |reflexivity].
Defined.

Lemma reinsert_changes_nothing_witness :
  ∃ s0 s : SkipList Z Z,
    SkipList_ctor = Ret s0 ∧ insert s0 3 5 = Ret (true, s) ∧
    ∃ s', insert s 3 9 = Ret (false, s') ∧ s' = s ∧
          size s' = size s ∧ allKeysInOrder s' = allKeysInOrder s ∧
          numLayers s' = numLayers s ∧ ∀ k', find s' k' = find s k'.
Proof.
  do 2 eexists. split; [reflexivity|]. split; [vm_compute; reflexivity|].
  eapply (reinsert_changes_nothing _ 3 9 [3]).
  - eapply (reachable_build [(3, 5)]); [reflexivity|vm_compute; reflexivity].
  - reflexivity.
  - by left.
Defined.

Lemma find_returns_last_assigned_value_witness :
  ∃ s0 s1 : SkipList Z Z,
    SkipList_ctor = Ret s0 ∧ insert s0 3 5 = Ret (true, s1) ∧
    (∃ s2, run s1 [] = Ret s2 ∧ find s2 3 = Ret 5 ∧
           ((∀ w, op_assign 3 w ∉ ([] : list (operation Z Z))) → find s2 3 = Ret 5)) ∧
    (∃ s2, run s1 [op_insert 1 7; op_assign 1 8; op_insert 3 9; op_print; op_nextKey 3;
                   op_assign 4 2; op_find 4; op_insert 4 2] = Ret s2 ∧
           find s2 3 = Ret 5 ∧
           ((∀ w, op_assign 3 w ∉ [op_insert 1 7; op_assign 1 8; op_insert 3 9; op_print;
                                    op_nextKey 3; op_assign 4 2; op_find 4; op_insert 4 2]) →
            find s2 3 = Ret 5)) ∧
    (∃ s2, run s1 [op_assign 3 9; op_insert 3 1; op_insert 2 6; op_assign 3 4] = Ret s2 ∧
           find s2 3 = Ret 4 ∧
           ((∀ w, op_assign 3 w ∉ [op_assign 3 9; op_insert 3 1; op_insert 2 6;
                                    op_assign 3 4]) →
            find s2 3 = Ret 5)).
Proof.
  do 2 eexists. split; [reflexivity|].
  match goal with |- ?P ∧ _ => assert (Ei : P) by (vm_compute; reflexivity) end.
  split; [exact Ei|].
  split; [|split].
  - destruct (find_returns_last_assigned_value _ [] _ 3 5 _ [] eq_refl eq_refl Ei)
      as (s2 & Er & Fi & No).
    exists s2. split; [exact Er|]. split; [exact Fi|exact No].
  - destruct (find_returns_last_assigned_value _ [] _ 3 5 _
                [op_insert 1 7; op_assign 1 8; op_insert 3 9; op_print; op_nextKey 3;
                 op_assign 4 2; op_find 4; op_insert 4 2] eq_refl eq_refl Ei)
      as (s2 & Er & Fi & No).
    exists s2. split; [exact Er|]. split; [exact Fi|exact No].
  - destruct (find_returns_last_assigned_value _ [] _ 3 5 _
                [op_assign 3 9; op_insert 3 1; op_insert 2 6; op_assign 3 4]
                eq_refl eq_refl Ei)
      as (s2 & Er & Fi & No).
    exists s2. split; [exact Er|]. split; [exact Fi|exact No].
Defined.

(** The claim as the specification words it, at a concrete engine: after
    [insert(3, 5)] on a fresh engine the client assigns [sl.find(3) = 9],
    which does not tear the engine down, and [find(3)] returns 9, not 5. *)
Lemma find_after_assignment_counterexample :
  ∃ s0 s1 s2 : SkipList Z Z,
    SkipList_ctor = Ret s0 ∧ insert s0 3 5 = Ret (true, s1) ∧
    run s1 [op_assign 3 9] = Ret s2 ∧
    find s2 3 = Ret 9 ∧ find s2 3 ≠ Ret 5.
Proof.
  do 3 eexists. split; [reflexivity|]. split; [vm_compute; reflexivity|].
  split; [vm_compute; reflexivity|]. split; [vm_compute; reflexivity|].
  vm_compute. by intros [=].
Qed.

Lemma top_layer_has_no_keys_witness :
  ∃ s0 s : SkipList Z Z,
    SkipList_ctor = Ret s0 ∧ insert s0 3 5 = Ret (true, s) ∧
    (∃ tl tr ntl ntr bl br nbl nbr,
       top_left s = Some tl ∧ top_right s = Some tr ∧
       heap s !! tl = Some ntl ∧ heap s !! tr = Some ntr ∧
       next ntl = Some tr ∧ next ntr = None ∧
       down ntl = Some bl ∧ down ntr = Some br ∧
       heap s !! bl = Some nbl ∧ heap s !! br = Some nbr ∧
       up nbl = Some tl ∧ up nbr = Some tr) ∧
    ∀ k v s', insert s k v = Ret (true, s') →
      ∃ hk, height s' k = Ret hk ∧ numLayers s' = Z.max (numLayers s) (hk + 1).
Proof.
  do 2 eexists. split; [reflexivity|]. split; [vm_compute; reflexivity|].
  eapply top_layer_has_no_keys.
  eapply (reachable_build [(3, 5)]); [reflexivity|vm_compute; reflexivity].
Defined.

Lemma previousKey_default_on_empty_witness :
  ∃ s0 : SkipList Z Z, SkipList_ctor = Ret s0 ∧ previousKey s0 0 = Ret 0.
Proof. exact (previousKey_default_on_empty (Key := Z) (Value := Z)). Defined.

Lemma adjacent_keys_are_neighbours_witness :
  ∃ s0 s : SkipList Z Z,
    SkipList_ctor = Ret s0 ∧ insert_all s0 [(3, 5); (1, 7); (2, 9)] = Ret (3%nat, s) ∧
    allKeysInOrder s = Ret [1; 2; 3] ∧ nextKey s 2 = Ret 3 ∧ previousKey s 3 = Ret 2.
Proof.
  do 2 eexists. split; [reflexivity|]. split; [vm_compute; reflexivity|].
  split; [reflexivity|].
  eapply (adjacent_keys_are_neighbours _ [1] 2 3 []); [|reflexivity].
  eapply (reachable_build [(3, 5); (1, 7); (2, 9)]); [reflexivity|vm_compute; reflexivity].
Defined.

Lemma extremal_neighbour_is_default_witness :
  ∃ s0 s : SkipList Z Z,
    SkipList_ctor = Ret s0 ∧ insert_all s0 [(3, 5); (1, 7); (2, 9)] = Ret (3%nat, s) ∧
    allKeysInOrder s = Ret [1; 2; 3] ∧ previousKey s 1 = Ret 0 ∧ nextKey s 3 = Ret 0.
Proof.
  do 2 eexists. split; [reflexivity|]. split; [vm_compute; reflexivity|].
  split; [reflexivity|].
  match goal with |- previousKey ?s _ = _ ∧ _ => assert (R : reachable s) end.
  { eapply (reachable_build [(3, 5); (1, 7); (2, 9)]); [reflexivity|vm_compute; reflexivity]. }
  split.
  - by apply (proj1 (extremal_neighbour_is_default _ [1; 2; 3] 1 R eq_refl)).
  - by apply (proj2 (extremal_neighbour_is_default _ [1; 2; 3] 3 R eq_refl)).
Defined.

Lemma absent_key_signals_witness :
  ∃ s0 s : SkipList Z Z,
    SkipList_ctor = Ret s0 ∧ insert s0 3 5 = Ret (true, s) ∧
    height s 7 = Throw msg_absent_the ∧ find s 7 = Throw msg_absent_the ∧
    isSmallestKey s 7 = Throw msg_absent_the ∧ isLargestKey s 7 = Throw msg_absent_the ∧
    previousKey s 7 = Throw msg_absent_this ∧ nextKey s 7 = Throw msg_absent_this.
Proof.
  do 2 eexists. split; [reflexivity|]. split; [vm_compute; reflexivity|].
  match goal with |- height ?s _ = _ ∧ _ =>
    assert (R : reachable s)
      by (eapply (reachable_build [(3, 5)]); [reflexivity|vm_compute; reflexivity])
  end.
  destruct (absent_key_signals _ [3] 7 R eq_refl) as (Hh & Hf & Hs & Hl & Hn).
  { by apply (bool_decide_unpack _). }
  destruct Hn as [Hp Hn]; [done|]. by repeat split.
Defined.

Lemma absent_default_key_taken_for_sentinel_witness :
  ∃ s0 s : SkipList Z Z,
    SkipList_ctor = Ret s0 ∧ insert s0 3 5 = Ret (true, s) ∧
    nextKey s 0 = Ret 3 ∧ previousKey s0 0 = Ret 0 ∧ nextKey s0 0 = Throw msg_largest.
Proof.
  do 2 eexists. split; [reflexivity|]. split; [vm_compute; reflexivity|].
  match goal with |- nextKey ?s _ = _ ∧ previousKey ?s0 _ = _ ∧ _ =>
    assert (R0 : reachable s0) by (by apply reachable_ctor);
    assert (R : reachable s)
      by (eapply (reachable_build [(3, 5)]); [reflexivity|vm_compute; reflexivity])
  end.
  split; [|split].
  - apply (proj1 (absent_default_key_taken_for_sentinel _ [3] R eq_refl)).
    by repeat constructor.
  - apply (proj2 (absent_default_key_taken_for_sentinel _ [] R0 eq_refl)).
    by repeat constructor.
  - apply (proj1 (absent_default_key_taken_for_sentinel _ [] R0 eq_refl)).
    by repeat constructor.
Defined.

Lemma smallest_largest_tests_witness :
  ∃ s0 s : SkipList Z Z,
    SkipList_ctor = Ret s0 ∧ insert_all s0 [(3, 5); (1, 7); (2, 9)] = Ret (3%nat, s) ∧
    isSmallestKey s 1 = Ret true ∧ isLargestKey s 1 = Ret false ∧
    ∃ first_one last_one,
      isSmallestKey s 1 = Ret first_one ∧ (first_one = true ↔ head [1; 2; 3] = Some 1) ∧
      isLargestKey s 1 = Ret last_one ∧ (last_one = true ↔ last [1; 2; 3] = Some 1).
Proof.
  do 2 eexists. split; [reflexivity|]. split; [vm_compute; reflexivity|].
  split; [reflexivity|]. split; [reflexivity|].
  eapply (smallest_largest_tests _ [1; 2; 3] 1).
  - eapply (reachable_build [(3, 5); (1, 7); (2, 9)]); [reflexivity|vm_compute; reflexivity].
  - reflexivity.
  - by left.
Defined.

(** The engine with the keys 1, 2, 3. *)
Ltac build_123 :=
  eapply (reachable_build [(3, 5); (1, 7); (2, 9)]); [reflexivity|vm_compute; reflexivity].

Lemma queries_come_back_witness :
  ∃ s0 s : SkipList Z Z,
    SkipList_ctor = Ret s0 ∧ insert_all s0 [(3, 5); (1, 7); (2, 9)] = Ret (3%nat, s) ∧
    settled (height s 2) ∧ settled (find s 2) ∧
    settled (nextKey s 2) ∧ settled (previousKey s 2) ∧
    settled (isSmallestKey s 2) ∧ settled (isLargestKey s 2) ∧
    settled (allKeysInOrder s).
Proof.
  do 2 eexists. split; [reflexivity|]. split; [vm_compute; reflexivity|].
  apply queries_come_back. build_123.
Defined.

Lemma insert_comes_back_witness :
  ∃ s0 s : SkipList Z Z,
    SkipList_ctor = Ret s0 ∧ insert_all s0 [(3, 5); (1, 7); (2, 9)] = Ret (3%nat, s) ∧
    ∃ ok s', insert s 2 0 = Ret (ok, s') ∧ (ok = true ↔ 2 ∉ [1; 2; 3]) ∧ reachable s'.
Proof.
  do 2 eexists. split; [reflexivity|]. split; [vm_compute; reflexivity|].
  apply insert_comes_back; [build_123|reflexivity].
Defined.

Lemma insert_new_key_witness :
  ∃ s0 s : SkipList Z Z,
    SkipList_ctor = Ret s0 ∧ insert_all s0 [(3, 5); (1, 7)] = Ret (2%nat, s) ∧
    ∃ s' l1 l2,
      insert s 2 9 = Ret (true, s') ∧
      [1; 3] = l1 ++ l2 ∧ Forall (λ x, key_lt x 2) l1 ∧ Forall (key_lt 2) l2 ∧
      allKeysInOrder s' = Ret (l1 ++ 2 :: l2) ∧
      size s' = wrap64 (size s + 1) ∧
      find s' 2 = Ret 9 ∧
      ∀ k', k' ≠ 2 → find s' k' = find s k' ∧ height s' k' = height s k'.
Proof.
  do 2 eexists. split; [reflexivity|]. split; [vm_compute; reflexivity|].
  apply (insert_new_key _ [1; 3] 2 9).
  - eapply (reachable_build [(3, 5); (1, 7)]); [reflexivity|vm_compute; reflexivity].
  - reflexivity.
  - by apply (bool_decide_unpack _).
Defined.

Lemma listing_size_isEmpty_witness :
  ∃ s0 s : SkipList Z Z,
    SkipList_ctor = Ret s0 ∧ insert_all s0 [(3, 5); (1, 7); (2, 9)] = Ret (3%nat, s) ∧
    ∃ ks, allKeysInOrder s = Ret ks ∧ StronglySorted key_lt ks ∧ NoDup ks ∧
          size s = wrap64 (Z.of_nat (length ks)) ∧
          (Z.of_nat (length ks) < 2 ^ 64 → (isEmpty s = true ↔ ks = [])).
Proof.
  do 2 eexists. split; [reflexivity|]. split; [vm_compute; reflexivity|].
  apply listing_size_isEmpty. build_123.
Defined.

Lemma layers_above_tallest_tower_witness :
  ∃ s0 s : SkipList Z Z,
    SkipList_ctor = Ret s0 ∧ insert_all s0 [(3, 5); (1, 7); (2, 9)] = Ret (3%nat, s) ∧
    numLayers s = 4 ∧ height s 3 = Ret 3 ∧
    ([1; 2; 3] = [] → numLayers s = 2) ∧
    (∀ k, k ∈ [1; 2; 3] → ∃ hk, height s k = Ret hk ∧ 1 ≤ hk < numLayers s) ∧
    ([1; 2; 3] ≠ [] → ∃ k, k ∈ [1; 2; 3] ∧ height s k = Ret (numLayers s - 1)).
Proof.
  do 2 eexists. split; [reflexivity|]. split; [vm_compute; reflexivity|].
  split; [reflexivity|]. split; [reflexivity|].
  apply layers_above_tallest_tower; [build_123|reflexivity].
Defined.

Lemma layers_within_cap_witness :
  ∃ s0 s : SkipList Z Z,
    SkipList_ctor = Ret s0 ∧ insert_all s0 [(255, 1); (3, 5)] = Ret (2%nat, s) ∧
    numLayers s = 13 ∧ numLayers s ≤ 13.
Proof.
  do 2 eexists. split; [reflexivity|]. split; [vm_compute; reflexivity|].
  split; [reflexivity|].
  apply (layers_within_cap _ [3; 255]); [|reflexivity|reflexivity].
  eapply (reachable_build [(255, 1); (3, 5)]); [reflexivity|vm_compute; reflexivity].
Defined.

Lemma destructor_deletes_every_node_once_witness :
  ∃ s0 s : SkipList Z Z,
    SkipList_ctor = Ret s0 ∧ insert_all s0 [(3, 5); (1, 7)] = Ret (2%nat, s) ∧
    SkipList_dtor s = Ret [9; 10; 6; 8; 7; 2; 12; 5; 3; 0; 11; 4; 1]%nat ∧
    ∃ dead, SkipList_dtor s = Ret dead ∧ dead ≡ₚ seq 0 (length (heap s)).
Proof.
  do 2 eexists. split; [reflexivity|]. split; [vm_compute; reflexivity|].
  split; [vm_compute; reflexivity|].
  apply destructor_deletes_every_node_once.
  eapply (reachable_build [(3, 5); (1, 7)]); [reflexivity|vm_compute; reflexivity].
Defined.

Lemma first_insert_wins_witness :
  ∃ s0 s : SkipList Z Z,
    SkipList_ctor = Ret s0 ∧ insert s0 3 5 = Ret (true, s) ∧
    ∃ n s' ks',
      insert_all s [(1, 7); (3, 9); (1, 8)] = Ret (n, s') ∧ reachable s' ∧
      allKeysInOrder s' = Ret ks' ∧
      (∀ k, k ∈ ks' ↔ k ∈ [3] ∨ k ∈ ([(1, 7); (3, 9); (1, 8)].*1)) ∧
      length ks' = (length [3] + n)%nat ∧
      (∀ k, k ∈ [3] → height s' k = height s k) ∧
      ∀ k, find s' k =
             match find s k, first_value k [(1, 7); (3, 9); (1, 8)] with
             | Ret v, _ => Ret v
             | _, Some v => Ret v
             | _, None => Throw msg_absent_the
             end.
Proof.
  do 2 eexists. split; [reflexivity|]. split; [vm_compute; reflexivity|].
  apply (first_insert_wins [(1, 7); (3, 9); (1, 8)]); [|reflexivity].
  eapply (reachable_build [(3, 5)]); [reflexivity|vm_compute; reflexivity].
Defined.

Lemma print_writes_the_layers_witness :
  ∃ s0 s : SkipList Z Z,
    SkipList_ctor = Ret s0 ∧ insert_all s0 [(3, 5); (1, 7); (0, 4)] = Ret (3%nat, s) ∧
    print s = Ret ["(-, -) -> (-, -) -> END";
                   "(-, -) -> (3, 5) -> (-, -) -> END";
                   "(-, -) -> (1, 7) -> (3, 5) -> (-, -) -> END";
                   "(-, -) -> (-, -) -> (1, 7) -> (3, 5) -> (-, -) -> END"]%string ∧
    print s = Ret (layer_line s [0; 1; 3] <$> rev (seq 0 (Z.to_nat (numLayers s)))).
Proof.
  do 2 eexists. split; [reflexivity|]. split; [vm_compute; reflexivity|].
  split; [vm_compute; reflexivity|].
  apply print_writes_the_layers; [|reflexivity].
  eapply (reachable_build [(3, 5); (1, 7); (0, 4)]); [reflexivity|vm_compute; reflexivity].
Defined.

Lemma find_reference_is_stable_witness :
  ∃ s0 s : SkipList Z Z,
    SkipList_ctor = Ret s0 ∧ insert_all s0 [(3, 5); (1, 7)] = Ret (2%nat, s) ∧
    find_ref s 3 = Ret (Some 8%nat) ∧
    (2 ∉ [1; 3] → find_ref s 2 = Throw msg_absent_the) ∧
    (3 ∈ [1; 3] →
     ∃ a nd, find_ref s 3 = Ret (Some a) ∧ heap s !! a = Some nd ∧
             key nd = 3 ∧ find s 3 = Ret (value nd) ∧
             ∀ kvs n s', insert_all s kvs = Ret (n, s') →
               ∃ nd', find_ref s' 3 = Ret (Some a) ∧ heap s' !! a = Some nd' ∧
                      key nd' = 3 ∧ value nd' = value nd).
Proof.
  do 2 eexists. split; [reflexivity|]. split; [vm_compute; reflexivity|].
  split; [reflexivity|].
  match goal with |- (_ → find_ref ?s _ = _) ∧ _ => assert (R : reachable s) end.
  { eapply (reachable_build [(3, 5); (1, 7)]); [reflexivity|vm_compute; reflexivity]. }
  split.
  - apply (proj1 (find_reference_is_stable _ [1; 3] 2 R eq_refl)).
  - apply (proj2 (find_reference_is_stable _ [1; 3] 3 R eq_refl)).
Defined.

Lemma values_are_only_carried_witness :
  ∃ s0 s : SkipList Z Z,
    SkipList_ctor = Ret s0 ∧ insert_all s0 [(3, 5); (1, 7)] = Ret (2%nat, s) ∧
    find (revalue 13 (λ _ v, v + 100) s) 3 = Ret 105 ∧
    height (revalue 13 (λ _ v, v + 100) s) 3 = height s 3 ∧
    allKeysInOrder (revalue 13 (λ _ v, v + 100) s) = allKeysInOrder s.
Proof.
  do 2 eexists. split; [reflexivity|]. split; [vm_compute; reflexivity|].
  split; [reflexivity|].
  match goal with |- height (revalue ?n ?f ?s) ?k = _ ∧ _ =>
    destruct (values_are_only_carried n f s k 0) as (_ & Hh & _ & _ & _ & _ & Hk & _)
  end; [vm_compute; lia|].
  by split.
Defined.

Lemma assignment_through_find_witness :
  ∃ s0 s : SkipList Z Z,
    SkipList_ctor = Ret s0 ∧ insert_all s0 [(3, 5); (1, 7)] = Ret (2%nat, s) ∧
    ∃ a nd, find_ref s 3 = Ret (Some a) ∧ heap s !! a = Some nd ∧
      let written := revalue (length (heap s)) (λ a' v, if decide (a' = a) then 9 else v) in
      heap (written s) = <[a := set_value 9 nd]> (heap s) ∧
      ∀ kvs m s',
        insert_all s kvs = Ret (m, s') →
        insert_all (written s) kvs = Ret (m, written s') ∧
        find (written s') 3 = Ret 9 ∧
        ∀ k', k' ≠ 3 → find (written s') k' = find s' k'.
Proof.
  do 2 eexists. split; [reflexivity|]. split; [vm_compute; reflexivity|].
  apply (assignment_through_find _ [1; 3] 3 9); [|reflexivity|by right; left].
  eapply (reachable_build [(3, 5); (1, 7)]); [reflexivity|vm_compute; reflexivity].
Defined.

End Witnesses.
